(** * Web image converter: geometry, file names, pipeline and scheduler

    A shallow embedding of the conversion core of the web image converter
    ([src/app/utils.ts], [src/app/conversion.ts] and the [convertOne] /
    [convertAll] drivers of [src/app/main.ts]) together with the properties
    of it that are checked here.

    Modelling conventions.
    - A JavaScript [number] is the rational it stands for ([Q]).  The
      values that the code manipulates are pixel counts, percentages and
      their quotients.  Numeric results are compared with [==] ([Qeq]).
      Division by zero never occurs under the hypotheses of the theorems
      below.
    - The geometry is given twice.  [Geometry] reads [/], [*] and [-] as
      exact; the properties stated over it do not depend on the rounding of
      a quotient.  [Ieee] rounds the result of each operation to the
      nearest binary64 value, as JavaScript does; the properties that
      depend on which side of a half a quotient falls are stated over
      it.
    - A JavaScript string is a [string] of characters.
    - Asynchronous collaborators (decode, resample, draw, encode) are
      oracles gathered in an environment record; every call is recorded
      in a trace and may complete normally or throw a value. *)

From Stdlib Require Import ZArith QArith Qround Lqa Lia List String Ascii Bool.
From Stdlib Require Import DecimalString Qpower Floats.
From stdpp Require Import base strings gmap.

Import ListNotations.
Local Open Scope Q_scope.

(** ** JavaScript numbers *)

Module Js.

Definition number := Q.

(** [!x] is true exactly for the falsy number [0]. *)
Definition truthy (x : number) : bool := negb (Qeq_bool x 0).

(** [a === b] on numbers. *)
Definition strictEq (a b : number) : bool := Qeq_bool a b.

(** [a > b] on numbers. *)
Definition gt (a b : number) : bool := negb (Qle_bool a b).

(** [a || b] on numbers. *)
Definition orElse (a b : number) : number := if truthy a then a else b.

(** [Math.max(a, b)] and [Math.min(a, b)]. *)
Definition Math_max (a b : number) : number := if Qle_bool a b then b else a.
Definition Math_min (a b : number) : number := if Qle_bool a b then a else b.

(** [Math.floor(x)]. *)
Definition Math_floor (x : number) : number := inject_Z (Qfloor x).

(** [Math.round(x)]: the nearest integer, a tie going to the larger one. *)
Definition Math_round (x : number) : number := inject_Z (Qfloor (x + (1 # 2))).

(** Values that can be thrown and caught. *)
Inductive Value :=
| VError (message : string)
| VString (s : string)
| VBool (b : bool)
| VNull
| VUndefined.

(** [String(v)]. *)
Definition String_ (v : Value) : string :=
  match v with
  | VError message =>
      if String.eqb message "" then "Error" else ("Error: " ++ message)%string
  | VString s => s
  | VBool true => "true"
  | VBool false => "false"
  | VNull => "null"
  | VUndefined => "undefined"
  end.

(** How a call completes. *)
Inductive Completion (A : Type) :=
| Normal (a : A)
| Throw (v : Value).
Arguments Normal {A} a.
Arguments Throw {A} v.

End Js.
Import Js.

(** ** [utils.ts] *)

Module Utils.

Definition quoteChar : ascii := ascii_of_nat 34.

(** The character class of the sanitising pattern: backslash, slash,
    colon, star, question mark, double quote, angle brackets and bar. *)
Definition isUnsafe (c : ascii) : bool :=
  existsb (Ascii.eqb c)
    ["\"%char; "/"%char; ":"%char; "*"%char; "?"%char; quoteChar;
     "<"%char; ">"%char; "|"%char].

(** [name.replace(pattern, '_')] where the pattern is one or more
    characters of the class, with the global flag.  The scan has two states:
    [safeFilename] is outside a match and [inMatch] is inside one, where
    the greedy [+] keeps consuming characters of the class. *)
Fixpoint safeFilename (name : string) : string :=
  match name with
  | EmptyString => EmptyString
  | String c rest =>
      if isUnsafe c then String "_" (inMatch rest)
      else String c (safeFilename rest)
  end
with inMatch (name : string) : string :=
  match name with
  | EmptyString => EmptyString
  | String c rest =>
      if isUnsafe c then inMatch rest
      else String c (safeFilename rest)
  end.

Definition extFromMime (mime : string) : string :=
  if String.eqb mime "image/jpeg" then "jpg"
  else if String.eqb mime "image/png" then "png"
  else if String.eqb mime "image/webp" then "webp"
  else if String.eqb mime "image/avif" then "avif"
  else "img".

Definition clamp (value min max : number) : number :=
  Math_min max (Math_max min value).

End Utils.
Import Utils.

(** ** [types.ts] *)

Module Types.

Inductive Status := Ready | Converting | Done | Error.

Inductive SizeMode := SizeNone | Pixels | Scale.

Inductive Fit := Keep | Contain | Cover | Stretch.

Inductive SmoothingQuality := SmoothLow | SmoothMedium | SmoothHigh.

Inductive ResizeQuality := Pixelated | ResizeLow | ResizeMedium | ResizeHigh.

Inductive BmpResizeQuality := Off | Resize (q : ResizeQuality).

(** Opaque browser objects are handles. *)
Definition Handle := nat.

Record Blob := { blob_handle : Handle; blob_type : string; blob_size : number }.

Record Output := {
  out_blob : Blob;
  out_type : string;
  out_name : string;
  out_size : number;
  out_width : number;
  out_height : number
}.

(** [Item]; an optional field that is [undefined] is [None]. *)
Record Item := {
  item_id : string;
  item_file : Handle;
  item_name : string;
  item_type : string;
  item_size : number;
  item_status : Status;
  item_error : option string;
  item_output : option Output
}.

Record OutputDimensions := { width : number; height : number }.

(** An [ImageBitmap] object: its identity and its two read-only fields. *)
Record ImageBitmap := { bmp_ref : Handle; bmp_width : number; bmp_height : number }.

Inductive DecodedImage :=
| DecodedBitmap (bmp : ImageBitmap) (w h : number)
| DecodedImg (img : Handle) (w h : number).

Definition decoded_width (d : DecodedImage) : number :=
  match d with DecodedBitmap _ w _ => w | DecodedImg _ w _ => w end.

Definition decoded_height (d : DecodedImage) : number :=
  match d with DecodedBitmap _ _ h => h | DecodedImg _ _ h => h end.

Record DrawRect := {
  sx : number; sy : number; sw : number; sh : number;
  dx : number; dy : number; dw : number; dh : number
}.

Record ConversionOptions := {
  opt_type : string;
  quality : number;
  sizeMode : SizeMode;
  w : number;
  h : number;
  scalePct : number;
  fit : Fit;
  bg : string;
  smoothing : bool;
  smoothingQuality : SmoothingQuality;
  bmpResizeQuality : BmpResizeQuality
}.

End Types.
Import Types.

(** ** [conversion.ts]: geometry *)

Module Geometry.

Definition computeDrawRects
    (sourceWidth sourceHeight destWidth destHeight : number) (mode : Fit)
    : DrawRect :=
  if negb (truthy destWidth) || negb (truthy destHeight) then
    {| sx := 0; sy := 0; sw := sourceWidth; sh := sourceHeight;
       dx := 0; dy := 0; dw := sourceWidth; dh := sourceHeight |}
  else
    let fitMode :=
      match mode with
      | Keep =>
          if negb (strictEq destWidth sourceWidth)
             || negb (strictEq destHeight sourceHeight)
          then Stretch else Keep
      | m => m
      end in
    match fitMode with
    | Keep =>
        {| sx := 0; sy := 0; sw := sourceWidth; sh := sourceHeight;
           dx := 0; dy := 0; dw := sourceWidth; dh := sourceHeight |}
    | Stretch =>
        {| sx := 0; sy := 0; sw := sourceWidth; sh := sourceHeight;
           dx := 0; dy := 0; dw := destWidth; dh := destHeight |}
    | Contain =>
        let sourceAspectRatio := sourceWidth / sourceHeight in
        let destAspectRatio := destWidth / destHeight in
        let dw' := if gt sourceAspectRatio destAspectRatio
                   then destWidth
                   else Math_round (destHeight * sourceAspectRatio) in
        let dh' := if gt sourceAspectRatio destAspectRatio
                   then Math_round (destWidth / sourceAspectRatio)
                   else destHeight in
        let dx' := Math_floor ((destWidth - dw') / 2) in
        let dy' := Math_floor ((destHeight - dh') / 2) in
        {| sx := 0; sy := 0; sw := sourceWidth; sh := sourceHeight;
           dx := dx'; dy := dy'; dw := dw'; dh := dh' |}
    | Cover =>
        let sourceAspectRatio := sourceWidth / sourceHeight in
        let destAspectRatio := destWidth / destHeight in
        let sw' := if gt sourceAspectRatio destAspectRatio
                   then Math_round (sourceHeight * destAspectRatio)
                   else sourceWidth in
        let sh' := if gt sourceAspectRatio destAspectRatio
                   then sourceHeight
                   else Math_round (sourceWidth / destAspectRatio) in
        let sx' := Math_floor ((sourceWidth - sw') / 2) in
        let sy' := Math_floor ((sourceHeight - sh') / 2) in
        {| sx := sx'; sy := sy'; sw := sw'; sh := sh';
           dx := 0; dy := 0; dw := destWidth; dh := destHeight |}
    end.

Definition computeOutputSize
    (sourceWidth sourceHeight : number) (options : ConversionOptions)
    : OutputDimensions :=
  match sizeMode options with
  | SizeNone => {| width := sourceWidth; height := sourceHeight |}
  | Scale =>
      let scale := clamp (scalePct options) 1 1000 / 100 in
      {| width := Math_max 1 (Math_round (sourceWidth * scale));
         height := Math_max 1 (Math_round (sourceHeight * scale)) |}
  | Pixels =>
      let aspectRatio := sourceWidth / sourceHeight in
      if truthy (w options) && truthy (h options) then
        {| width := w options; height := h options |}
      else if truthy (w options) then
        {| width := w options; height := Math_round (w options / aspectRatio) |}
      else if truthy (h options) then
        {| width := Math_round (h options * aspectRatio); height := h options |}
      else
        {| width := sourceWidth; height := sourceHeight |}
  end.

End Geometry.
Import Geometry.

(** ** [conversion.ts]: geometry as JavaScript evaluates it

    A JavaScript number is a binary64 value, and every [/], [*] and [-]
    rounds its exact result to the nearest such value, a tie going to the
    even significand.  [Geometry] above reads the operations as exact;
    here each one is rounded.  A number is still the rational it stands
    for, and the arguments of the functions are taken to be binary64
    values; infinities, NaN and the subnormal range do not occur for the
    pixel sizes and percentages the functions are applied to. *)

Module Ieee.

(** For [0 < x], the [e] with [2^e <= x < 2^(e+1)]. *)
Definition exponent (x : Q) : Z :=
  let k := (Z.log2 (Qnum x) - Z.log2 (Zpos (Qden x)))%Z in
  if Qle_bool (2 ^ k) x then k else (k - 1)%Z.

(** The integer nearest to [m], the even one on a tie. *)
Definition nearestEven (m : Q) : Z :=
  let f := Qfloor m in
  match Qcompare (m - inject_Z f) (1 # 2) with
  | Lt => f
  | Gt => (f + 1)%Z
  | Eq => if Z.even f then f else (f + 1)%Z
  end.

(** The number with a significand of 53 bits nearest to [x > 0]. *)
Definition nearest (x : Q) : Q :=
  let e := exponent x in
  inject_Z (nearestEven (x * 2 ^ (52 - e))) * 2 ^ (e - 52).

(** The binary64 value nearest to [x]. *)
Definition double (x : Q) : number :=
  match Qcompare x 0 with
  | Eq => 0
  | Gt => nearest x
  | Lt => - nearest (- x)
  end.

(** The numbers that are binary64 values. *)
Definition isDouble (x : Q) : Prop := double x == x.

(** The largest relative change [double] makes, [2^-53], and a bound
    [2^-51] on what two roundings in a row can add up to. *)
Definition eps : Q := 1 # 9007199254740992.
Definition slack : Q := 1 # 2251799813685248.

(** [a - b], [a * b] and [a / b] on numbers. *)
Definition sub (a b : number) : number := double (a - b).
Definition mul (a b : number) : number := double (a * b).
Definition div (a b : number) : number := double (a / b).

Definition computeDrawRects
    (sourceWidth sourceHeight destWidth destHeight : number) (mode : Fit)
    : DrawRect :=
  if negb (truthy destWidth) || negb (truthy destHeight) then
    {| sx := 0; sy := 0; sw := sourceWidth; sh := sourceHeight;
       dx := 0; dy := 0; dw := sourceWidth; dh := sourceHeight |}
  else
    let fitMode :=
      match mode with
      | Keep =>
          if negb (strictEq destWidth sourceWidth)
             || negb (strictEq destHeight sourceHeight)
          then Stretch else Keep
      | m => m
      end in
    match fitMode with
    | Keep =>
        {| sx := 0; sy := 0; sw := sourceWidth; sh := sourceHeight;
           dx := 0; dy := 0; dw := sourceWidth; dh := sourceHeight |}
    | Stretch =>
        {| sx := 0; sy := 0; sw := sourceWidth; sh := sourceHeight;
           dx := 0; dy := 0; dw := destWidth; dh := destHeight |}
    | Contain =>
        let sourceAspectRatio := div sourceWidth sourceHeight in
        let destAspectRatio := div destWidth destHeight in
        let dw' := if gt sourceAspectRatio destAspectRatio
                   then destWidth
                   else Math_round (mul destHeight sourceAspectRatio) in
        let dh' := if gt sourceAspectRatio destAspectRatio
                   then Math_round (div destWidth sourceAspectRatio)
                   else destHeight in
        let dx' := Math_floor (div (sub destWidth dw') 2) in
        let dy' := Math_floor (div (sub destHeight dh') 2) in
        {| sx := 0; sy := 0; sw := sourceWidth; sh := sourceHeight;
           dx := dx'; dy := dy'; dw := dw'; dh := dh' |}
    | Cover =>
        let sourceAspectRatio := div sourceWidth sourceHeight in
        let destAspectRatio := div destWidth destHeight in
        let sw' := if gt sourceAspectRatio destAspectRatio
                   then Math_round (mul sourceHeight destAspectRatio)
                   else sourceWidth in
        let sh' := if gt sourceAspectRatio destAspectRatio
                   then sourceHeight
                   else Math_round (div sourceWidth destAspectRatio) in
        let sx' := Math_floor (div (sub sourceWidth sw') 2) in
        let sy' := Math_floor (div (sub sourceHeight sh') 2) in
        {| sx := sx'; sy := sy'; sw := sw'; sh := sh';
           dx := 0; dy := 0; dw := destWidth; dh := destHeight |}
    end.

Definition computeOutputSize
    (sourceWidth sourceHeight : number) (options : ConversionOptions)
    : OutputDimensions :=
  match sizeMode options with
  | SizeNone => {| width := sourceWidth; height := sourceHeight |}
  | Scale =>
      let scale := div (clamp (scalePct options) 1 1000) 100 in
      {| width := Math_max 1 (Math_round (mul sourceWidth scale));
         height := Math_max 1 (Math_round (mul sourceHeight scale)) |}
  | Pixels =>
      let aspectRatio := div sourceWidth sourceHeight in
      if truthy (w options) && truthy (h options) then
        {| width := w options; height := h options |}
      else if truthy (w options) then
        {| width := w options;
           height := Math_round (div (w options) aspectRatio) |}
      else if truthy (h options) then
        {| width := Math_round (mul (h options) aspectRatio);
           height := h options |}
      else
        {| width := sourceWidth; height := sourceHeight |}
  end.

(** The rational that a finite binary64 value of the kernel stands for,
    and the binary64 value of a small whole number. *)
Definition valueOf (f : PrimFloat.float) : Q :=
  match Prim2SF f with
  | S754_finite s m e =>
      (if s then - inject_Z (Zpos m) else inject_Z (Zpos m)) * 2 ^ e
  | _ => 0
  end.

Definition ofZ (z : Z) : PrimFloat.float := PrimFloat.of_uint63 (Uint63.of_Z z).

(** Whether [double] gives what the kernel's binary64 division and
    multiplication give for [a / b] and for [a * (b / 100)]. *)
Definition agrees (a b : Z) : bool :=
  Qeq_bool (valueOf (PrimFloat.div (ofZ a) (ofZ b)))
           (div (inject_Z a) (inject_Z b))
  && Qeq_bool
       (valueOf (PrimFloat.mul (ofZ a) (PrimFloat.div (ofZ b) (ofZ 100))))
       (mul (inject_Z a) (div (inject_Z b) 100)).

Definition agreesUpTo (n : nat) : bool :=
  forallb (fun a => forallb (fun b => agrees (Z.of_nat a) (Z.of_nat b))
                      (seq 1 n))
          (seq 1 n).

End Ieee.

(** ** [conversion.ts]: the pipeline *)

Module Pipeline.

(** Calls to collaborators, in the order in which they are made. *)
Inductive Event :=
| EDecode (file : Handle)
| EMakeCanvas (width height : number)
| EGetContext (canvas : Handle)
| EFillRect (ctx : Handle) (style : string) (x y width height : number)
| EClearRect (ctx : Handle) (x y width height : number)
| ESmoothing (ctx : Handle) (enabled : bool)
| ESmoothingQuality (ctx : Handle) (q : SmoothingQuality)
| ECreateImageBitmap (bmp : Handle) (resizeWidth resizeHeight : number)
    (q : ResizeQuality)
| EClose (bmp : Handle)
| EDrawImage (ctx : Handle) (source : Handle) (rect : DrawRect)
| ECanvasToBlob (canvas : Handle) (type : string) (quality : number)
| ERender.

(** The collaborators of [canvas.ts] and of the browser. *)
Record Env := {
  supports_createImageBitmap : bool;
  decodeImage : Handle -> Completion DecodedImage;
  makeCanvas : number -> number -> Completion Handle;
  getContext : Handle -> Completion (option Handle);
  fillRect : Handle -> string -> number -> number -> Completion unit;
  clearRect : Handle -> number -> number -> Completion unit;
  hasSmoothingQuality : Handle -> bool;
  createImageBitmap :
    ImageBitmap -> number -> number -> ResizeQuality -> Completion ImageBitmap;
  drawImage : Handle -> Handle -> DrawRect -> Completion unit;
  canvasToBlob : Handle -> string -> number -> Completion Blob;
  readOptions : ConversionOptions
}.

(** The item being converted, mutated in place, and the calls made so far. *)
Record St := { st_item : Item; st_trace : list Event }.

Definition M (A : Type) : Type := St -> Completion A * St.

Definition ret {A} (a : A) : M A := fun s => (Normal a, s).

Definition throw {A} (v : Value) : M A := fun s => (Throw v, s).

Definition bind {A B} (m : M A) (k : A -> M B) : M B :=
  fun s =>
    match m s with
    | (Normal a, s') => k a s'
    | (Throw v, s') => (Throw v, s')
    end.

Definition log (e : Event) (s : St) : St :=
  {| st_item := st_item s; st_trace := st_trace s ++ [e] |}.

(** A call to a collaborator: it is recorded, then it completes. *)
Definition call {A} (e : Event) (r : Completion A) : M A :=
  fun s => (r, log e s).

Definition getItem : M Item := fun s => (Normal (st_item s), s).

Definition modify (f : Item -> Item) (s : St) : St :=
  {| st_item := f (st_item s); st_trace := st_trace s |}.

Definition update (f : Item -> Item) : M unit :=
  fun s => (Normal tt, modify f s).

Definition tryCatch (body : M unit) (handler : Value -> M unit) : M unit :=
  fun s =>
    match body s with
    | (Normal a, s') => (Normal a, s')
    | (Throw v, s') => handler v s'
    end.

Declare Scope js_scope.
Delimit Scope js_scope with js.
Notation "x <- m ;; k" := (bind m (fun x => k))
  (at level 100, m at next level, right associativity) : js_scope.
Notation "m ;; k" := (bind m (fun _ => k))
  (at level 100, right associativity) : js_scope.
Local Open Scope js_scope.

Definition set_status (st : Status) (it : Item) : Item :=
  {| item_id := item_id it; item_file := item_file it; item_name := item_name it;
     item_type := item_type it; item_size := item_size it;
     item_status := st; item_error := item_error it;
     item_output := item_output it |}.

Definition set_error (e : option string) (it : Item) : Item :=
  {| item_id := item_id it; item_file := item_file it; item_name := item_name it;
     item_type := item_type it; item_size := item_size it;
     item_status := item_status it; item_error := e;
     item_output := item_output it |}.

Definition set_output (o : option Output) (it : Item) : Item :=
  {| item_id := item_id it; item_file := item_file it; item_name := item_name it;
     item_type := item_type it; item_size := item_size it;
     item_status := item_status it; item_error := item_error it;
     item_output := o |}.

Definition maybeResizeBitmap (env : Env) (bmp : ImageBitmap)
    (sourceWidth sourceHeight destWidth destHeight : number)
    (options : ConversionOptions) : M ImageBitmap :=
  if negb (supports_createImageBitmap env) then ret bmp
  else
    match bmpResizeQuality options with
    | Off => ret bmp
    | Resize resizeQuality =>
        match fit options with
        | Cover | Contain => ret bmp
        | Keep | Stretch =>
            if strictEq destWidth sourceWidth && strictEq destHeight sourceHeight
            then ret bmp
            else
              resized <- call
                (ECreateImageBitmap (bmp_ref bmp) destWidth destHeight resizeQuality)
                (createImageBitmap env bmp destWidth destHeight resizeQuality) ;;
              call (EClose (bmp_ref bmp)) (Normal tt) ;;
              ret resized
        end
    end.

(** The test of [/\.[^.]+$/] after the dot: the rest of the name is not
    empty and holds no dot up to its end. *)
Fixpoint noDot (s : string) : bool :=
  match s with
  | EmptyString => true
  | String c rest => negb (Ascii.eqb c ".") && noDot rest
  end.

(** [name.replace(/\.[^.]+$/, '')]: the first position at which the
    pattern matches is searched from the left, and the match, which runs
    to the end of the name, is removed. *)
Fixpoint stripExtension (name : string) : string :=
  match name with
  | EmptyString => EmptyString
  | String c rest =>
      if Ascii.eqb c "." && negb (String.eqb rest "") && noDot rest
      then EmptyString
      else String c (stripExtension rest)
  end.

(** The template [`${base}.${extFromMime(options.type)}`]. *)
Definition outputName (name type : string) : string :=
  (safeFilename (stripExtension name) ++ "." ++ extFromMime type)%string.

(** The block guarded by [try]. *)
Definition convertBody (env : Env) (options : ConversionOptions) : M unit :=
  item <- getItem ;;
  decoded <- call (EDecode (item_file item)) (decodeImage env (item_file item)) ;;
  let sourceWidth := decoded_width decoded in
  let sourceHeight := decoded_height decoded in
  let size := computeOutputSize sourceWidth sourceHeight options in
  let destWidth := width size in
  let destHeight := height size in
  canvas <- call (EMakeCanvas destWidth destHeight)
                 (makeCanvas env destWidth destHeight) ;;
  ctx' <- call (EGetContext canvas) (getContext env canvas) ;;
  match ctx' with
  | None => throw (VError "2D canvas context not available.")
  | Some ctx =>
      (if String.eqb (opt_type options) "image/jpeg"
       then call (EFillRect ctx (bg options) 0 0 destWidth destHeight)
                 (fillRect env ctx (bg options) destWidth destHeight)
       else call (EClearRect ctx 0 0 destWidth destHeight)
                 (clearRect env ctx destWidth destHeight)) ;;
      call (ESmoothing ctx (smoothing options)) (Normal tt) ;;
      (if smoothing options && hasSmoothingQuality env ctx
       then call (ESmoothingQuality ctx (smoothingQuality options)) (Normal tt)
       else ret tt) ;;
      src <-
        match decoded with
        | DecodedBitmap bmp _ _ =>
            resized <- maybeResizeBitmap env bmp sourceWidth sourceHeight
                         destWidth destHeight options ;;
            if negb (Nat.eqb (bmp_ref resized) (bmp_ref bmp))
            then ret (DecodedBitmap resized (bmp_width resized) (bmp_height resized),
                      bmp_width resized, bmp_height resized)
            else ret (decoded, sourceWidth, sourceHeight)
        | DecodedImg _ _ _ => ret (decoded, sourceWidth, sourceHeight)
        end ;;
      let '(drawSource, sourceWidth, sourceHeight) := src in
      let rect := computeDrawRects sourceWidth sourceHeight destWidth destHeight
                    (fit options) in
      call (EDrawImage ctx
              (match drawSource with
               | DecodedBitmap bmp _ _ => bmp_ref bmp
               | DecodedImg img _ _ => img
               end) rect)
           (drawImage env ctx
              (match drawSource with
               | DecodedBitmap bmp _ _ => bmp_ref bmp
               | DecodedImg img _ _ => img
               end) rect) ;;
      (match drawSource with
       | DecodedBitmap bmp _ _ => call (EClose (bmp_ref bmp)) (Normal tt)
       | DecodedImg _ _ _ => ret tt
       end) ;;
      blob <- call (ECanvasToBlob canvas (opt_type options) (quality options))
                   (canvasToBlob env canvas (opt_type options) (quality options)) ;;
      item' <- getItem ;;
      update (set_output (Some
        {| out_blob := blob;
           out_type := blob_type blob;
           out_name := outputName (item_name item') (opt_type options);
           out_size := blob_size blob;
           out_width := destWidth;
           out_height := destHeight |})) ;;
      update (set_status Done)
  end.

(** [error instanceof Error ? error.message : String(error)]. *)
Definition errorText (error : Value) : string :=
  match error with
  | VError message => message
  | v => String_ v
  end.

(** The state in which the [try] block is entered. *)
Definition started (s : St) : St :=
  modify (set_error None) (modify (set_status Converting) s).

Definition convertImage (env : Env) (options : ConversionOptions) : M unit :=
  update (set_status Converting) ;;
  update (set_error None) ;;
  tryCatch (convertBody env options)
    (fun error =>
       update (set_status Error) ;;
       update (set_error (Some (errorText error)))).

End Pipeline.
Import Pipeline.

(** ** [main.ts]: the drivers *)

Module Main.

(** The item table [items] (a [Map] from ids to items that are mutated in
    place) and the calls made so far. *)
Record World := { items : gmap string Item; trace : list Event }.

Definition render (evs : list Event) : list Event := evs ++ [ERender].

Definition convertOne (env : Env) (id : string)
    (optionsOverride : option ConversionOptions) (world : World) : World :=
  match items world !! id with
  | None => world
  | Some item =>
      match item_status item with
      | Converting => world
      | _ =>
          let item1 := set_error None (set_status Converting item) in
          let evs1 := render (trace world) in
          let options :=
            match optionsOverride with
            | Some o => o
            | None => readOptions env
            end in
          let '(_, s) :=
            convertImage env options {| st_item := item1; st_trace := evs1 |} in
          {| items := <[id := st_item s]> (items world);
             trace := render (st_trace s) |}
      end
  end.

(** The [concurrency] constant of [convertAll], as a function of
    [navigator.hardwareConcurrency]. *)
Definition concurrency (hardwareConcurrency : number) : number :=
  clamp (orElse hardwareConcurrency 4 - 1) 1 6.

End Main.
Import Main.

(** ** The file-name rule in the words of the specification *)

Module NameSpec.

Fixpoint allChars (p : ascii -> bool) (s : string) : bool :=
  match s with
  | EmptyString => true
  | String c rest => p c && allChars p rest
  end.

Definition startsSafe (s : string) : bool :=
  match s with
  | EmptyString => true
  | String c _ => negb (isUnsafe c)
  end.

(** Every occurrence of an unsafe character becomes an underscore. *)
Fixpoint replaceEach (s : string) : string :=
  match s with
  | EmptyString => EmptyString
  | String c rest => String (if isUnsafe c then "_"%char else c) (replaceEach rest)
  end.

(** Every maximal run of unsafe characters becomes one underscore: the
    underscore stands for the last character of the run. *)
Fixpoint collapseRuns (s : string) : string :=
  match s with
  | EmptyString => EmptyString
  | String c rest =>
      if isUnsafe c then
        match rest with
        | EmptyString => String "_" EmptyString
        | String c' _ =>
            if isUnsafe c' then collapseRuns rest
            else String "_" (collapseRuns rest)
        end
      else String c (collapseRuns rest)
  end.

(** Index of the last dot of a name. *)
Fixpoint lastDot (s : string) : option nat :=
  match s with
  | EmptyString => None
  | String c rest =>
      match lastDot rest with
      | Some i => Some (S i)
      | None => if Ascii.eqb c "." then Some 0%nat else None
      end
  end.

(** The name without its final dot-extension: what precedes the last dot,
    when something follows that dot. *)
Definition withoutExtension (s : string) : string :=
  match lastDot s with
  | Some i => if Nat.ltb (S i) (String.length s) then substring 0 i s else s
  | None => s
  end.

Definition canonicalExtensions : list (string * string) :=
  [("image/png", "png"); ("image/jpeg", "jpg");
   ("image/webp", "webp"); ("image/avif", "avif")].

Definition canonicalExt (mime : string) : string :=
  match find (fun p => String.eqb (fst p) mime) canonicalExtensions with
  | Some p => snd p
  | None => "img"
  end.

(** The derived file name when every occurrence is replaced. *)
Definition nameReplacingEach (name type : string) : string :=
  (replaceEach (withoutExtension name) ++ "." ++ canonicalExt type)%string.

(** The derived file name with runs collapsed. *)
Definition nameCollapsingRuns (name type : string) : string :=
  (collapseRuns (withoutExtension name) ++ "." ++ canonicalExt type)%string.

End NameSpec.
Import NameSpec.

(** ** Reasoning about runs of the pipeline *)

Module Logic.

(** [wp m Q E s]: from [s], [m] either returns [a] in a state satisfying
    [Q a] or throws [v] in a state satisfying [E v]. *)
Definition wp {A} (m : M A) (Q : A -> St -> Prop) (E : Value -> St -> Prop)
    (s : St) : Prop :=
  match m s with
  | (Normal a, s') => Q a s'
  | (Throw v, s') => E v s'
  end.

(** [s'] is [s] after some more calls, with the item untouched. *)
Definition Inv (s s' : St) : Prop :=
  st_item s' = st_item s /\ exists evs, st_trace s' = st_trace s ++ evs.

(** What a successful run writes into the item [it0]. *)
Definition completed (options : ConversionOptions) (it0 it' : Item) : Prop :=
  exists blob dw' dh',
    it' = set_status Done (set_output (Some
            {| out_blob := blob;
               out_type := blob_type blob;
               out_name := outputName (item_name it0) (opt_type options);
               out_size := blob_size blob;
               out_width := dw';
               out_height := dh' |}) it0).

(** Number of [close()] calls on the bitmap [b] in a trace. *)
Definition isClose (b : Handle) (e : Event) : bool :=
  match e with
  | EClose b' => Nat.eqb b b'
  | _ => false
  end.

Definition closes (b : Handle) (evs : list Event) : nat :=
  List.length (List.filter (isClose b) evs).

(** Between [s] and [s'] the bitmap [b] was closed [n] times. *)
Definition closedTimes (b : Handle) (s : St) (n : nat) (s' : St) : Prop :=
  closes b (st_trace s') = (closes b (st_trace s) + n)%nat.

End Logic.
Import Logic.

(** ** Concrete options, items and environments *)

Module Examples.

Definition baseOptions : ConversionOptions :=
  {| opt_type := "image/png"; quality := 9 # 10; sizeMode := SizeNone;
     w := 0; h := 0; scalePct := 100; fit := Keep; bg := "#FFFFFF";
     smoothing := true; smoothingQuality := SmoothHigh; bmpResizeQuality := Off |}.

Definition withSize (m : SizeMode) (rw rh pct : number) (o : ConversionOptions)
    : ConversionOptions :=
  {| opt_type := opt_type o; quality := quality o; sizeMode := m;
     w := rw; h := rh; scalePct := pct; fit := fit o; bg := bg o;
     smoothing := smoothing o; smoothingQuality := smoothingQuality o;
     bmpResizeQuality := bmpResizeQuality o |}.

Definition withResample (f : Fit) (q : BmpResizeQuality) (o : ConversionOptions)
    : ConversionOptions :=
  {| opt_type := opt_type o; quality := quality o; sizeMode := sizeMode o;
     w := w o; h := h o; scalePct := scalePct o; fit := f; bg := bg o;
     smoothing := smoothing o; smoothingQuality := smoothingQuality o;
     bmpResizeQuality := q |}.

Definition readyItem : Item :=
  {| item_id := "1"; item_file := 0%nat; item_name := "test.png";
     item_type := "image/png"; item_size := 1000; item_status := Ready;
     item_error := None; item_output := None |}.

Definition earlierOutput : Output :=
  {| out_blob := {| blob_handle := 7%nat; blob_type := "image/png"; blob_size := 4 |};
     out_type := "image/png"; out_name := "test.png"; out_size := 4;
     out_width := 100; out_height := 100 |}.

(** An item whose earlier conversion succeeded. *)
Definition doneItem : Item := set_status Done (set_output (Some earlierOutput) readyItem).

(** An item whose conversion is in flight. *)
Definition busyItem : Item := set_status Converting readyItem.

Definition sourceBitmap : ImageBitmap :=
  {| bmp_ref := 1%nat; bmp_width := 100; bmp_height := 100 |}.

(** A browser in which every collaborator succeeds: the decode yields the
    fast-path bitmap [sourceBitmap], and a resample yields a new bitmap. *)
Definition okEnv : Env :=
  {| supports_createImageBitmap := true;
     decodeImage := fun _ => Normal (DecodedBitmap sourceBitmap 100 100);
     makeCanvas := fun _ _ => Normal 10%nat;
     getContext := fun _ => Normal (Some 20%nat);
     fillRect := fun _ _ _ _ => Normal tt;
     clearRect := fun _ _ _ => Normal tt;
     hasSmoothingQuality := fun _ => true;
     createImageBitmap := fun bmp rw rh _ =>
       Normal {| bmp_ref := S (bmp_ref bmp); bmp_width := rw; bmp_height := rh |};
     drawImage := fun _ _ _ => Normal tt;
     canvasToBlob := fun _ type _ =>
       Normal {| blob_handle := 30%nat; blob_type := type; blob_size := 4 |};
     readOptions := baseOptions |}.

Definition withDecode (r : Completion DecodedImage) (env : Env) : Env :=
  {| supports_createImageBitmap := supports_createImageBitmap env;
     decodeImage := fun _ => r;
     makeCanvas := makeCanvas env; getContext := getContext env;
     fillRect := fillRect env; clearRect := clearRect env;
     hasSmoothingQuality := hasSmoothingQuality env;
     createImageBitmap := createImageBitmap env;
     drawImage := drawImage env; canvasToBlob := canvasToBlob env;
     readOptions := readOptions env |}.

Definition withContext (r : Completion (option Handle)) (env : Env) : Env :=
  {| supports_createImageBitmap := supports_createImageBitmap env;
     decodeImage := decodeImage env;
     makeCanvas := makeCanvas env; getContext := fun _ => r;
     fillRect := fillRect env; clearRect := clearRect env;
     hasSmoothingQuality := hasSmoothingQuality env;
     createImageBitmap := createImageBitmap env;
     drawImage := drawImage env; canvasToBlob := canvasToBlob env;
     readOptions := readOptions env |}.

Definition withEncode (r : Completion Blob) (env : Env) : Env :=
  {| supports_createImageBitmap := supports_createImageBitmap env;
     decodeImage := decodeImage env;
     makeCanvas := makeCanvas env; getContext := getContext env;
     fillRect := fillRect env; clearRect := clearRect env;
     hasSmoothingQuality := hasSmoothingQuality env;
     createImageBitmap := createImageBitmap env;
     drawImage := drawImage env; canvasToBlob := fun _ _ _ => r;
     readOptions := readOptions env |}.

Definition initial (it : Item) : St := {| st_item := it; st_trace := [] |}.

End Examples.
Import Examples.

(** ** [constants.ts] *)

Module Constants.

Definition QUALITY_MIMES : gset string :=
  {[ "image/jpeg"; "image/webp"; "image/avif" ]}.

Definition CANDIDATE_EXPORT_MIMES : list string :=
  ["image/png"; "image/jpeg"; "image/webp"; "image/avif"].

End Constants.
Import Constants.

(** ** [utils.ts]: [formatBytes] *)

Module Format.

(** The decimal digits of a natural number. *)
Definition digits (n : Z) : string := NilZero.string_of_uint (N.to_uint (Z.to_N n)).

Fixpoint zeros (k : nat) : string :=
  match k with
  | O => EmptyString
  | S k' => String "0" (zeros k')
  end.

(** [x.toFixed(f)] for a number below [10^21] in absolute value: the
    integer [n] nearest to [|x| * 10^f], the larger one on a tie, is
    written in decimal, padded with zeros to [f + 1] digits, and a point
    is put before its last [f] digits. *)
Definition toFixed (x : number) (f : nat) : string :=
  let negative := gt 0 x in
  let x' := if negative then - x else x in
  let n := Qfloor (x' * inject_Z (10 ^ Z.of_nat f) + (1 # 2)) in
  let m := digits n in
  let m' :=
    if Nat.eqb f 0 then m
    else
      let padded := (zeros (S f - String.length m) ++ m)%string in
      let k := (String.length padded - f)%nat in
      (substring 0 k padded ++ "." ++ substring k f padded)%string in
  ((if negative then "-" else "") ++ m')%string.

Definition units : list string := ["B"; "KB"; "MB"; "GB"].

(** The [while] loop of [formatBytes]; [room] is [units.length - 1 - index],
    the number of units still above the current one. *)
Fixpoint scaleLoop (room : nat) (value : number) (index : nat) : number * nat :=
  match room with
  | O => (value, index)
  | S room' =>
      if Qle_bool 1024 value then scaleLoop room' (value / 1024) (S index)
      else (value, index)
  end.

Definition formatBytes (bytes : number) : string :=
  let '(value, index) := scaleLoop (List.length units - 1) bytes 0 in
  (toFixed value (if Nat.eqb index 0 then 0 else 1) ++ " "
   ++ nth index units "undefined")%string.

End Format.
Import Format.

(** ** [canvas.ts] *)

Module Canvas.

(** The two encoders a canvas may offer. *)
Record CanvasApi := {
  hasConvertToBlob : Handle -> bool;
  convertToBlob : Handle -> string -> option number -> Completion Blob;
  toBlob : Handle -> string -> option number -> Completion (option Blob)
}.

(** [QUALITY_MIMES.has(type) ? quality : undefined]. *)
Definition qualityParam (type : string) (quality : number) : option number :=
  if bool_decide (type ∈ QUALITY_MIMES) then Some quality else None.

(** [canvasToBlob]: [toBlob] hands a blob or [null] to its callback. *)
Definition canvasToBlob (api : CanvasApi) (canvas : Handle) (type : string)
    (quality : number) : Completion Blob :=
  if hasConvertToBlob api canvas then
    convertToBlob api canvas type (qualityParam type quality)
  else
    match toBlob api canvas type (qualityParam type quality) with
    | Normal (Some blob) => Normal blob
    | Normal None => Throw (VError "Canvas encoding failed.")
    | Throw v => Throw v
    end.

Inductive DecodeEvent :=
| DCreateImageBitmap (file : Handle)
| DCreateObjectURL (file : Handle)
| DImageDecode (url : string)
| DRevokeObjectURL (url : string).

Record DecodeApi := {
  supportsCreateImageBitmap : bool;
  createImageBitmapOf : Handle -> Completion ImageBitmap;
  createObjectURL : Handle -> string;
  (** [img.decode()], then the element with its natural size. *)
  imageDecode : string -> Completion (Handle * number * number)
}.

(** Computations that record [DecodeEvent]s. *)
Definition D (A : Type) : Type := list DecodeEvent -> Completion A * list DecodeEvent.

Definition dret {A} (a : A) : D A := fun tr => (Normal a, tr).

Definition dbind {A B} (m : D A) (k : A -> D B) : D B :=
  fun tr =>
    match m tr with
    | (Normal a, tr') => k a tr'
    | (Throw v, tr') => (Throw v, tr')
    end.

Definition dcall {A} (e : DecodeEvent) (r : Completion A) : D A :=
  fun tr => (r, tr ++ [e]).

(** [try { body } finally { cleanup }]. *)
Definition tryFinally {A} (body : D A) (cleanup : D unit) : D A :=
  fun tr =>
    match body tr with
    | (r, tr') =>
        match cleanup tr' with
        | (Normal _, tr'') => (r, tr'')
        | (Throw v, tr'') => (Throw v, tr'')
        end
    end.

Definition decodeImage (api : DecodeApi) (file : Handle) : D DecodedImage :=
  if supportsCreateImageBitmap api then
    dbind (dcall (DCreateImageBitmap file) (createImageBitmapOf api file))
      (fun bmp => dret (DecodedBitmap bmp (bmp_width bmp) (bmp_height bmp)))
  else
    dbind (dcall (DCreateObjectURL file) (Normal (createObjectURL api file)))
      (fun url =>
         tryFinally
           (dbind (dcall (DImageDecode url) (imageDecode api url))
              (fun r => let '(img, nw, nh) := r in dret (DecodedImg img nw nh)))
           (dcall (DRevokeObjectURL url) (Normal tt))).

(** What [detectExportFormats] needs besides the encoders. *)
Record DetectApi := {
  probeCanvas : Completion Handle;
  probeContext : Handle -> Completion (option Handle);
  probeFillRect : Handle -> Completion unit;
  encoders : CanvasApi
}.

(** One turn of the [for] loop, with its [try] and empty [catch]. *)
Definition probe (api : DetectApi) (canvas : Handle) (supported : list string)
    (mime : string) : list string :=
  match canvasToBlob (encoders api) canvas mime (9 # 10) with
  | Normal blob =>
      if gt (blob_size blob) 0 && String.eqb (blob_type blob) mime
      then supported ++ [mime]
      else supported
  | Throw _ => supported
  end.

Definition detectExportFormats (api : DetectApi) : Completion (list string) :=
  match probeCanvas api with
  | Throw v => Throw v
  | Normal canvas =>
      match probeContext api canvas with
      | Throw v => Throw v
      | Normal None => Normal []
      | Normal (Some ctx) =>
          match probeFillRect api ctx with
          | Throw v => Throw v
          | Normal _ =>
              Normal (fold_left (probe api canvas) CANDIDATE_EXPORT_MIMES [])
          end
      end
  end.

End Canvas.

(** ** [main.ts]: start-up and the batch scheduler *)

Module Startup.

Definition preferredFormats : list string :=
  ["image/avif"; "image/webp"; "image/png"; "image/jpeg"].

(** [preferredFormats.find((m) => supported.includes(m)) ?? supported[0]]. *)
Definition defaultFormat (supported : list string) : option string :=
  match find (fun m => existsb (String.eqb m) supported) preferredFormats with
  | Some m => Some m
  | None => head supported
  end.

End Startup.
Import Startup.

Module Scheduler.

(** Where a runner of [convertAll] stands: at the test of its [while]
    loop, suspended at [await convertOne(...)] for the item taken at an
    index, or returned. *)
Inductive Runner := AtLoopTest | Awaiting (i : nat) | Returned.

Record Batch := {
  list_ids : list string;
  cursor : nat;
  completed_count : nat;
  runners : list Runner;
  (** the ids handed to [convertOne], in the order of the calls *)
  launched : list string;
  (** the values of [done] shown as [Converted done/total] *)
  reports : list nat
}.

(** [Array.from({ length: concurrency }, ...)] makes [floor(concurrency)]
    runners. *)
Definition runnerCount (hardwareConcurrency : number) : nat :=
  Z.to_nat (Qfloor (concurrency hardwareConcurrency)).

(** [convertAll] returns at once on an empty list; otherwise the batch
    starts with every runner at its loop test. *)
Definition start (hardwareConcurrency : number) (ids : list string) : option Batch :=
  match ids with
  | [] => None
  | _ =>
      Some {| list_ids := ids; cursor := 0; completed_count := 0;
              runners := replicate (runnerCount hardwareConcurrency) AtLoopTest;
              launched := []; reports := [] |}
  end.

Definition setRunner (k : nat) (r : Runner) (b : Batch) : list Runner :=
  <[k := r]> (runners b).

(** One step of runner [k]: at the loop test it takes the item at the
    cursor, advances the cursor and calls [convertOne], or returns when the
    cursor has reached the end; when its [await] resumes it counts the item
    and reports. *)
Definition step (k : nat) (b : Batch) : option Batch :=
  match runners b !! k with
  | Some AtLoopTest =>
      if Nat.ltb (cursor b) (List.length (list_ids b)) then
        match list_ids b !! cursor b with
        | Some id =>
            Some {| list_ids := list_ids b; cursor := S (cursor b);
                    completed_count := completed_count b;
                    runners := setRunner k (Awaiting (cursor b)) b;
                    launched := launched b ++ [id];
                    reports := reports b |}
        | None =>
            Some {| list_ids := list_ids b; cursor := S (cursor b);
                    completed_count := completed_count b;
                    runners := setRunner k Returned b;
                    launched := launched b;
                    reports := reports b |}
        end
      else
        Some {| list_ids := list_ids b; cursor := cursor b;
                completed_count := completed_count b;
                runners := setRunner k Returned b;
                launched := launched b;
                reports := reports b |}
  | Some (Awaiting _) =>
      Some {| list_ids := list_ids b; cursor := cursor b;
              completed_count := S (completed_count b);
              runners := setRunner k AtLoopTest b;
              launched := launched b;
              reports := reports b ++ [S (completed_count b)] |}
  | Some Returned | None => None
  end.

(** The runners move in the order given by a schedule. *)
Fixpoint run (schedule : list nat) (b : Batch) : option Batch :=
  match schedule with
  | [] => Some b
  | k :: rest =>
      match step k b with
      | Some b' => run rest b'
      | None => None
      end
  end.

(** [Promise.all(runners)] has resolved. *)
Definition finished (b : Batch) : bool :=
  forallb (fun r => match r with Returned => true | _ => false end) (runners b).

(** The indices of the items whose conversion is awaited. *)
Definition awaitedIn (rs : list Runner) : list nat :=
  omap (fun r => match r with Awaiting i => Some i | _ => None end) rs.

(** The number of runners that have not returned. *)
Definition activeIn (rs : list Runner) : nat :=
  List.length
    (List.filter (fun r => match r with Returned => false | _ => true end) rs).

Definition awaited (b : Batch) : list nat := awaitedIn (runners b).

Definition active (b : Batch) : nat := activeIn (runners b).

(** Steps left before the batch is finished. *)
Definition remaining (b : Batch) : nat :=
  2 * (List.length (list_ids b) - cursor b) + List.length (awaited b) + active b.

End Scheduler.
Import Scheduler.

(** ** Notions used to state the properties of the start-up code and of the
    scheduler *)

Module Notions.

(** The test that [detectExportFormats] applies to one candidate type. *)
Definition accepted (api : Canvas.DetectApi) (canvas : Handle) (mime : string) : bool :=
  match Canvas.canvasToBlob (Canvas.encoders api) canvas mime (9 # 10) with
  | Normal blob => gt (blob_size blob) 0 && String.eqb (blob_type blob) mime
  | Throw _ => false
  end.

(** What holds of a batch at every moment of its run. *)
Definition consistent (b : Batch) : Prop :=
  (cursor b <= List.length (list_ids b))%nat /\
  launched b = take (cursor b) (list_ids b) /\
  reports b = seq 1 (completed_count b) /\
  (completed_count b + List.length (awaited b) = cursor b)%nat /\
  NoDup (awaited b) /\
  (forall i, In i (awaited b) -> (i < cursor b)%nat) /\
  (In Returned (runners b) -> cursor b = List.length (list_ids b)).

(** A browser with [OffscreenCanvas] whose encoder echoes the requested
    type, and one with only [HTMLCanvasElement] whose [toBlob] yields
    [null]. *)
Definition echoEncoders : Canvas.CanvasApi :=
  {| Canvas.hasConvertToBlob := fun _ => true;
     Canvas.convertToBlob := fun _ type _ =>
       Normal {| blob_handle := 30%nat; blob_type := type; blob_size := 4 |};
     Canvas.toBlob := fun _ _ _ => Normal None |}.

Definition nullEncoders : Canvas.CanvasApi :=
  {| Canvas.hasConvertToBlob := fun _ => false;
     Canvas.convertToBlob := fun _ _ _ => Throw VUndefined;
     Canvas.toBlob := fun _ _ _ => Normal None |}.

Definition withEncoders (api : Canvas.CanvasApi) (env : Env) : Env :=
  {| supports_createImageBitmap := supports_createImageBitmap env;
     decodeImage := decodeImage env;
     makeCanvas := makeCanvas env; getContext := getContext env;
     fillRect := fillRect env; clearRect := clearRect env;
     hasSmoothingQuality := hasSmoothingQuality env;
     createImageBitmap := createImageBitmap env;
     drawImage := drawImage env; canvasToBlob := Canvas.canvasToBlob api;
     readOptions := readOptions env |}.

Definition fallbackDecoder : Canvas.DecodeApi :=
  {| Canvas.supportsCreateImageBitmap := false;
     Canvas.createImageBitmapOf := fun _ => Throw VUndefined;
     Canvas.createObjectURL := fun _ => "blob:1";
     Canvas.imageDecode := fun _ => Throw (VError "The source image cannot be decoded.") |}.

(** A browser with [createImageBitmap]. *)
Definition fastDecoder : Canvas.DecodeApi :=
  {| Canvas.supportsCreateImageBitmap := true;
     Canvas.createImageBitmapOf := fun _ => Normal sourceBitmap;
     Canvas.createObjectURL := fun _ => "blob:1";
     Canvas.imageDecode := fun _ => Throw VUndefined |}.

Definition echoDetect : Canvas.DetectApi :=
  {| Canvas.probeCanvas := Normal 10%nat;
     Canvas.probeContext := fun _ => Normal (Some 20%nat);
     Canvas.probeFillRect := fun _ => Normal tt;
     Canvas.encoders := echoEncoders |}.

(** A batch of three items run by two runners, before and after. *)
Definition threeIds : list string := ["a"; "b"; "c"].

Definition threeStart : Batch :=
  {| list_ids := threeIds; cursor := 0; completed_count := 0;
     runners := [AtLoopTest; AtLoopTest]; launched := []; reports := [] |}.

Definition threeEnd : Batch :=
  {| list_ids := threeIds; cursor := 3; completed_count := 3;
     runners := [Returned; Returned]; launched := threeIds;
     reports := [1; 2; 3]%nat |}.

Definition threeSchedule : list nat := [0; 1; 0; 1; 1; 0; 1; 1]%nat.

(** The draw, and the preparation of the canvas that fits the target type:
    a fill with the background colour for JPEG, a clear otherwise. *)
Definition isDraw (e : Event) : bool :=
  match e with
  | EDrawImage _ _ _ => true
  | _ => false
  end.

Definition isPrepare (options : ConversionOptions) (e : Event) : bool :=
  match e with
  | EFillRect _ style _ _ _ _ =>
      String.eqb (opt_type options) "image/jpeg" && String.eqb style (bg options)
  | EClearRect _ _ _ _ _ => negb (String.eqb (opt_type options) "image/jpeg")
  | _ => false
  end.

(** Every draw comes after a fitting preparation and after no other draw. *)
Definition orderly (options : ConversionOptions) (evs : list Event) : Prop :=
  forall pre e post,
    evs = pre ++ e :: post -> isDraw e = true ->
    (exists p, In p pre /\ isPrepare options p = true) /\
    (forall x, In x pre -> isDraw x = false) /\
    (forall x, In x post -> isDraw x = false).

(** Calls that concern a fast-path bitmap: a resample or a release. *)
Definition isBitmapCall (e : Event) : bool :=
  match e with
  | ECreateImageBitmap _ _ _ _ | EClose _ => true
  | _ => false
  end.

(** Since [s], the trace has grown by [evs]. *)
Definition grownBy (s s' : St) (evs : list Event) : Prop :=
  st_trace s' = st_trace s ++ evs.

(** Stages of a run, seen from what it has added to the trace: nothing
    drawn yet; canvas prepared and nothing drawn yet; anything, in good
    order; no call that concerns a bitmap. *)
Definition undrawn (s s' : St) : Prop :=
  exists evs, grownBy s s' evs /\ forall x, In x evs -> isDraw x = false.

Definition prepared (options : ConversionOptions) (s s' : St) : Prop :=
  exists evs, grownBy s s' evs /\ (forall x, In x evs -> isDraw x = false) /\
              exists p, In p evs /\ isPrepare options p = true.

Definition ordered (options : ConversionOptions) (s s' : St) : Prop :=
  exists evs, grownBy s s' evs /\ orderly options evs.

Definition quiet (s s' : St) : Prop :=
  exists evs, grownBy s s' evs /\ forall x, In x evs -> isBitmapCall x = false.

End Notions.
Import Notions.

(** * Properties *)

(** ** Numbers *)

Section Numbers.

Lemma Qfloor_add_half (n : Z) : Qfloor (inject_Z n + (1 # 2)) = n.
Proof.
  apply Z.le_antisymm.
  - assert (H : (Qfloor (inject_Z n + (1 # 2)) < n + 1)%Z); [|lia].
    rewrite Zlt_Qlt, inject_Z_plus.
    pose proof (Qfloor_le (inject_Z n + (1 # 2))) as Hle.
    change (inject_Z 1) with 1. lra.
  - rewrite <- (Qfloor_Z n) at 1. apply Qfloor_resp_le. lra.
Qed.

Lemma Math_round_comp (x y : number) : x == y -> Math_round x = Math_round y.
Proof.
  intros E. unfold Math_round. f_equal. apply Qfloor_comp. rewrite E. reflexivity.
Qed.


Lemma Math_round_nonneg (x : number) : 0 <= x -> 0 <= Math_round x.
Proof.
  intros Hx. unfold Math_round. change 0 with (inject_Z 0). rewrite <- Zle_Qle.
  change 0%Z with (Qfloor 0). apply Qfloor_resp_le. lra.
Qed.

Lemma gt_true (a b : number) : gt a b = true <-> b < a.
Proof.
  unfold gt. rewrite negb_true_iff. split.
  - intros H. apply Qnot_le_lt. intros Hle. apply Qle_bool_iff in Hle. congruence.
  - intros H. destruct (Qle_bool a b) eqn:E; [|reflexivity].
    apply Qle_bool_iff in E. lra.
Qed.

Lemma gt_false (a b : number) : gt a b = false <-> a <= b.
Proof.
  unfold gt. rewrite negb_false_iff. apply Qle_bool_iff.
Qed.

Lemma truthy_pos (x : number) : 0 < x -> truthy x = true.
Proof.
  intros H. unfold truthy. destruct (Qeq_bool x 0) eqn:E; [|reflexivity].
  apply Qeq_bool_eq in E. lra.
Qed.

Lemma Math_max_spec (a b : number) :
  a <= Math_max a b /\ b <= Math_max a b /\ (Math_max a b == a \/ Math_max a b == b).
Proof.
  unfold Math_max. destruct (Qle_bool a b) eqn:E.
  - apply Qle_bool_iff in E. lra.
  - assert (b < a) by (apply gt_true; unfold gt; now rewrite E).
    lra.
Qed.

Lemma Math_min_spec (a b : number) :
  Math_min a b <= a /\ Math_min a b <= b /\ (Math_min a b == a \/ Math_min a b == b).
Proof.
  unfold Math_min. destruct (Qle_bool a b) eqn:E.
  - apply Qle_bool_iff in E. lra.
  - assert (b < a) by (apply gt_true; unfold gt; now rewrite E).
    lra.
Qed.

Lemma clamp_spec (v lo hi : number) :
  lo <= hi ->
  lo <= clamp v lo hi <= hi /\
  (v < lo -> clamp v lo hi == lo) /\
  (hi < v -> clamp v lo hi == hi) /\
  (lo <= v <= hi -> clamp v lo hi == v).
Proof.
  intros Hb. unfold clamp.
  pose proof (Math_max_spec lo v) as (M1 & M2 & M3).
  pose proof (Math_min_spec hi (Math_max lo v)) as (N1 & N2 & N3).
  repeat split; intros; destruct M3, N3; lra.
Qed.

End Numbers.

(** ** Dimension resolver *)

Section Resolver.

(** C1 fails on the code.  In pixels mode with only a width requested, the
    height is [round(w / (sourceW / sourceH))] without the floor at [1] that
    scale mode applies: a 4000 x 100 source with requested width 10 resolves
    to 10 x 0. *)
Theorem pixels_width_only_zero_height :
  let options := withSize Pixels 10 0 100 baseOptions in
  let out := computeOutputSize 4000 100 options in
  width out == 10 /\ height out == 0 /\ ~ 1 <= height out.
Proof.
  cbv zeta. split; [reflexivity|]. split; [reflexivity|].
  intros H. vm_compute in H. apply H. reflexivity.
Qed.

(** Outside pixels mode both target dimensions are at least [1]. *)
Lemma computeOutputSize_none_scale (sourceW sourceH : Z) (options : ConversionOptions) :
  (0 < sourceW)%Z -> (0 < sourceH)%Z -> sizeMode options <> Pixels ->
  let out := computeOutputSize (inject_Z sourceW) (inject_Z sourceH) options in
  1 <= width out /\ 1 <= height out.
Proof.
  intros Hw Hh Hm out. subst out. unfold computeOutputSize.
  destruct (sizeMode options); [| congruence |]; cbn [width height].
  - split; change 1 with (inject_Z 1); rewrite <- Zle_Qle; lia.
  - split; apply Math_max_spec.
Qed.

End Resolver.

(** ** Scheduler level *)

Section Scheduler.

Lemma concurrency_nonzero (hint : number) :
  ~ hint == 0 -> concurrency hint == clamp (hint - 1) 1 6.
Proof.
  intros Hh. unfold concurrency, orElse, truthy.
  destruct (Qeq_bool hint 0) eqn:E.
  - apply Qeq_bool_eq in E. contradiction.
  - reflexivity.
Qed.

Lemma concurrency_fallback (hint : number) :
  hint == 0 -> concurrency hint == 3.
Proof.
  intros Hh. unfold concurrency, orElse, truthy.
  rewrite (Qeq_eq_bool _ _ Hh). reflexivity.
Qed.

Lemma concurrency_bounds (hint : number) : 1 <= concurrency hint <= 6.
Proof. unfold concurrency. apply clamp_spec. lra. Qed.

(** C9 as stated fails for the hint [0]: the code replaces a
    falsy hint by [4] before it subtracts, so the level is [3], whereas
    [clamp(0 - 1, 1, 6)] is [1]. *)
Lemma concurrency_zero_hint :
  concurrency 0 == 3 /\ clamp (0 - 1) 1 6 == 1 /\
  ~ concurrency 0 == clamp (0 - 1) 1 6.
Proof.
  split; [reflexivity|]. split; [reflexivity|].
  intros H. vm_compute in H. discriminate H.
Qed.

(** C9 (amended).  For every hint [h] other than zero the scheduler runs
    with level [clamp(h - 1, 1, 6)]; a zero hint is replaced by [4], which
    gives level [3]; in every case the level is at least [1] and at most
    [6]; and a hint of [5] yields level [4]. *)
Theorem concurrency_level :
  forall hint : number,
    (~ hint == 0 -> concurrency hint == clamp (hint - 1) 1 6) /\
    (hint == 0 -> concurrency hint == 3) /\
    1 <= concurrency hint <= 6 /\
    concurrency 5 == 4.
Proof.
  intros hint. split; [apply concurrency_nonzero|].
  split; [apply concurrency_fallback|].
  split; [apply concurrency_bounds | reflexivity].
Qed.

Lemma concurrency_level_hint_5 :
  ~ 5 == 0 /\ concurrency 5 == clamp (5 - 1) 1 6.
Proof.
  assert (H : ~ 5 == 0) by (intros H; discriminate H).
  split; [exact H|]. exact (proj1 (concurrency_level 5) H).
Defined.

End Scheduler.

(** ** Rect compositor *)

Section Compositor.

Variables sourceW sourceH targetW targetH : Z.
Hypothesis sourceW_pos : (0 < sourceW)%Z.
Hypothesis sourceH_pos : (0 < sourceH)%Z.
Hypothesis targetW_pos : (0 < targetW)%Z.
Hypothesis targetH_pos : (0 < targetH)%Z.





End Compositor.

(** ** File names *)

Section FileNames.

Lemma append_empty (s : string) : ("" ++ s)%string = s.
Proof. reflexivity. Qed.

Lemma append_String (c : ascii) (s t : string) :
  (String c s ++ t)%string = String c (s ++ t).
Proof. reflexivity. Qed.

Lemma safeFilename_collapseRuns_joint (s : string) :
  safeFilename s = collapseRuns s /\
  (forall c, isUnsafe c = true -> collapseRuns (String c s) = String "_" (inMatch s)).
Proof.
  induction s as [|c' r [IHsafe IHrun]].
  - split; [reflexivity|]. intros c Hc. simpl. rewrite Hc. reflexivity.
  - split.
    + cbn [safeFilename]. destruct (isUnsafe c') eqn:Hc'.
      * rewrite <- (IHrun c' Hc'). reflexivity.
      * cbn [collapseRuns]. rewrite Hc', IHsafe. reflexivity.
    + intros c Hc. cbn [inMatch].
      change (collapseRuns (String c (String c' r)))
        with (if isUnsafe c
              then if isUnsafe c' then collapseRuns (String c' r)
                   else String "_" (collapseRuns (String c' r))
              else String c (collapseRuns (String c' r))).
      rewrite Hc. destruct (isUnsafe c') eqn:Hc'.
      * apply IHrun. exact Hc'.
      * cbn [collapseRuns]. rewrite Hc', IHsafe. reflexivity.
Qed.

Lemma safeFilename_collapseRuns (s : string) : safeFilename s = collapseRuns s.
Proof. apply safeFilename_collapseRuns_joint. Qed.

Lemma safeFilename_safe (s : string) :
  allChars (fun c => negb (isUnsafe c)) s = true -> safeFilename s = s.
Proof.
  induction s as [|c r IH]; [reflexivity|].
  cbn [allChars safeFilename]. intros H. apply andb_true_iff in H as [Hc Hr].
  apply negb_true_iff in Hc. rewrite Hc, (IH Hr). reflexivity.
Qed.

Lemma inMatch_run (run post : string) :
  allChars isUnsafe run = true -> startsSafe post = true ->
  inMatch (run ++ post) = safeFilename post.
Proof.
  intros Hrun Hpost. induction run as [|c r IH].
  - destruct post as [|c p]; [reflexivity|].
    cbn [startsSafe] in Hpost. apply negb_true_iff in Hpost.
    rewrite append_empty. cbn [inMatch safeFilename]. rewrite Hpost. reflexivity.
  - cbn [allChars] in Hrun. apply andb_true_iff in Hrun as [Hc Hr].
    rewrite append_String. cbn [inMatch]. rewrite Hc. apply IH. exact Hr.
Qed.

Lemma safeFilename_block (pre run post : string) :
  allChars (fun c => negb (isUnsafe c)) pre = true ->
  run <> EmptyString -> allChars isUnsafe run = true ->
  startsSafe post = true ->
  safeFilename (pre ++ run ++ post) = (pre ++ "_" ++ safeFilename post)%string.
Proof.
  intros Hpre Hne Hrun Hpost. induction pre as [|c r IH].
  - destruct run as [|c r]; [congruence|].
    cbn [allChars] in Hrun. apply andb_true_iff in Hrun as [Hc Hr].
    rewrite append_empty, append_String. cbn [safeFilename]. rewrite Hc.
    rewrite (inMatch_run r post Hr Hpost). reflexivity.
  - cbn [allChars] in Hpre. apply andb_true_iff in Hpre as [Hc Hr].
    apply negb_true_iff in Hc.
    rewrite !append_String. cbn [safeFilename]. rewrite Hc.
    rewrite (IH Hr). reflexivity.
Qed.

(** C10.  [safeFilename] turns each maximal run of unsafe characters into a
    single underscore: a name made of a safe prefix, a non-empty run of
    unsafe characters and a rest that does not start with an unsafe
    character is mapped to the prefix, one underscore and the sanitised
    rest, and a name without unsafe characters is unchanged; the result is
    the one of [collapseRuns], which emits one underscore per run.  Thus
    distinct names collide: ['a::b'] and ['a:b'] both give ['a_b']. *)
Theorem safeFilename_runs :
  (forall pre run post : string,
      allChars (fun c => negb (isUnsafe c)) pre = true ->
      run <> EmptyString -> allChars isUnsafe run = true ->
      startsSafe post = true ->
      safeFilename (pre ++ run ++ post) = (pre ++ "_" ++ safeFilename post)%string) /\
  (forall s : string,
      allChars (fun c => negb (isUnsafe c)) s = true -> safeFilename s = s) /\
  (forall s : string, safeFilename s = collapseRuns s) /\
  safeFilename "a::b" = "a_b" /\ safeFilename "a:b" = "a_b" /\
  "a::b"%string <> "a:b"%string.
Proof.
  split; [exact safeFilename_block|]. split; [exact safeFilename_safe|].
  split; [exact safeFilename_collapseRuns|].
  repeat split; try reflexivity. discriminate.
Qed.

Lemma safeFilename_runs_example :
  (allChars (fun c => negb (isUnsafe c)) "a" = true /\
   "::"%string <> EmptyString /\ allChars isUnsafe "::" = true /\
   startsSafe "b" = true) /\
  safeFilename ("a" ++ "::" ++ "b") = ("a" ++ "_" ++ safeFilename "b")%string.
Proof.
  assert (Hne : "::"%string <> EmptyString) by discriminate.
  split; [repeat split; try reflexivity; exact Hne|].
  exact (proj1 safeFilename_runs "a" "::" "b" eq_refl Hne eq_refl eq_refl)%string.
Defined.

Lemma noDot_lastDot (s : string) : noDot s = true <-> lastDot s = None.
Proof.
  induction s as [|c r IH]; [split; reflexivity|].
  cbn [noDot lastDot]. rewrite andb_true_iff, negb_true_iff, IH.
  destruct (lastDot r); destruct (Ascii.eqb c "."); split; intros H;
    try discriminate; try reflexivity; try (destruct H; discriminate);
    split; reflexivity.
Qed.

Lemma stripExtension_withoutExtension (s : string) :
  stripExtension s = withoutExtension s.
Proof.
  induction s as [|c r IH]; [reflexivity|].
  cbn [stripExtension]. unfold withoutExtension in *. cbn [lastDot String.length].
  destruct (lastDot r) as [i|] eqn:L.
  - assert (N : noDot r = false).
    { destruct (noDot r) eqn:N; [|reflexivity].
      apply noDot_lastDot in N. congruence. }
    rewrite N, andb_false_r, IH.
    change (S (S i) <? S (String.length r))%nat with (S i <? String.length r)%nat.
    destruct (S i <? String.length r)%nat; reflexivity.
  - assert (N : noDot r = true) by (apply noDot_lastDot; exact L).
    rewrite N, andb_true_r, IH.
    destruct (Ascii.eqb c "."); [|reflexivity].
    destruct r as [|c' r']; reflexivity.
Qed.

Lemma extFromMime_canonicalExt (mime : string) : extFromMime mime = canonicalExt mime.
Proof.
  unfold extFromMime, canonicalExt, canonicalExtensions. cbn [find fst snd].
  destruct (String.eqb_spec mime "image/jpeg") as [->|]; [reflexivity|].
  destruct (String.eqb_spec mime "image/png") as [->|]; [reflexivity|].
  destruct (String.eqb_spec mime "image/webp") as [->|]; [reflexivity|].
  destruct (String.eqb_spec mime "image/avif") as [->|]; [reflexivity|].
  rewrite !(proj2 (String.eqb_neq _ _)); [reflexivity| | | |];
    intros E; symmetry in E; contradiction.
Qed.

Lemma outputName_spec (name type : string) :
  outputName name type = nameCollapsingRuns name type.
Proof.
  unfold outputName, nameCollapsingRuns.
  rewrite stripExtension_withoutExtension, safeFilename_collapseRuns,
    extFromMime_canonicalExt. reflexivity.
Qed.

(** C2 as stated fails on a run of unsafe characters: the
    code gives ['a_b.png'] for ['a::b.jpg'], whereas replacing each
    occurrence gives ['a__b.png']. *)
Lemma output_name_not_each_occurrence :
  outputName "a::b.jpg" "image/png" = "a_b.png" /\
  nameReplacingEach "a::b.jpg" "image/png" = "a__b.png" /\
  outputName "a::b.jpg" "image/png" <> nameReplacingEach "a::b.jpg" "image/png".
Proof.
  split; [reflexivity|]. split; [reflexivity|]. vm_compute. discriminate.
Qed.

End FileNames.

(** ** Pipeline *)

Create HintDb pipeline.

Section PipelineRules.

Context {A B : Type}.

Lemma wp_ret (a : A) Q E s : Q a s -> wp (ret a) Q E s.
Proof. intros H. exact H. Qed.

Lemma wp_throw (v : Value) (Q : A -> St -> Prop) E s : E v s -> wp (throw v) Q E s.
Proof. intros H. exact H. Qed.

Lemma wp_bind (m : M A) (k : A -> M B) Q E s :
  wp m (fun a s' => wp (k a) Q E s') E s -> wp (bind m k) Q E s.
Proof.
  unfold wp, bind. destruct (m s) as [[a|v] s']; intros H; exact H.
Qed.

Lemma wp_call (e : Event) (r : Completion A) Q E s :
  match r with
  | Normal a => Q a (log e s)
  | Throw v => E v (log e s)
  end -> wp (call e r) Q E s.
Proof. unfold wp, call. destruct r; intros H; exact H. Qed.

Lemma wp_mono (m : M A) (Q Q' : A -> St -> Prop) (E E' : Value -> St -> Prop) s :
  wp m Q E s -> (forall a s', Q a s' -> Q' a s') -> (forall v s', E v s' -> E' v s') ->
  wp m Q' E' s.
Proof.
  unfold wp. destruct (m s) as [[a|v] s']; intros H HQ HE; auto.
Qed.

End PipelineRules.

Section PipelineRuns.

Lemma wp_getItem Q E s : Q (st_item s) s -> wp getItem Q E s.
Proof. intros H. exact H. Qed.

Lemma wp_update f Q E s : Q tt (modify f s) -> wp (update f) Q E s.
Proof. intros H. exact H. Qed.

Lemma Inv_refl s : Inv s s.
Proof. split; [reflexivity|]. exists []. symmetry. apply app_nil_r. Qed.

Lemma Inv_log e s s' : Inv s s' -> Inv s (log e s').
Proof.
  intros [Hi [evs Ht]]. split; [exact Hi|].
  exists (evs ++ [e]). cbn [log st_trace]. rewrite Ht. symmetry. apply app_assoc.
Qed.

Lemma Inv_trans s1 s2 s3 : Inv s1 s2 -> Inv s2 s3 -> Inv s1 s3.
Proof.
  intros [Hi1 [e1 Ht1]] [Hi2 [e2 Ht2]]. split; [congruence|].
  exists (e1 ++ e2). rewrite Ht2, Ht1. symmetry. apply app_assoc.
Qed.

#[local] Hint Resolve Inv_refl Inv_log : pipeline.

Lemma maybeResizeBitmap_wp env bmp sW sH dW dH options s :
  wp (maybeResizeBitmap env bmp sW sH dW dH options)
     (fun _ s' => Inv s s') (fun _ s' => Inv s s') s.
Proof.
  unfold maybeResizeBitmap.
  destruct (negb (supports_createImageBitmap env)); [apply wp_ret; auto with pipeline|].
  destruct (bmpResizeQuality options) as [|q]; [apply wp_ret; auto with pipeline|].
  assert (Hresize :
    wp (if strictEq dW sW && strictEq dH sH then ret bmp
        else (resized <- call (ECreateImageBitmap (bmp_ref bmp) dW dH q)
                (createImageBitmap env bmp dW dH q) ;;
              call (EClose (bmp_ref bmp)) (Normal tt) ;;
              ret resized)%js)
       (fun _ s' => Inv s s') (fun _ s' => Inv s s') s).
  { destruct (strictEq dW sW && strictEq dH sH); [apply wp_ret; auto with pipeline|].
    apply wp_bind, wp_call.
    destruct (createImageBitmap env bmp dW dH q); [|auto with pipeline].
    apply wp_bind, wp_call, wp_ret. auto with pipeline. }
  destruct (fit options);
    [exact Hresize | apply wp_ret | apply wp_ret | exact Hresize];
    auto with pipeline.
Qed.

Lemma Inv_after_log e s s' :
  Inv (log e s) s' ->
  st_item s' = st_item s /\ exists evs, st_trace s' = st_trace s ++ e :: evs.
Proof.
  intros [Hi [evs Ht]]. split; [exact Hi|]. exists evs.
  rewrite Ht. cbn [log st_trace]. rewrite <- app_assoc. reflexivity.
Qed.

(** The block guarded by [try]: when it returns it has written the output
    and the status ['done'] into the item; when it throws it has left the
    item as it was.  Its first call is the decode of the item's file. *)
Lemma convertBody_wp env options s :
  wp (convertBody env options)
     (fun _ s' =>
        completed options (st_item s) (st_item s') /\
        exists evs,
          st_trace s' = st_trace s ++ EDecode (item_file (st_item s)) :: evs)
     (fun _ s' =>
        st_item s' = st_item s /\
        exists evs,
          st_trace s' = st_trace s ++ EDecode (item_file (st_item s)) :: evs) s.
Proof.
  unfold convertBody.
  apply wp_bind, wp_getItem, wp_bind, wp_call.
  destruct (decodeImage env (item_file (st_item s))) as [decoded|v];
    [|apply Inv_after_log; auto with pipeline].
  set (s1 := log (EDecode (item_file (st_item s))) s).
  set (size := computeOutputSize _ _ _).
  apply wp_mono with
    (Q := fun _ s' => completed options (st_item s) (st_item s') /\
                      exists evs, st_trace s' = st_trace s1 ++ evs)
    (E := fun _ s' => Inv s1 s').
  2: { intros _ s' [Hc [evs Ht]]. split; [exact Hc|]. exists evs.
       rewrite Ht. cbn [s1 log st_trace]. rewrite <- app_assoc. reflexivity. }
  2: { intros v s' Hi. apply Inv_after_log in Hi. exact Hi. }
  apply wp_bind, wp_call.
  destruct (makeCanvas env (width size) (height size)) as [canvas|v];
    [|auto with pipeline].
  apply wp_bind, wp_call.
  destruct (getContext env canvas) as [[ctx|]|v];
    [| apply wp_throw; auto with pipeline | auto with pipeline].
  apply wp_bind.
  set (s3 := log _ (log _ s1)).
  assert (I3 : Inv s1 s3) by (subst s3; auto with pipeline).
  clearbody s3.
  apply wp_mono with (Q := fun _ s' => Inv s1 s') (E := fun _ s' => Inv s1 s').
  { destruct (String.eqb (opt_type options) "image/jpeg"); apply wp_call;
      match goal with |- match ?r with _ => _ end => destruct r end;
      auto with pipeline. }
  2: { auto. }
  intros _ s4 I4. apply wp_bind, wp_call, wp_bind.
  apply wp_mono with (Q := fun _ s' => Inv s1 s') (E := fun _ s' => Inv s1 s').
  { destruct (smoothing options && hasSmoothingQuality env ctx);
      [apply wp_call | apply wp_ret]; auto with pipeline. }
  2: { auto. }
  intros _ s5 I5. apply wp_bind.
  apply wp_mono with (Q := fun _ s' => Inv s1 s') (E := fun _ s' => Inv s1 s').
  { destruct decoded as [bmp dw0 dh0 | img dw0 dh0]; [|apply wp_ret; exact I5].
    apply wp_bind.
    eapply wp_mono; [apply maybeResizeBitmap_wp | |].
    - intros resized s6 I6. cbv beta.
      destruct (negb (bmp_ref resized =? bmp_ref bmp)%nat); apply wp_ret;
        exact (Inv_trans _ _ _ I5 I6).
    - intros v s6 I6. exact (Inv_trans _ _ _ I5 I6). }
  2: { auto. }
  intros [[drawSource sW'] sH'] s6 I6.
  apply wp_bind, wp_call.
  match goal with |- match ?r with _ => _ end => destruct r end;
    [|auto with pipeline].
  apply wp_bind.
  apply wp_mono with (Q := fun _ s' => Inv s1 s') (E := fun _ s' => Inv s1 s').
  { destruct drawSource; [apply wp_call | apply wp_ret]; auto with pipeline. }
  2: { auto. }
  intros _ s7 I7. apply wp_bind, wp_call.
  destruct (canvasToBlob env canvas (opt_type options) (quality options))
    as [blob|v]; [|auto with pipeline].
  apply wp_bind, wp_getItem, wp_bind, wp_update, wp_update.
  assert (I8 : Inv s1 (log (ECanvasToBlob canvas (opt_type options)
                              (quality options)) s7))
    by auto with pipeline.
  destruct I8 as [_ Ht8]. destruct I7 as [Hi _]. split.
  - exists blob, (width size), (height size).
    cbn [modify log st_item]. rewrite Hi. reflexivity.
  - exact Ht8.
Qed.

End PipelineRuns.

Section Release.

Variable b : Handle.

Lemma closes_app (e1 e2 : list Event) :
  closes b (e1 ++ e2) = (closes b e1 + closes b e2)%nat.
Proof. unfold closes. rewrite List.filter_app, List.length_app. reflexivity. Qed.

Lemma closedTimes_refl s : closedTimes b s 0 s.
Proof. unfold closedTimes. lia. Qed.

Lemma closedTimes_other s n s' e :
  isClose b e = false -> closedTimes b s n s' -> closedTimes b s n (log e s').
Proof.
  unfold closedTimes. intros He H. cbn [log st_trace]. rewrite closes_app, H.
  unfold closes. cbn [List.filter]. rewrite He. cbn. lia.
Qed.

Lemma closedTimes_close s n s' :
  closedTimes b s n s' -> closedTimes b s (S n) (log (EClose b) s').
Proof.
  unfold closedTimes. intros H. cbn [log st_trace]. rewrite closes_app, H.
  unfold closes. cbn [List.filter isClose]. rewrite Nat.eqb_refl. cbn. lia.
Qed.

Lemma closedTimes_modify s n s' f :
  closedTimes b s n s' -> closedTimes b s n (modify f s').
Proof. intros H. exact H. Qed.

Lemma isClose_other (r : Handle) : r <> b -> isClose b (EClose r) = false.
Proof. intros H. cbn [isClose]. apply Nat.eqb_neq. congruence. Qed.

#[local] Hint Resolve closedTimes_refl closedTimes_other closedTimes_close
  closedTimes_modify : pipeline.

Variable env : Env.
Variable options : ConversionOptions.
Variable bmp : ImageBitmap.
Hypothesis bmp_is_b : bmp_ref bmp = b.

(** A resample yields a new bitmap object. *)
Hypothesis resample_fresh :
  forall rw rh q r,
    createImageBitmap env bmp rw rh q = Normal r -> bmp_ref r <> bmp_ref bmp.

Lemma maybeResizeBitmap_closes sW sH dW dH s0 s :
  closedTimes b s0 0 s ->
  wp (maybeResizeBitmap env bmp sW sH dW dH options)
     (fun resized s' =>
        (resized = bmp /\ closedTimes b s0 0 s') \/
        (bmp_ref resized <> bmp_ref bmp /\ closedTimes b s0 1 s'))
     (fun _ s' => closedTimes b s0 0 s') s.
Proof.
  intros C0. unfold maybeResizeBitmap.
  destruct (negb (supports_createImageBitmap env)); [apply wp_ret; auto|].
  destruct (bmpResizeQuality options) as [|q]; [apply wp_ret; auto|].
  assert (Hresize :
    wp (if strictEq dW sW && strictEq dH sH then ret bmp
        else (resized <- call (ECreateImageBitmap (bmp_ref bmp) dW dH q)
                (createImageBitmap env bmp dW dH q) ;;
              call (EClose (bmp_ref bmp)) (Normal tt) ;;
              ret resized)%js)
       (fun resized s' =>
          (resized = bmp /\ closedTimes b s0 0 s') \/
          (bmp_ref resized <> bmp_ref bmp /\ closedTimes b s0 1 s'))
       (fun _ s' => closedTimes b s0 0 s') s).
  { destruct (strictEq dW sW && strictEq dH sH); [apply wp_ret; auto|].
    apply wp_bind, wp_call.
    destruct (createImageBitmap env bmp dW dH q) as [r|v] eqn:Hr;
      [|auto with pipeline].
    apply wp_bind, wp_call, wp_ret. right. split.
    - eapply resample_fresh. exact Hr.
    - rewrite bmp_is_b. auto with pipeline. }
  destruct (fit options);
    [exact Hresize | apply wp_ret | apply wp_ret | exact Hresize]; auto.
Qed.

(** The decoded bitmap is closed once by a run that returns, and at most
    once by a run that throws. *)
Lemma convertBody_closes_decoded dw0 dh0 s :
  decodeImage env (item_file (st_item s)) = Normal (DecodedBitmap bmp dw0 dh0) ->
  wp (convertBody env options)
     (fun _ s' => closedTimes b s 1 s')
     (fun _ s' => closedTimes b s 0 s' \/ closedTimes b s 1 s') s.
Proof.
  intros Hdec. unfold convertBody.
  apply wp_bind, wp_getItem, wp_bind, wp_call. rewrite Hdec.
  set (size := computeOutputSize _ _ _).
  apply wp_bind, wp_call.
  destruct (makeCanvas env (width size) (height size)) as [canvas|v];
    [|auto with pipeline].
  apply wp_bind, wp_call.
  destruct (getContext env canvas) as [[ctx|]|v];
    [| apply wp_throw; auto with pipeline | auto with pipeline].
  apply wp_bind.
  set (s3 := log _ (log _ (log _ s))).
  assert (I3 : closedTimes b s 0 s3) by (subst s3; auto with pipeline).
  clearbody s3.
  apply wp_mono with (Q := fun _ s' => closedTimes b s 0 s')
                     (E := fun _ s' => closedTimes b s 0 s').
  { destruct (String.eqb (opt_type options) "image/jpeg"); apply wp_call;
      match goal with |- match ?r with _ => _ end => destruct r end;
      auto with pipeline. }
  2: { auto. }
  intros _ s4 I4. apply wp_bind, wp_call, wp_bind.
  apply wp_mono with (Q := fun _ s' => closedTimes b s 0 s')
                     (E := fun _ s' => closedTimes b s 0 s').
  { destruct (smoothing options && hasSmoothingQuality env ctx);
      [apply wp_call | apply wp_ret]; auto with pipeline. }
  2: { auto. }
  intros _ s5 I5. apply wp_bind, wp_bind.
  eapply wp_mono; [apply (maybeResizeBitmap_closes _ _ _ _ s s5 I5) | |].
  2: { auto. }
  intros resized s6 [[-> I6] | [Hne I6]]; cbv beta.
  - rewrite Nat.eqb_refl. cbn [negb]. apply wp_ret, wp_bind, wp_call.
    match goal with |- match ?r with _ => _ end => destruct r end;
      [|auto with pipeline].
    apply wp_bind, wp_call, wp_bind, wp_call. rewrite bmp_is_b.
    match goal with |- match ?r with _ => _ end => destruct r end;
      [|auto 6 with pipeline].
    apply wp_bind, wp_getItem, wp_bind, wp_update, wp_update.
    auto 8 with pipeline.
  - rewrite (proj2 (Nat.eqb_neq _ _) Hne). cbn [negb].
    assert (Ho : isClose b (EClose (bmp_ref resized)) = false).
    { apply isClose_other. congruence. }
    apply wp_ret, wp_bind, wp_call.
    match goal with |- match ?r with _ => _ end => destruct r end;
      [|auto with pipeline].
    apply wp_bind, wp_call, wp_bind, wp_call.
    match goal with |- match ?r with _ => _ end => destruct r end;
      [|auto 6 with pipeline].
    apply wp_bind, wp_getItem, wp_bind, wp_update, wp_update.
    auto 8 with pipeline.
Qed.

End Release.

Section PipelineOutcome.

Variable env : Env.
Variable options : ConversionOptions.

Lemma convertImage_cases (s : St) :
  exists s',
    convertImage env options s = (Normal tt, s') /\
    (exists evs,
        st_trace s' = st_trace s ++ EDecode (item_file (st_item s)) :: evs) /\
    (completed options (st_item (started s)) (st_item s') \/
     exists v s1,
       convertBody env options (started s) = (Throw v, s1) /\
       st_item s' =
         set_error (Some (errorText v)) (set_status Error (st_item (started s)))).
Proof.
  pose proof (convertBody_wp env options (started s)) as Hwp.
  unfold convertImage, bind, update, tryCatch.
  change (modify (set_error None) (modify (set_status Converting) s))
    with (started s).
  unfold wp in Hwp.
  destruct (convertBody env options (started s)) as [[[]|v] s1] eqn:Hbody.
  - destruct Hwp as [Hdone Htr]. exists s1. auto.
  - destruct Hwp as [Hi Htr]. eexists. split; [reflexivity|]. split.
    + exact Htr.
    + right. exists v, s1. split; [reflexivity|].
      cbn [modify st_item]. rewrite Hi. reflexivity.
Qed.

(** C5.  Whatever value [v] the guarded block throws, from the decode to
    the encode, [convertImage] returns normally with status ['error'], with
    the error text [v.message] when [v] is an [Error] and [String(v)]
    otherwise, and with the output field as it was before the call. *)
Theorem convertImage_catches_throw (s : St) (v : Value) (s1 : St) :
  convertBody env options (started s) = (Throw v, s1) ->
  exists s',
    convertImage env options s = (Normal tt, s') /\
    item_status (st_item s') = Error /\
    item_error (st_item s') =
      Some (match v with VError message => message | _ => String_ v end) /\
    item_output (st_item s') = item_output (st_item s).
Proof.
  intros Hthrow.
  pose proof (convertBody_wp env options (started s)) as Hwp.
  unfold wp in Hwp. rewrite Hthrow in Hwp. destruct Hwp as [Hi _].
  unfold convertImage, bind, update, tryCatch.
  change (modify (set_error None) (modify (set_status Converting) s))
    with (started s).
  rewrite Hthrow. eexists. split; [reflexivity|].
  cbn [modify st_item set_error set_status item_status item_error item_output].
  rewrite Hi. split; [reflexivity|]. split; [|reflexivity].
  destruct v; reflexivity.
Qed.

(** C4 (amended).  After [convertImage] the status is ['done'] or
    ['error']; the error is set exactly when the status is ['error']; status
    ['done'] implies that the output is set; and for an item that had no
    output before the call, the output is set exactly when the status is
    ['done']. *)
Theorem item_fields_after_convertImage (s : St) :
  let it := st_item (snd (convertImage env options s)) in
  (item_status it = Done \/ item_status it = Error) /\
  (is_Some (item_error it) <-> item_status it = Error) /\
  (item_status it = Done -> is_Some (item_output it)) /\
  (item_output (st_item s) = None ->
   (is_Some (item_output it) <-> item_status it = Done)).
Proof.
  destruct (convertImage_cases s) as (s' & Hrun & _ & [Hdone | Herr]);
    rewrite Hrun; cbn [snd].
  - destruct Hdone as (blob & dw' & dh' & ->).
    cbn [set_status set_output item_status item_error item_output].
    split; [left; reflexivity|]. split; [|split; [eauto|]].
    + split; [intros [x Hx]; discriminate Hx | discriminate].
    + intros _. split; [reflexivity | eauto].
  - destruct Herr as (v & s1 & _ & ->).
    cbn [set_status set_error item_status item_error item_output started
         modify st_item].
    split; [right; reflexivity|]. split; [|split; [discriminate|]].
    + split; [reflexivity | eauto].
    + intros ->. split; [intros [x Hx]; discriminate Hx | discriminate].
Qed.

Lemma convertImage_done_name (s : St) :
  item_status (st_item (snd (convertImage env options s))) = Done ->
  exists o,
    item_output (st_item (snd (convertImage env options s))) = Some o /\
    out_name o = outputName (item_name (st_item s)) (opt_type options).
Proof.
  destruct (convertImage_cases s) as (s' & Hrun & _ & [Hdone | Herr]);
    rewrite Hrun; cbn [snd].
  - destruct Hdone as (blob & dw' & dh' & ->). intros _. eexists.
    split; reflexivity.
  - destruct Herr as (v & s1 & _ & ->). cbn. discriminate.
Qed.

End PipelineOutcome.

Section OutputName.

(** C2 (amended).  The derived file name is the display name without its
    final dot-extension, with each maximal run of the characters backslash,
    slash, colon, star, question mark, double quote, angle brackets and bar
    replaced by a single underscore, followed by a dot and the canonical
    extension of the target type ([img] for an unknown type); it is the name
    that a successful conversion stores in the output.  In particular
    ['my:photo?.jpg'] converted to [image/png] yields ['my_photo_.png']. *)
Theorem output_name_collapses_runs :
  (forall name type : string,
      outputName name type = nameCollapsingRuns name type) /\
  (forall (env : Env) (options : ConversionOptions) (s : St),
      item_status (st_item (snd (convertImage env options s))) = Done ->
      exists o,
        item_output (st_item (snd (convertImage env options s))) = Some o /\
        out_name o
        = nameCollapsingRuns (item_name (st_item s)) (opt_type options)) /\
  outputName "my:photo?.jpg" "image/png" = "my_photo_.png" /\
  outputName "photo.jpg" "image/webp" = "photo.webp" /\
  (forall type : string,
      ~ In type ["image/png"; "image/jpeg"; "image/webp"; "image/avif"]%string ->
      canonicalExt type = "img").
Proof.
  split; [exact outputName_spec|]. split.
  - intros env options s Hdone.
    destruct (convertImage_done_name env options s Hdone) as (o & Ho & Hn).
    exists o. split; [exact Ho|]. rewrite Hn. apply outputName_spec.
  - split; [reflexivity|]. split; [reflexivity|].
    intros type Hnot. rewrite <- extFromMime_canonicalExt. unfold extFromMime.
    rewrite !(proj2 (String.eqb_neq _ _)); [reflexivity| | | |];
      intros ->; apply Hnot; cbn; auto.
Qed.

Lemma output_name_of_test_item :
  item_status (st_item (snd (convertImage okEnv baseOptions (initial readyItem))))
    = Done /\
  exists o,
    item_output (st_item (snd (convertImage okEnv baseOptions (initial readyItem))))
      = Some o /\
    out_name o = nameCollapsingRuns "test.png" "image/png".
Proof.
  split; [reflexivity|].
  exact (proj1 (proj2 output_name_collapses_runs) okEnv baseOptions
           (initial readyItem) eq_refl).
Defined.

End OutputName.

Section ReleaseOutcome.

Variable env : Env.
Variable options : ConversionOptions.
Variable bmp : ImageBitmap.

Hypothesis resample_fresh :
  forall rw rh q r,
    createImageBitmap env bmp rw rh q = Normal r -> bmp_ref r <> bmp_ref bmp.

(** When the decode yields the bitmap [bmp], a conversion that ends in
    status ['done'] has closed it exactly once, and no conversion closes it
    twice. *)
Lemma convertImage_releases_decoded (dw0 dh0 : number) (s : St) :
  decodeImage env (item_file (st_item s)) = Normal (DecodedBitmap bmp dw0 dh0) ->
  let s' := snd (convertImage env options s) in
  (item_status (st_item s') = Done ->
   closes (bmp_ref bmp) (st_trace s') = S (closes (bmp_ref bmp) (st_trace s))) /\
  (closes (bmp_ref bmp) (st_trace s') <= S (closes (bmp_ref bmp) (st_trace s)))%nat.
Proof.
  intros Hdec.
  pose proof (convertBody_closes_decoded (bmp_ref bmp) env options bmp eq_refl
                resample_fresh dw0 dh0 (started s) Hdec) as Hcl.
  pose proof (convertBody_wp env options (started s)) as Hwp.
  unfold wp in Hcl, Hwp. cbv zeta.
  unfold convertImage, bind, update, tryCatch.
  change (modify (set_error None) (modify (set_status Converting) s))
    with (started s).
  unfold closedTimes in Hcl. cbn [started modify st_trace] in Hcl.
  destruct (convertBody env options (started s)) as [[[]|v] s1]; cbn [snd].
  - split; [intros _|]; lia.
  - cbn [modify st_item st_trace]. destruct Hwp as [Hi _]. rewrite Hi.
    split; [discriminate|]. destruct Hcl; lia.
Qed.

End ReleaseOutcome.

Section PipelineExamples.

(** A decode that throws [Error('Decode failed')] leaves the error text
    ['Decode failed'] and keeps the earlier output. *)
Lemma convertImage_catches_decode_failure :
  convertBody (withDecode (Throw (VError "Decode failed")) okEnv) baseOptions
    (started (initial doneItem))
  = (Throw (VError "Decode failed"), log (EDecode 0%nat) (started (initial doneItem))) /\
  exists s',
    convertImage (withDecode (Throw (VError "Decode failed")) okEnv) baseOptions
      (initial doneItem) = (Normal tt, s') /\
    item_status (st_item s') = Error /\
    item_error (st_item s') = Some "Decode failed" /\
    item_output (st_item s') = Some earlierOutput.
Proof.
  split; [reflexivity|].
  exact (convertImage_catches_throw
           (withDecode (Throw (VError "Decode failed")) okEnv) baseOptions
           (initial doneItem) (VError "Decode failed")
           (log (EDecode 0%nat) (started (initial doneItem))) eq_refl).
Defined.

Example bare_string_is_kept :
  let s' := snd (convertImage (withDecode (Throw (VString "String error")) okEnv)
                   baseOptions (initial readyItem)) in
  item_status (st_item s') = Error /\
  item_error (st_item s') = Some "String error".
Proof. split; reflexivity. Qed.

Example encode_failure_is_caught :
  let s' := snd (convertImage
                   (withEncode (Throw (VError "Canvas encoding failed.")) okEnv)
                   baseOptions (initial doneItem)) in
  item_status (st_item s') = Error /\
  item_error (st_item s') = Some "Canvas encoding failed." /\
  item_output (st_item s') = Some earlierOutput.
Proof. repeat split; reflexivity. Qed.

(** C4 as stated fails for an item whose earlier conversion
    succeeded and whose later conversion fails: the status is ['error'] and
    the earlier output is still set. *)
Lemma stale_output_after_failure :
  let it := st_item (snd (convertImage (withDecode (Throw (VError "Decode failed")) okEnv)
                            baseOptions (initial doneItem))) in
  item_status it = Error /\
  item_output it = Some earlierOutput /\
  ~ (is_Some (item_output it) <-> item_status it = Done).
Proof.
  cbv zeta. split; [reflexivity|]. split; [reflexivity|].
  intros [Hout _].
  assert (H : item_status
                (st_item (snd (convertImage
                   (withDecode (Throw (VError "Decode failed")) okEnv)
                   baseOptions (initial doneItem)))) = Done).
  { apply Hout. eexists. reflexivity. }
  discriminate H.
Qed.

(** C3 fails on the code.  When the decode yields a fast-path bitmap and
    the canvas has no 2D context, the run ends in status ['error'] and
    [close()] is never called on the decoded bitmap. *)
Theorem bitmap_leaks_when_context_missing :
  let s' := snd (convertImage (withContext (Normal None) okEnv) baseOptions
                   (initial readyItem)) in
  decodeImage (withContext (Normal None) okEnv) (item_file readyItem)
    = Normal (DecodedBitmap sourceBitmap 100 100) /\
  item_status (st_item s') = Error /\
  item_error (st_item s') = Some "2D canvas context not available." /\
  closes (bmp_ref sourceBitmap) (st_trace s') = 0%nat.
Proof. repeat split; reflexivity. Qed.

Example closed_once_on_success :
  let s' := snd (convertImage okEnv baseOptions (initial readyItem)) in
  item_status (st_item s') = Done /\
  closes (bmp_ref sourceBitmap) (st_trace s') = 1%nat.
Proof. split; reflexivity. Qed.

Example closed_once_on_replacement :
  let options := withResample Stretch (Resize ResizeHigh)
                   (withSize Pixels 50 50 100 baseOptions) in
  let s' := snd (convertImage okEnv options (initial readyItem)) in
  item_status (st_item s') = Done /\
  closes 1%nat (st_trace s') = 1%nat /\ closes 2%nat (st_trace s') = 1%nat.
Proof. repeat split; reflexivity. Qed.

End PipelineExamples.

Section Drivers.

(** C8.  A request to convert an item whose status is ['converting'] is a
    no-op: the item table is unchanged and no call is made. *)
Theorem convertOne_busy_noop (env : Env) (id : string)
    (optionsOverride : option ConversionOptions)
    (world : World) (item : Item) :
  items world !! id = Some item ->
  item_status item = Converting ->
  convertOne env id optionsOverride world = world.
Proof.
  intros Hlook Hbusy. unfold convertOne. rewrite Hlook, Hbusy. reflexivity.
Qed.

Lemma convertOne_busy_noop_example :
  (({[ "1"%string := busyItem ]} : gmap string Item) !! "1"%string = Some busyItem /\
   item_status busyItem = Converting) /\
  convertOne okEnv "1" None {| items := {[ "1"%string := busyItem ]}; trace := [] |}
  = {| items := {[ "1"%string := busyItem ]}; trace := [] |}.
Proof.
  split; [split; [apply lookup_singleton_eq | reflexivity]|].
  apply (convertOne_busy_noop okEnv "1"%string None
           {| items := {[ "1"%string := busyItem ]}; trace := [] |} busyItem).
  - apply lookup_singleton_eq.
  - reflexivity.
Defined.

(** For an item that is not being converted, the request does start
    work: it renders and calls the decoder. *)
Lemma convertOne_starts_work (env : Env) (id : string)
    (optionsOverride : option ConversionOptions) (world : World) (item : Item) :
  items world !! id = Some item ->
  item_status item <> Converting ->
  exists evs,
    trace (convertOne env id optionsOverride world)
    = trace world ++ ERender :: EDecode (item_file item) :: evs.
Proof.
  intros Hlook Hfree. unfold convertOne. rewrite Hlook.
  set (options := match optionsOverride with Some o => o | None => readOptions env end).
  set (s0 := {| st_item := set_error None (set_status Converting item);
                st_trace := render (trace world) |}).
  destruct (convertImage_cases env options s0) as (s' & Hrun & [evs Htr] & _).
  exists (evs ++ [ERender]).
  destruct (item_status item); try contradiction;
    rewrite Hrun; cbn [trace]; unfold render at 1; rewrite Htr;
    unfold s0, render; cbn [st_trace st_item set_error set_status item_file];
    rewrite <- !app_assoc; reflexivity.
Qed.

End Drivers.

(** * Further properties of the code *)

(** ** Fit modes *)

Section FitModes.

(** X1.  Fit [keep] draws exactly what fit [stretch] draws, for every source
    and target size. *)
Theorem keep_draws_like_stretch (sW sH tW tH : number) :
  let k := computeDrawRects sW sH tW tH Keep in
  let t := computeDrawRects sW sH tW tH Stretch in
  sx k == sx t /\ sy k == sy t /\ sw k == sw t /\ sh k == sh t /\
  dx k == dx t /\ dy k == dy t /\ dw k == dw t /\ dh k == dh t.
Proof.
  cbv zeta. unfold computeDrawRects.
  destruct (negb (truthy tW) || negb (truthy tH)).
  - repeat split; reflexivity.
  - unfold strictEq.
    destruct (Qeq_bool tW sW) eqn:EW; destruct (Qeq_bool tH sH) eqn:EH;
      cbn [negb orb sx sy sw sh dx dy dw dh]; repeat split; try reflexivity.
    + symmetry. apply Qeq_bool_eq. exact EW.
    + symmetry. apply Qeq_bool_eq. exact EH.
Qed.

(** X2.  With a target width or height of zero, every fit mode draws the
    whole source at its own size at the origin. *)
Theorem zero_target_draws_source (sW sH tW tH : number) (mode : Fit) :
  tW == 0 \/ tH == 0 ->
  computeDrawRects sW sH tW tH mode
  = {| sx := 0; sy := 0; sw := sW; sh := sH;
       dx := 0; dy := 0; dw := sW; dh := sH |}.
Proof.
  intros Hz. unfold computeDrawRects, truthy.
  destruct Hz as [Hz | Hz]; rewrite (Qeq_eq_bool _ _ Hz); cbn [negb orb].
  - reflexivity.
  - rewrite orb_true_r. reflexivity.
Qed.

Lemma zero_target_draws_source_example :
  (100 == 0 \/ 0 == 0) /\
  computeDrawRects 640 480 100 0 Cover
  = {| sx := 0; sy := 0; sw := 640; sh := 480;
       dx := 0; dy := 0; dw := 640; dh := 480 |}.
Proof.
  assert (H : 100 == 0 \/ 0 == 0) by (right; reflexivity).
  split; [exact H|]. exact (zero_target_draws_source 640 480 100 0 Cover H).
Defined.

End FitModes.

Section Rounding.

Lemma Math_round_int (n : Z) : Math_round (inject_Z n) = inject_Z n.
Proof. unfold Math_round. rewrite Qfloor_add_half. reflexivity. Qed.

Lemma Math_floor_comp (x y : number) : x == y -> Math_floor x = Math_floor y.
Proof. intros E. unfold Math_floor. f_equal. apply Qfloor_comp. exact E. Qed.

Lemma Math_floor_le (x : number) : Math_floor x <= x.
Proof. apply Qfloor_le. Qed.

Lemma Math_floor_nonneg (x : number) : 0 <= x -> 0 <= Math_floor x.
Proof.
  intros Hx. unfold Math_floor. change 0 with (inject_Z 0). rewrite <- Zle_Qle.
  change 0%Z with (Qfloor 0). apply Qfloor_resp_le. exact Hx.
Qed.

Lemma Math_round_mono (x y : number) : x <= y -> Math_round x <= Math_round y.
Proof.
  intros H. unfold Math_round. rewrite <- Zle_Qle. apply Qfloor_resp_le. lra.
Qed.

(** The nearest integer is within a half of the number. *)
Lemma Math_round_near (x : number) : x - (1 # 2) < Math_round x <= x + (1 # 2).
Proof.
  unfold Math_round. split.
  - pose proof (Qlt_floor (x + (1 # 2))) as H.
    rewrite inject_Z_plus in H. change (inject_Z 1) with 1 in H. lra.
  - apply Qfloor_le.
Qed.

Lemma half_bounds (x : number) : 0 <= x -> 0 <= x / 2 <= x.
Proof.
  intros Hx. split.
  - apply Qle_shift_div_l; lra.
  - apply Qle_shift_div_r; lra.
Qed.


End Rounding.

Section Centring.

Variables sourceW sourceH targetW targetH : Z.
Hypothesis sourceW_pos : (0 < sourceW)%Z.
Hypothesis sourceH_pos : (0 < sourceH)%Z.
Hypothesis targetW_pos : (0 < targetW)%Z.
Hypothesis targetH_pos : (0 < targetH)%Z.




End Centring.



(** ** Resolver and [clamp] *)

Section ResolverMore.

Lemma Qfloor_ge (z : Z) (x : number) : (z <= Qfloor x)%Z <-> inject_Z z <= x.
Proof.
  split.
  - intros H. apply Qle_trans with (inject_Z (Qfloor x)).
    + rewrite <- Zle_Qle. exact H.
    + apply Qfloor_le.
  - intros H. rewrite <- (Qfloor_Z z). apply Qfloor_resp_le. exact H.
Qed.

Lemma Math_round_ge_1 (x : number) : 1 <= Math_round x <-> 1 # 2 <= x.
Proof.
  unfold Math_round. change 1 with (inject_Z 1) at 1. rewrite <- Zle_Qle, Qfloor_ge.
  change (inject_Z 1) with 1. split; intros H; lra.
Qed.

Lemma Math_max_r (a b : number) : a <= b -> Math_max a b = b.
Proof.
  intros H. unfold Math_max. rewrite (proj2 (Qle_bool_iff a b) H). reflexivity.
Qed.


Lemma clamp_mono (v v' lo hi : number) :
  v <= v' -> clamp v lo hi <= clamp v' lo hi.
Proof.
  intros H. unfold clamp.
  destruct (Math_max_spec lo v) as (M1 & M2 & M3).
  destruct (Math_max_spec lo v') as (N1 & N2 & N3).
  destruct (Math_min_spec hi (Math_max lo v)) as (P1 & P2 & P3).
  destruct (Math_min_spec hi (Math_max lo v')) as (R1 & R2 & R3).
  destruct M3, N3, P3, R3; lra.
Qed.

(** X6.  [clamp] never exceeds its upper bound, is monotone and idempotent,
    and with inverted bounds it returns the upper bound. *)
Theorem clamp_properties (v lo hi : number) :
  clamp v lo hi <= hi /\
  clamp (clamp v lo hi) lo hi == clamp v lo hi /\
  (forall v', v <= v' -> clamp v lo hi <= clamp v' lo hi) /\
  (hi < lo -> clamp v lo hi == hi).
Proof.
  unfold clamp.
  destruct (Math_max_spec lo v) as (M1 & M2 & M3).
  destruct (Math_min_spec hi (Math_max lo v)) as (P1 & P2 & P3).
  destruct (Math_max_spec lo (Math_min hi (Math_max lo v))) as (N1 & N2 & N3).
  destruct (Math_min_spec hi (Math_max lo (Math_min hi (Math_max lo v))))
    as (R1 & R2 & R3).
  split; [exact P1|]. split; [|split].
  - destruct M3, P3, N3, R3; lra.
  - intros v' Hv. apply clamp_mono. exact Hv.
  - intros Hinv. destruct M3, P3; lra.
Qed.

Variables sourceW sourceH : Z.
Hypothesis sourceW_pos : (0 < sourceW)%Z.
Hypothesis sourceH_pos : (0 < sourceH)%Z.

Lemma source_pos : 1 <= inject_Z sourceW /\ 1 <= inject_Z sourceH.
Proof. change 1 with (inject_Z 1). rewrite <- !Zle_Qle. lia. Qed.

(** X7.  A scale of 100 percent keeps the source size. *)
Theorem scale_100_is_identity (options : ConversionOptions) :
  sizeMode options = Scale -> scalePct options == 100 ->
  let out := computeOutputSize (inject_Z sourceW) (inject_Z sourceH) options in
  width out == inject_Z sourceW /\ height out == inject_Z sourceH.
Proof.
  intros Hmode Hpct out. destruct source_pos as [Pw Ph].
  assert (Hb : 1 <= 1000) by lra.
  destruct (clamp_spec (scalePct options) 1 1000 Hb) as (_ & _ & _ & Hin).
  assert (Hs : clamp (scalePct options) 1 1000 == 100) by (rewrite Hin; lra).
  subst out. unfold computeOutputSize. rewrite Hmode. cbn [width height].
  assert (E : forall n : Z,
             Math_round (inject_Z n * (clamp (scalePct options) 1 1000 / 100))
             = inject_Z n).
  { intros n. rewrite <- (Math_round_int n) at 2. apply Math_round_comp.
    rewrite Hs. field. }
  rewrite !E, (Math_max_r 1 _ Pw), (Math_max_r 1 _ Ph). split; reflexivity.
Qed.



End ResolverMore.

Lemma scale_100_is_identity_example :
  ((0 < 640)%Z /\ (0 < 480)%Z /\
   sizeMode (withSize Scale 0 0 100 baseOptions) = Scale /\
   scalePct (withSize Scale 0 0 100 baseOptions) == 100) /\
  let out := computeOutputSize 640 480 (withSize Scale 0 0 100 baseOptions) in
  width out == 640 /\ height out == 480.
Proof.
  split; [repeat split; reflexivity|].
  exact (scale_100_is_identity 640 480 eq_refl eq_refl
           (withSize Scale 0 0 100 baseOptions) eq_refl eq_refl).
Defined.



(** ** File names, continued *)

Section FileNamesMore.

Lemma underscore_safe : isUnsafe "_" = false.
Proof. reflexivity. Qed.

Lemma safeFilename_safe_chars_joint (s : string) :
  allChars (fun c => negb (isUnsafe c)) (safeFilename s) = true /\
  allChars (fun c => negb (isUnsafe c)) (inMatch s) = true.
Proof.
  induction s as [|c r [IHs IHm]]; [split; reflexivity|].
  cbn [safeFilename inMatch]. destruct (isUnsafe c) eqn:Hc.
  - split; [|exact IHm]. cbn [allChars]. rewrite underscore_safe. exact IHm.
  - split; cbn [allChars]; rewrite Hc; exact IHs.
Qed.

Lemma safeFilename_length_joint (s : string) :
  (String.length (safeFilename s) <= String.length s)%nat /\
  (String.length (inMatch s) <= String.length s)%nat.
Proof.
  induction s as [|c r [IHs IHm]]; [split; reflexivity|].
  cbn [safeFilename inMatch]. destruct (isUnsafe c); cbn [String.length]; lia.
Qed.

(** X12.  [safeFilename] leaves no unsafe character, changes nothing when
    applied again, and never lengthens a name. *)
Theorem safeFilename_sanitises (s : string) :
  allChars (fun c => negb (isUnsafe c)) (safeFilename s) = true /\
  safeFilename (safeFilename s) = safeFilename s /\
  (String.length (safeFilename s) <= String.length s)%nat.
Proof.
  split; [apply safeFilename_safe_chars_joint|]. split.
  - apply safeFilename_safe, safeFilename_safe_chars_joint.
  - apply safeFilename_length_joint.
Qed.

Lemma noDot_app_dot (a b : string) : noDot (a ++ "." ++ b) = false.
Proof.
  induction a as [|c r IH].
  - reflexivity.
  - rewrite append_String. cbn [noDot]. rewrite IH. apply andb_false_r.
Qed.

(** X13.  Stripping undoes the appending of an extension. *)
Theorem stripExtension_of_appended (base ext : string) :
  ext <> EmptyString -> noDot ext = true ->
  stripExtension (base ++ "." ++ ext) = base.
Proof.
  intros Hne Hnd. induction base as [|c r IH].
  - rewrite append_empty.
    change ("." ++ ext)%string with (String "." ext). cbn [stripExtension].
    rewrite Hnd. destruct ext; [congruence|]. reflexivity.
  - rewrite append_String. cbn [stripExtension].
    rewrite noDot_app_dot, andb_false_r, IH. reflexivity.
Qed.

Lemma stripExtension_of_appended_example :
  ("webp"%string <> EmptyString /\ noDot "webp" = true) /\
  stripExtension ("holiday.2024" ++ "." ++ "webp") = "holiday.2024"%string.
Proof.
  assert (H : "webp"%string <> EmptyString) by discriminate.
  split; [split; [exact H | reflexivity]|].
  exact (stripExtension_of_appended "holiday.2024" "webp" H eq_refl).
Defined.

(** X14.  [stripExtension] removes nothing, or a final dot with a non-empty
    extension that holds no dot. *)
Theorem stripExtension_removes_extension (name : string) :
  exists rest : string,
    name = (stripExtension name ++ rest)%string /\
    (rest = EmptyString \/
     exists ext, rest = String "." ext /\ ext <> EmptyString /\ noDot ext = true).
Proof.
  induction name as [|c r (rest & Hname & Hrest)].
  - exists EmptyString. split; [reflexivity | left; reflexivity].
  - cbn [stripExtension].
    destruct (Ascii.eqb_spec c ".") as [->|Hc]; cbn [andb].
    + destruct (String.eqb_spec r "") as [->|Hr]; cbn [negb andb].
      * exists EmptyString. split; [reflexivity | left; reflexivity].
      * destruct (noDot r) eqn:Hnd.
        -- exists (String "." r). split; [reflexivity|]. right.
           exists r. repeat split; assumption.
        -- exists rest. split; [|exact Hrest].
           rewrite append_String. f_equal. exact Hname.
    + exists rest. split; [|exact Hrest].
      rewrite append_String. f_equal. exact Hname.
Qed.

Lemma allChars_app (p : ascii -> bool) (a b : string) :
  allChars p (a ++ b) = allChars p a && allChars p b.
Proof.
  induction a as [|c r IH]; [reflexivity|].
  rewrite append_String. cbn [allChars]. rewrite IH. apply andb_assoc.
Qed.

Lemma extFromMime_shape (mime : string) :
  extFromMime mime <> EmptyString /\
  noDot (extFromMime mime) = true /\
  allChars (fun c => negb (isUnsafe c)) (extFromMime mime) = true.
Proof.
  unfold extFromMime.
  repeat match goal with
         | |- context [if ?b then _ else _] => destruct b
         end; repeat split; try reflexivity; discriminate.
Qed.

(** The stem of a name that ends in a canonical extension. *)
Lemma stripExtension_stem (stem type : string) :
  stripExtension (stem ++ "." ++ extFromMime type) = stem.
Proof.
  destruct (extFromMime_shape type) as (Hne & Hnd & _).
  induction stem as [|c r IH].
  - rewrite append_empty.
    change ("." ++ extFromMime type)%string with (String "." (extFromMime type)).
    cbn [stripExtension]. rewrite Hnd.
    destruct (extFromMime type); [congruence | reflexivity].
  - rewrite append_String. cbn [stripExtension].
    rewrite noDot_app_dot, andb_false_r, IH. reflexivity.
Qed.

(** X15.  The derived name holds no unsafe character; its stem is the
    sanitised stem of the display name; and deriving a name from a derived
    name only changes the extension. *)
Theorem outputName_stable (name type1 type2 : string) :
  allChars (fun c => negb (isUnsafe c)) (outputName name type1) = true /\
  stripExtension (outputName name type1) = safeFilename (stripExtension name) /\
  outputName (outputName name type1) type2 = outputName name type2.
Proof.
  destruct (extFromMime_shape type1) as (Hne & Hnd & Hsafe).
  destruct (safeFilename_safe_chars_joint (stripExtension name)) as [Hs _].
  pose proof (safeFilename_safe _ Hs) as Hidem.
  assert (Hstem : stripExtension (outputName name type1)
                  = safeFilename (stripExtension name)).
  { unfold outputName. apply stripExtension_stem. }
  split; [|split; [exact Hstem|]].
  - unfold outputName. rewrite !allChars_app, Hs, Hsafe. reflexivity.
  - unfold outputName at 1. rewrite Hstem, Hidem. reflexivity.
Qed.

End FileNamesMore.

(** ** [formatBytes] *)

Section FormatBytes.

Lemma Qle_bool_false (a b : number) : Qle_bool a b = false <-> b < a.
Proof.
  split.
  - intros H. apply Qnot_le_lt. intros Hle. apply Qle_bool_iff in Hle. congruence.
  - intros H. destruct (Qle_bool a b) eqn:E; [|reflexivity].
    apply Qle_bool_iff in E. lra.
Qed.

Lemma div_1024_ge (x : number) : 1024 <= x / 1024 <-> 1024 * 1024 <= x.
Proof.
  split; intros H.
  - apply (Qmult_le_r _ _ 1024) in H; [|lra].
    assert (X : x / 1024 * 1024 == x) by field. rewrite X in H. lra.
  - apply Qle_shift_div_l; lra.
Qed.

Lemma formatBytes_below (bytes : number) :
  bytes < 1024 -> formatBytes bytes = (toFixed bytes 0 ++ " B")%string.
Proof.
  intros H. unfold formatBytes. cbn [units List.length Nat.sub scaleLoop].
  rewrite (proj2 (Qle_bool_false _ _) H). reflexivity.
Qed.

(** X16.  The unit is [B] below 1024, [KB] below 1024^2, [MB] below 1024^3
    and [GB] from there on, however large the number is; the number shown is
    the byte count divided by the unit. *)
Theorem formatBytes_units (bytes : number) :
  (bytes < 1024 -> formatBytes bytes = (toFixed bytes 0 ++ " B")%string) /\
  (1024 <= bytes < 1024 * 1024 ->
   formatBytes bytes = (toFixed (bytes / 1024) 1 ++ " KB")%string) /\
  (1024 * 1024 <= bytes < 1024 * 1024 * 1024 ->
   formatBytes bytes = (toFixed (bytes / 1024 / 1024) 1 ++ " MB")%string) /\
  (1024 * 1024 * 1024 <= bytes ->
   formatBytes bytes = (toFixed (bytes / 1024 / 1024 / 1024) 1 ++ " GB")%string).
Proof.
  assert (K : 1024 <= bytes / 1024 <-> 1024 * 1024 <= bytes)
    by apply div_1024_ge.
  assert (M : 1024 <= bytes / 1024 / 1024 <-> 1024 * 1024 * 1024 <= bytes).
  { rewrite (div_1024_ge (bytes / 1024)). split; intros H.
    - apply (Qmult_le_r _ _ 1024) in H; [|lra].
      assert (X : bytes / 1024 * 1024 == bytes) by field. rewrite X in H. lra.
    - apply Qle_shift_div_l; lra. }
  split; [apply formatBytes_below|].
  unfold formatBytes. cbn [units List.length Nat.sub scaleLoop].
  repeat split.
  - intros [H1 H2]. rewrite (proj2 (Qle_bool_iff _ _) H1).
    assert (F : Qle_bool 1024 (bytes / 1024) = false).
    { apply Qle_bool_false. apply Qnot_le_lt. intros X. apply K in X. lra. }
    rewrite F. reflexivity.
  - intros [H1 H2].
    assert (T1 : Qle_bool 1024 bytes = true) by (apply Qle_bool_iff; lra).
    assert (T2 : Qle_bool 1024 (bytes / 1024) = true)
      by (apply Qle_bool_iff, K; exact H1).
    assert (F : Qle_bool 1024 (bytes / 1024 / 1024) = false).
    { apply Qle_bool_false. apply Qnot_le_lt. intros X. apply M in X. lra. }
    rewrite T1, T2, F. reflexivity.
  - intros H.
    assert (T1 : Qle_bool 1024 bytes = true) by (apply Qle_bool_iff; lra).
    assert (T2 : Qle_bool 1024 (bytes / 1024) = true)
      by (apply Qle_bool_iff, K; lra).
    assert (T3 : Qle_bool 1024 (bytes / 1024 / 1024) = true)
      by (apply Qle_bool_iff, M; exact H).
    rewrite T1, T2, T3. reflexivity.
Qed.

Lemma formatBytes_units_example :
  1024 * 1024 * 1024 <= 10737418240 /\
  formatBytes 10737418240 = "10.0 GB"%string.
Proof.
  assert (H : 1024 * 1024 * 1024 <= 10737418240) by (intros H; discriminate H).
  split; [exact H|].
  rewrite (proj2 (proj2 (proj2 (formatBytes_units 10737418240))) H).
  reflexivity.
Defined.

(** X17.  A whole number of bytes below 1024 is shown as it is. *)
Theorem formatBytes_small (n : Z) :
  (0 <= n < 1024)%Z ->
  formatBytes (inject_Z n) = (digits n ++ " B")%string.
Proof.
  intros [Hlo Hhi].
  assert (Hq : inject_Z n < 1024).
  { change 1024 with (inject_Z 1024). rewrite <- Zlt_Qlt. exact Hhi. }
  rewrite (formatBytes_below (inject_Z n) Hq). f_equal.
  unfold toFixed.
  assert (G : gt 0 (inject_Z n) = false).
  { apply gt_false. change 0 with (inject_Z 0). rewrite <- Zle_Qle. exact Hlo. }
  rewrite G. cbn [Nat.eqb].
  assert (E : inject_Z n * inject_Z (10 ^ Z.of_nat 0) + (1 # 2)
              == inject_Z n + (1 # 2)).
  { change (inject_Z (10 ^ Z.of_nat 0)) with 1. ring. }
  rewrite (Qfloor_comp _ _ E), Qfloor_add_half. reflexivity.
Qed.

Lemma formatBytes_small_example :
  (0 <= 512 < 1024)%Z /\ formatBytes 512 = "512 B"%string.
Proof.
  assert (H : (0 <= 512 < 1024)%Z) by lia.
  split; [exact H|]. exact (formatBytes_small 512 H).
Defined.

End FormatBytes.

(** ** [canvas.ts] *)

Section CanvasEncoding.

Variable api : Canvas.CanvasApi.

(** X18.  For a type that takes no quality, the requested quality has no
    influence on the encoding. *)
Theorem canvasToBlob_ignores_quality (canvas : Handle) (type : string)
    (q1 q2 : number) :
  type ∉ QUALITY_MIMES ->
  Canvas.canvasToBlob api canvas type q1 = Canvas.canvasToBlob api canvas type q2.
Proof.
  intros Hnot. unfold Canvas.canvasToBlob, Canvas.qualityParam.
  rewrite (bool_decide_eq_false_2 _ Hnot). reflexivity.
Qed.

End CanvasEncoding.

Lemma png_takes_no_quality : "image/png"%string ∉ QUALITY_MIMES.
Proof.
  unfold QUALITY_MIMES. rewrite !elem_of_union, !elem_of_singleton.
  intros [[H | H] | H]; discriminate H.
Qed.

Lemma canvasToBlob_ignores_quality_example :
  ("image/png"%string ∉ QUALITY_MIMES) /\
  Canvas.canvasToBlob echoEncoders 10%nat "image/png" (1 # 10)
  = Canvas.canvasToBlob echoEncoders 10%nat "image/png" (9 # 10).
Proof.
  pose proof png_takes_no_quality as H.
  split; [exact H|].
  exact (canvasToBlob_ignores_quality echoEncoders 10%nat "image/png" (1 # 10)
           (9 # 10) H).
Defined.

Section Decoding.

Variable api : Canvas.DecodeApi.

(** X19.  Without [createImageBitmap], the object URL made for the decode is
    revoked exactly once, after the decode attempt, whether the decode
    succeeds or throws; a throw is passed on. *)
Theorem decodeImage_fallback_revokes (file : Handle) (tr : list Canvas.DecodeEvent) :
  Canvas.supportsCreateImageBitmap api = false ->
  let url := Canvas.createObjectURL api file in
  snd (Canvas.decodeImage api file tr)
  = tr ++ [Canvas.DCreateObjectURL file; Canvas.DImageDecode url;
           Canvas.DRevokeObjectURL url] /\
  fst (Canvas.decodeImage api file tr)
  = match Canvas.imageDecode api url with
    | Normal (img, nw, nh) => Normal (DecodedImg img nw nh)
    | Throw v => Throw v
    end.
Proof.
  intros Hno url. unfold Canvas.decodeImage. rewrite Hno.
  unfold Canvas.dbind, Canvas.dcall, Canvas.tryFinally, Canvas.dret. fold url.
  destruct (Canvas.imageDecode api url) as [[[img nw] nh]|v]; cbn [fst snd];
    rewrite <- !app_assoc; split; reflexivity.
Qed.

(** X20.  With [createImageBitmap], no object URL is made, and the size
    reported is the bitmap's own. *)
Theorem decodeImage_fast_path (file : Handle) (tr : list Canvas.DecodeEvent) :
  Canvas.supportsCreateImageBitmap api = true ->
  snd (Canvas.decodeImage api file tr) = tr ++ [Canvas.DCreateImageBitmap file] /\
  forall d, fst (Canvas.decodeImage api file tr) = Normal d ->
    exists bmp, d = DecodedBitmap bmp (bmp_width bmp) (bmp_height bmp) /\
                Canvas.createImageBitmapOf api file = Normal bmp.
Proof.
  intros Hyes. unfold Canvas.decodeImage. rewrite Hyes.
  unfold Canvas.dbind, Canvas.dcall, Canvas.dret.
  destruct (Canvas.createImageBitmapOf api file) as [bmp|v]; cbn [fst snd].
  - split; [reflexivity|]. intros d Hd. injection Hd as <-. eauto.
  - split; [reflexivity|]. discriminate.
Qed.

End Decoding.

Lemma decodeImage_fallback_revokes_example :
  Canvas.supportsCreateImageBitmap fallbackDecoder = false /\
  snd (Canvas.decodeImage fallbackDecoder 0%nat [])
  = [Canvas.DCreateObjectURL 0%nat; Canvas.DImageDecode "blob:1";
     Canvas.DRevokeObjectURL "blob:1"] /\
  fst (Canvas.decodeImage fallbackDecoder 0%nat [])
  = Throw (VError "The source image cannot be decoded.").
Proof.
  split; [reflexivity|].
  exact (decodeImage_fallback_revokes fallbackDecoder 0%nat [] eq_refl).
Defined.

Lemma decodeImage_fast_path_example :
  Canvas.supportsCreateImageBitmap fastDecoder = true /\
  snd (Canvas.decodeImage fastDecoder 0%nat []) = [Canvas.DCreateImageBitmap 0%nat].
Proof.
  split; [reflexivity|].
  exact (proj1 (decodeImage_fast_path fastDecoder 0%nat [] eq_refl)).
Defined.

Section Detection.

Variable api : Canvas.DetectApi.

Lemma probe_fold (canvas : Handle) (mimes acc : list string) :
  fold_left (Canvas.probe api canvas) mimes acc
  = acc ++ List.filter (accepted api canvas) mimes.
Proof.
  revert acc. induction mimes as [|m ms IH]; intros acc.
  - cbn. symmetry. apply app_nil_r.
  - cbn [fold_left List.filter]. rewrite IH.
    unfold Canvas.probe, accepted.
    destruct (Canvas.canvasToBlob (Canvas.encoders api) canvas m (9 # 10))
      as [blob|v]; [|reflexivity].
    destruct (gt (blob_size blob) 0 && String.eqb (blob_type blob) m);
      [|reflexivity].
    rewrite <- app_assoc. reflexivity.
Qed.

Lemma candidates_NoDup : List.NoDup CANDIDATE_EXPORT_MIMES.
Proof.
  unfold CANDIDATE_EXPORT_MIMES.
  repeat constructor; cbn; intros H;
    repeat (destruct H as [H | H]; [discriminate H|]); exact H.
Qed.

(** X21.  The detected types are candidates, each once and in the
    candidates' order; each was encoded to a non-empty blob of its own type;
    and each has a proper file extension. *)
Theorem detectExportFormats_result (supported : list string) :
  Canvas.detectExportFormats api = Normal supported ->
  List.NoDup supported /\
  (supported = [] \/
   exists canvas,
     Canvas.probeCanvas api = Normal canvas /\
     supported = List.filter (accepted api canvas) CANDIDATE_EXPORT_MIMES) /\
  forall mime, In mime supported ->
    In mime CANDIDATE_EXPORT_MIMES /\
    extFromMime mime <> "img"%string /\
    exists canvas blob,
      Canvas.canvasToBlob (Canvas.encoders api) canvas mime (9 # 10) = Normal blob /\
      0 < blob_size blob /\ blob_type blob = mime.
Proof.
  unfold Canvas.detectExportFormats.
  destruct (Canvas.probeCanvas api) as [canvas|v]; [|discriminate].
  destruct (Canvas.probeContext api canvas) as [[ctx|]|v]; [| |discriminate].
  - destruct (Canvas.probeFillRect api ctx) as [[]|v]; [|discriminate].
    rewrite probe_fold, app_nil_l. intros H.
    assert (E : supported = List.filter (accepted api canvas) CANDIDATE_EXPORT_MIMES)
      by congruence.
    clear H. rewrite E. clear E supported.
    split; [apply List.NoDup_filter, candidates_NoDup|].
    split; [right; exists canvas; split; reflexivity|].
    intros mime Hin. apply List.filter_In in Hin as [Hc Hacc].
    split; [exact Hc|]. split.
    + unfold CANDIDATE_EXPORT_MIMES in Hc. cbn in Hc.
      destruct Hc as [<-|[<-|[<-|[<-|[]]]]]; discriminate.
    + unfold accepted in Hacc.
      destruct (Canvas.canvasToBlob (Canvas.encoders api) canvas mime (9 # 10))
        as [blob|v] eqn:Hblob; [|discriminate].
      apply andb_true_iff in Hacc as [Hsize Htype].
      exists canvas, blob. split; [exact Hblob|]. split.
      * apply gt_true. exact Hsize.
      * apply String.eqb_eq. exact Htype.
  - intros H. injection H as <-. split; [constructor|].
    split; [left; reflexivity|]. intros mime [].
Qed.

End Detection.

Lemma detectExportFormats_result_example :
  Canvas.detectExportFormats echoDetect = Normal CANDIDATE_EXPORT_MIMES /\
  List.NoDup CANDIDATE_EXPORT_MIMES.
Proof.
  split; [reflexivity|].
  exact (proj1 (detectExportFormats_result echoDetect CANDIDATE_EXPORT_MIMES eq_refl)).
Defined.

(** ** Start-up *)

Section DefaultFormat.

Lemma includes_In (m : string) (l : list string) :
  existsb (String.eqb m) l = true <-> In m l.
Proof.
  rewrite existsb_exists. split.
  - intros (x & Hx & E). apply String.eqb_eq in E. subst x. exact Hx.
  - intros H. exists m. split; [exact H|]. apply String.eqb_refl.
Qed.

Lemma find_split {A} (f : A -> bool) (l : list A) (m : A) :
  find f l = Some m ->
  exists before after,
    l = before ++ m :: after /\ f m = true /\
    forall x, In x before -> f x = false.
Proof.
  induction l as [|a l IH]; [discriminate|].
  cbn [find]. destruct (f a) eqn:Ha.
  - intros H. injection H as <-. exists [], l.
    split; [reflexivity|]. split; [exact Ha|]. intros x [].
  - intros H. destruct (IH H) as (before & after & -> & Hm & Hb).
    exists (a :: before), after. split; [reflexivity|]. split; [exact Hm|].
    intros x [<-|Hx]; [exact Ha | apply Hb; exact Hx].
Qed.

(** X22.  The default format is absent only for an empty list; it is always
    one of the supported types; it is the first of the preferred formats
    that is supported, when one is. *)
Theorem defaultFormat_spec (supported : list string) :
  (defaultFormat supported = None <-> supported = []) /\
  (forall m, defaultFormat supported = Some m -> In m supported) /\
  (forall m, defaultFormat supported = Some m ->
   forall p, In p supported -> In p preferredFormats ->
     exists before after,
       preferredFormats = before ++ m :: after /\
       (p = m \/ In p after) /\
       forall x, In x before -> ~ In x supported).
Proof.
  unfold defaultFormat.
  destruct (find (fun m => existsb (String.eqb m) supported) preferredFormats)
    as [m0|] eqn:Hfind.
  - destruct (find_split _ _ _ Hfind) as (before & after & Hsplit & Hinc & Hb).
    apply includes_In in Hinc.
    split; [split; [discriminate | intros E; rewrite E in Hinc; destruct Hinc]|].
    split; [intros m Hm; injection Hm as <-; exact Hinc|].
    intros m Hm p Hp Hpp. injection Hm as <-.
    exists before, after. split; [exact Hsplit|].
    assert (Hnot : forall x, In x before -> ~ In x supported).
    { intros x Hx Hs. apply includes_In in Hs. rewrite (Hb x Hx) in Hs.
      discriminate Hs. }
    split; [|exact Hnot].
    rewrite Hsplit in Hpp. apply in_app_or in Hpp as [Hpb | [Hpm | Hpa]].
    + exfalso. exact (Hnot p Hpb Hp).
    + left. symmetry. exact Hpm.
    + right. exact Hpa.
  - split; [|split].
    + destruct supported; split; try discriminate; reflexivity.
    + intros m Hm. destruct supported as [|x xs]; [discriminate|].
      injection Hm as <-. left. reflexivity.
    + intros m Hm p Hp Hpp. exfalso.
      apply (find_none _ _ Hfind) in Hpp.
      apply not_true_iff_false in Hpp. apply Hpp, includes_In. exact Hp.
Qed.

End DefaultFormat.

(** ** [convertOne] *)

Section ConvertOneFrame.

Variable env : Env.
Variable optionsOverride : option ConversionOptions.

(** [convertImage] changes the status, the error and the output of an
    item, and nothing else. *)
Lemma convertImage_keeps_identity (options : ConversionOptions) (s : St) :
  let it := st_item s in
  let it' := st_item (snd (convertImage env options s)) in
  item_id it' = item_id it /\ item_file it' = item_file it /\
  item_name it' = item_name it /\ item_type it' = item_type it /\
  item_size it' = item_size it /\
  (item_status it' = Done \/ item_status it' = Error).
Proof.
  destruct (convertImage_cases env options s) as (s' & Hrun & _ & [Hdone | Herr]);
    rewrite Hrun; cbn [snd].
  - destruct Hdone as (blob & dw' & dh' & ->). cbn. tauto.
  - destruct Herr as (v & s1 & _ & ->). cbn. tauto.
Qed.

(** X23.  [convertOne] does nothing for an unknown id; otherwise it touches
    only the item with that id, keeps the set of ids, and, unless the item
    was being converted, leaves it ['done'] or ['error'] with its id, file
    and name unchanged. *)
Theorem convertOne_frame (id : string) (world : World) :
  let world' := convertOne env id optionsOverride world in
  (items world !! id = None -> world' = world) /\
  (forall id', id' <> id -> items world' !! id' = items world !! id') /\
  dom (items world') = dom (items world) /\
  (forall item,
      items world !! id = Some item -> item_status item <> Converting ->
      exists item',
        items world' !! id = Some item' /\
        (item_status item' = Done \/ item_status item' = Error) /\
        item_id item' = item_id item /\ item_file item' = item_file item /\
        item_name item' = item_name item).
Proof.
  cbv zeta. unfold convertOne.
  destruct (items world !! id) as [item|] eqn:Hlook.
  2: { repeat split; try reflexivity. intros item Hi. discriminate Hi. }
  set (options := match optionsOverride with
                  | Some o => o
                  | None => readOptions env
                  end).
  set (s0 := {| st_item := set_error None (set_status Converting item);
                st_trace := render (trace world) |}).
  pose proof (convertImage_keeps_identity options s0) as Hid. cbv zeta in Hid.
  destruct (convertImage env options s0) as [r s'] eqn:Hrun. cbn [snd] in Hid.
  assert (Hin : id ∈ dom (items world)) by (apply elem_of_dom; eauto).
  destruct (item_status item) eqn:Hst.
  2: { split; [discriminate|]. split; [reflexivity|]. split; [reflexivity|].
       intros item0 Hi Hfree. injection Hi as <-. congruence. }
  all: split; [discriminate|]; cbn [items].
  all: split; [intros id' Hne; apply lookup_insert_ne; congruence|].
  all: split; [rewrite dom_insert_L; apply set_eq; intros x;
               rewrite elem_of_union, elem_of_singleton;
               split; [intros [->|H]; assumption | auto]|].
  all: intros item0 Hi _; injection Hi as <-.
  all: exists (st_item s'); split; [apply lookup_insert_eq|].
  all: cbn in Hid; tauto.
Qed.

End ConvertOneFrame.

(** ** The batch scheduler *)

Section SchedulerSteps.

Lemma runnerCount_bounds (hint : number) : (1 <= runnerCount hint <= 6)%nat.
Proof.
  unfold runnerCount. destruct (concurrency_bounds hint) as [Hlo Hhi].
  assert (H1 : (1 <= Qfloor (concurrency hint))%Z) by (apply Qfloor_ge; exact Hlo).
  assert (H6 : (Qfloor (concurrency hint) <= 6)%Z).
  { change 6%Z with (Qfloor 6). apply Qfloor_resp_le. exact Hhi. }
  lia.
Qed.

Lemma runner_split (rs : list Runner) (k : nat) (r0 : Runner) :
  rs !! k = Some r0 ->
  exists l1 l2, rs = l1 ++ r0 :: l2 /\ forall r, <[k := r]> rs = l1 ++ r :: l2.
Proof.
  intros H. apply list_elem_of_split_length in H as (l1 & l2 & -> & ->).
  exists l1, l2. split; [reflexivity|]. intros r.
  rewrite insert_app_r_alt by lia. rewrite Nat.sub_diag. reflexivity.
Qed.

Lemma awaitedIn_middle (l1 l2 : list Runner) (r : Runner) :
  awaitedIn (l1 ++ r :: l2)
  = awaitedIn l1
    ++ match r with Awaiting i => [i] | _ => [] end ++ awaitedIn l2.
Proof.
  unfold awaitedIn. rewrite omap_app. f_equal. destruct r; reflexivity.
Qed.

Lemma activeIn_middle (l1 l2 : list Runner) (r : Runner) :
  activeIn (l1 ++ r :: l2)
  = (activeIn l1 + match r with Returned => 0 | _ => 1 end + activeIn l2)%nat.
Proof.
  unfold activeIn. rewrite List.filter_app, List.length_app.
  destruct r; cbn [List.filter List.length]; lia.
Qed.

Lemma In_middle (l1 l2 : list Runner) (r x : Runner) :
  In x (l1 ++ r :: l2) <-> x = r \/ In x (l1 ++ l2).
Proof.
  rewrite !in_app_iff. cbn [In]. split; intros H; intuition.
Qed.

(** The three ways in which a runner moves. *)
Lemma step_cases (k : nat) (b b' : Batch) :
  step k b = Some b' ->
  (exists l1 l2 id,
      runners b = l1 ++ AtLoopTest :: l2 /\
      list_ids b !! cursor b = Some id /\
      b' = {| list_ids := list_ids b; cursor := S (cursor b);
              completed_count := completed_count b;
              runners := l1 ++ Awaiting (cursor b) :: l2;
              launched := launched b ++ [id]; reports := reports b |}) \/
  (exists l1 l2,
      runners b = l1 ++ AtLoopTest :: l2 /\
      (List.length (list_ids b) <= cursor b)%nat /\
      b' = {| list_ids := list_ids b; cursor := cursor b;
              completed_count := completed_count b;
              runners := l1 ++ Returned :: l2;
              launched := launched b; reports := reports b |}) \/
  (exists l1 l2 i,
      runners b = l1 ++ Awaiting i :: l2 /\
      b' = {| list_ids := list_ids b; cursor := cursor b;
              completed_count := S (completed_count b);
              runners := l1 ++ AtLoopTest :: l2;
              launched := launched b;
              reports := reports b ++ [S (completed_count b)] |}).
Proof.
  unfold step, setRunner.
  destruct (runners b !! k) as [r0|] eqn:Hk; [|discriminate].
  destruct (runner_split _ _ _ Hk) as (l1 & l2 & Hrs & Hins).
  destruct r0 as [|i|]; [| |discriminate].
  - destruct (Nat.ltb_spec (cursor b) (List.length (list_ids b))) as [Hlt|Hge].
    + destruct (lookup_lt_is_Some_2 _ _ Hlt) as [id Hid]. rewrite Hid.
      intros H. injection H as <-. left. exists l1, l2, id.
      rewrite Hins. auto.
    + intros H. injection H as <-. right. left. exists l1, l2.
      rewrite Hins. auto.
  - intros H. injection H as <-. right. right. exists l1, l2, i.
    rewrite Hins. auto.
Qed.

(** Every step brings the end of the batch one step nearer. *)
Lemma step_remaining (k : nat) (b b' : Batch) :
  step k b = Some b' -> remaining b = S (remaining b').
Proof.
  intros H. unfold remaining, awaited, active.
  destruct (step_cases _ _ _ H)
    as [(l1 & l2 & id & Hrs & Hid & ->) | [(l1 & l2 & Hrs & Hge & ->)
       | (l1 & l2 & i & Hrs & ->)]];
    cbn [list_ids cursor runners]; rewrite Hrs;
    rewrite !awaitedIn_middle, !activeIn_middle, !List.length_app;
    cbn [List.length].
  - apply lookup_lt_Some in Hid. lia.
  - lia.
  - lia.
Qed.

Lemma run_remaining (schedule : list nat) (b b' : Batch) :
  run schedule b = Some b' ->
  remaining b = (List.length schedule + remaining b')%nat.
Proof.
  revert b. induction schedule as [|k rest IH]; intros b.
  - cbn. intros H. injection H as <-. reflexivity.
  - cbn [run]. destruct (step k b) as [b1|] eqn:Hs; [|discriminate].
    intros H. rewrite (step_remaining _ _ _ Hs), (IH _ H). reflexivity.
Qed.

Lemma step_consistent (k : nat) (b b' : Batch) :
  step k b = Some b' -> consistent b -> consistent b'.
Proof.
  intros H (Hc & Hl & Hr & Hn & Hnd & Hlt & Hret).
  unfold consistent, awaited in *.
  destruct (step_cases _ _ _ H)
    as [(l1 & l2 & id & Hrs & Hid & ->) | [(l1 & l2 & Hrs & Hge & ->)
       | (l1 & l2 & i & Hrs & ->)]];
    cbn [list_ids cursor completed_count runners launched reports];
    rewrite Hrs in *; rewrite awaitedIn_middle in *; cbn [app] in *.
  - pose proof (lookup_lt_Some _ _ _ Hid) as Hcl.
    assert (Hp : awaitedIn l1 ++ cursor b :: awaitedIn l2
                 ≡ₚ cursor b :: awaitedIn l1 ++ awaitedIn l2)
      by (symmetry; apply Permutation_middle).
    split; [lia|]. split; [rewrite Hl; symmetry; apply take_S_r; exact Hid|].
    split; [exact Hr|]. split; [rewrite (Permutation_length Hp); cbn; lia|].
    split; [|split].
    + rewrite Hp. apply NoDup_cons. split; [|exact Hnd].
      rewrite list_elem_of_In. intros Hin. apply Hlt in Hin. lia.
    + intros j Hj. apply (Permutation_in _ Hp) in Hj.
      destruct Hj as [<-|Hj]; [lia|]. apply Hlt in Hj. lia.
    + intros Hin. apply In_middle in Hin as [Hin|Hin]; [discriminate|].
      exfalso. assert (cursor b = List.length (list_ids b)); [|lia].
      apply Hret, In_middle. right. exact Hin.
  - split; [exact Hc|]. split; [exact Hl|]. split; [exact Hr|].
    split; [exact Hn|]. split; [exact Hnd|]. split; [exact Hlt|].
    intros _. lia.
  - assert (Hp : awaitedIn l1 ++ i :: awaitedIn l2
                 ≡ₚ i :: awaitedIn l1 ++ awaitedIn l2)
      by (symmetry; apply Permutation_middle).
    rewrite Hp in Hnd. rewrite (Permutation_length Hp) in Hn. cbn in Hn.
    split; [exact Hc|]. split; [exact Hl|].
    split; [rewrite Hr, seq_S; reflexivity|]. split; [lia|].
    split; [apply NoDup_cons in Hnd; tauto|]. split.
    + intros j Hj. apply Hlt. apply (Permutation_in _ (symmetry Hp)).
      right. exact Hj.
    + intros Hin. apply Hret. apply In_middle in Hin as [Hin|Hin];
        [discriminate|]. apply In_middle. right. exact Hin.
Qed.

Lemma run_consistent (schedule : list nat) (b b' : Batch) :
  run schedule b = Some b' -> consistent b -> consistent b'.
Proof.
  revert b. induction schedule as [|k rest IH]; intros b.
  - cbn. intros H. injection H as <-. auto.
  - cbn [run]. destruct (step k b) as [b1|] eqn:Hs; [|discriminate].
    intros H Hb. apply (IH _ H). exact (step_consistent _ _ _ Hs Hb).
Qed.

Lemma step_keeps (k : nat) (b b' : Batch) :
  step k b = Some b' ->
  list_ids b' = list_ids b /\
  List.length (runners b') = List.length (runners b).
Proof.
  intros Hs.
  destruct (step_cases _ _ _ Hs)
    as [(l1 & l2 & id & E & _ & ->) | [(l1 & l2 & E & _ & ->)
       | (l1 & l2 & i & E & ->)]]; cbn [list_ids runners]; rewrite E;
    rewrite !List.length_app; split; reflexivity.
Qed.

Lemma run_keeps (schedule : list nat) (b b' : Batch) :
  run schedule b = Some b' ->
  list_ids b' = list_ids b /\
  List.length (runners b') = List.length (runners b).
Proof.
  revert b. induction schedule as [|k rest IH]; intros b.
  - cbn. intros H. injection H as <-. split; reflexivity.
  - cbn [run]. destruct (step k b) as [b1|] eqn:Hs; [|discriminate].
    intros H. destruct (IH _ H) as [E1 E2]. destruct (step_keeps _ _ _ Hs) as [F1 F2].
    split; congruence.
Qed.

Lemma fresh_runners (n : nat) :
  awaitedIn (replicate n AtLoopTest) = [] /\
  activeIn (replicate n AtLoopTest) = n.
Proof.
  induction n as [|n [IHa IHc]]; [split; reflexivity|].
  split; [exact IHa|]. unfold activeIn in *. cbn. lia.
Qed.

Lemma returned_runners (rs : list Runner) :
  (forall r, In r rs -> r = Returned) -> awaitedIn rs = [] /\ activeIn rs = 0%nat.
Proof.
  induction rs as [|r rs IH]; intros Hall; [split; reflexivity|].
  rewrite (Hall r (or_introl eq_refl)). apply IH.
  intros x Hx. apply Hall. right. exact Hx.
Qed.

Lemma start_consistent (hint : number) (ids : list string) (b : Batch) :
  start hint ids = Some b ->
  consistent b /\ list_ids b = ids /\ cursor b = 0%nat /\
  runners b = replicate (runnerCount hint) AtLoopTest.
Proof.
  unfold start. destruct ids as [|id ids]; [discriminate|].
  intros H. injection H as <-. unfold consistent, awaited.
  cbn [list_ids cursor completed_count runners launched reports].
  rewrite (proj1 (fresh_runners _)).
  repeat split; try reflexivity.
  - cbn. lia.
  - apply NoDup_nil_2.
  - intros i [].
  - intros Hin. exfalso. apply list_elem_of_In, elem_of_replicate in Hin as [Hin _].
    discriminate Hin.
Qed.

Lemma start_remaining (hint : number) (ids : list string) (b : Batch) :
  start hint ids = Some b ->
  remaining b = (2 * List.length ids + runnerCount hint)%nat.
Proof.
  intros H. destruct (start_consistent _ _ _ H) as (_ & Hids & Hcur & Hrs).
  unfold remaining, awaited, active. rewrite Hids, Hcur, Hrs.
  destruct (fresh_runners (runnerCount hint)) as [-> ->]. cbn [List.length]. lia.
Qed.

Lemma finished_spec (b : Batch) :
  finished b = true <-> forall r, In r (runners b) -> r = Returned.
Proof.
  unfold finished. rewrite forallb_forall. split; intros H r Hr.
  - specialize (H r Hr). destruct r; [discriminate | discriminate | reflexivity].
  - rewrite (H r Hr). reflexivity.
Qed.

End SchedulerSteps.

Section SchedulerRuns.

Variable hint : number.
Variable ids : list string.
Variable b0 : Batch.
Hypothesis started_batch : start hint ids = Some b0.

(** X24.  At every moment of a batch: the ids handed to [convertOne] are the
    first ids of the list, in order and each once; no two runners await the
    same item; and the progress reports count [1, 2, ...]. *)
Theorem convertAll_safety (schedule : list nat) (b : Batch) :
  run schedule b0 = Some b ->
  launched b = take (cursor b) ids /\
  (cursor b <= List.length ids)%nat /\
  NoDup (awaited b) /\
  (forall i, In i (awaited b) -> (i < cursor b)%nat) /\
  reports b = seq 1 (completed_count b) /\
  (completed_count b + List.length (awaited b) = cursor b)%nat.
Proof.
  intros Hrun.
  destruct (start_consistent _ _ _ started_batch) as (Hc0 & Hids & _ & _).
  destruct (run_keeps _ _ _ Hrun) as [Hl _]. rewrite Hids in Hl.
  destruct (run_consistent _ _ _ Hrun Hc0) as (Hc & Hla & Hr & Hn & Hnd & Hlt & _).
  rewrite Hl in *. tauto.
Qed.

(** X25.  When every runner has returned, each item of the list has been
    handed to [convertOne] exactly once, in list order, all have been
    counted, the reports were [1/n, 2/n, ..., n/n], and the batch took two
    steps per item and one per runner. *)
Theorem convertAll_completes (schedule : list nat) (b : Batch) :
  run schedule b0 = Some b -> finished b = true ->
  launched b = ids /\
  completed_count b = List.length ids /\
  reports b = seq 1 (List.length ids) /\
  List.length schedule = (2 * List.length ids + runnerCount hint)%nat.
Proof.
  intros Hrun Hfin.
  destruct (start_consistent _ _ _ started_batch) as (Hc0 & Hids & _ & Hrs0).
  pose proof (run_consistent _ _ _ Hrun Hc0) as (Hc & Hla & Hr & Hn & _ & _ & Hret).
  destruct (run_keeps _ _ _ Hrun) as [Hl Hlen].
  rewrite Hids in Hl. rewrite Hrs0, length_replicate in Hlen.
  rewrite Hl in Hc, Hla.
  pose proof (proj1 (finished_spec b) Hfin) as Hall.
  destruct (returned_runners _ Hall) as [Haw Hact].
  assert (Hsome : In Returned (runners b)).
  { destruct (runners b) as [|r rs] eqn:E.
    - pose proof (runnerCount_bounds hint). cbn in Hlen. lia.
    - left. apply Hall. left. reflexivity. }
  specialize (Hret Hsome). rewrite Hl in Hret.
  unfold awaited in Hn. rewrite Haw in Hn. cbn [List.length] in Hn.
  split; [rewrite Hla; apply take_ge; lia|].
  split; [lia|]. split; [rewrite Hr; f_equal; lia|].
  pose proof (run_remaining _ _ _ Hrun) as Hrem.
  rewrite (start_remaining _ _ _ started_batch) in Hrem.
  unfold remaining, awaited, active in Hrem.
  rewrite Haw, Hact, Hl, Hret in Hrem. cbn [List.length] in Hrem. lia.
Qed.

(** X26.  A batch cannot get stuck and cannot run forever: as long as a
    runner has not returned some runner can move, and no schedule is longer
    than two steps per item plus one per runner. *)
Theorem convertAll_progress (schedule : list nat) (b : Batch) :
  run schedule b0 = Some b ->
  (List.length schedule <= 2 * List.length ids + runnerCount hint)%nat /\
  (finished b = false -> exists k b', step k b = Some b').
Proof.
  intros Hrun.
  pose proof (run_remaining _ _ _ Hrun) as Hrem.
  rewrite (start_remaining _ _ _ started_batch) in Hrem.
  split; [lia|]. intros Hnot.
  assert (Hex : exists k r, runners b !! k = Some r /\ r <> Returned).
  { unfold finished in Hnot. clear - Hnot.
    induction (runners b) as [|r rs IH]; [discriminate|].
    cbn [forallb] in Hnot. destruct r.
    - exists 0%nat, AtLoopTest. split; [reflexivity | discriminate].
    - exists 0%nat, (Awaiting i). split; [reflexivity | discriminate].
    - destruct (IH Hnot) as (k & r & Hk & Hr). exists (S k), r. auto. }
  destruct Hex as (k & r & Hk & Hr). exists k. unfold step. rewrite Hk.
  destruct r as [|i|]; [| |congruence].
  - destruct (Nat.ltb (cursor b) (List.length (list_ids b)));
      [destruct (list_ids b !! cursor b)|]; eauto.
  - eauto.
Qed.

End SchedulerRuns.

Lemma convertAll_safety_example :
  (start 3 threeIds = Some threeStart /\
   run [0; 1; 0]%nat threeStart
   = Some {| list_ids := threeIds; cursor := 2; completed_count := 1;
             runners := [AtLoopTest; Awaiting 1]; launched := ["a"; "b"];
             reports := [1%nat] |}) /\
  launched {| list_ids := threeIds; cursor := 2; completed_count := 1;
              runners := [AtLoopTest; Awaiting 1]; launched := ["a"; "b"];
              reports := [1%nat] |} = take 2 threeIds.
Proof.
  split; [split; reflexivity|].
  exact (proj1 (convertAll_safety 3 threeIds threeStart eq_refl [0; 1; 0]%nat _
                  eq_refl)).
Defined.

Lemma convertAll_completes_example :
  (start 3 threeIds = Some threeStart /\
   run threeSchedule threeStart = Some threeEnd /\
   finished threeEnd = true) /\
  launched threeEnd = threeIds /\
  completed_count threeEnd = List.length threeIds /\
  reports threeEnd = seq 1 (List.length threeIds) /\
  List.length threeSchedule = (2 * List.length threeIds + runnerCount 3%Q)%nat.
Proof.
  split; [repeat split; reflexivity|].
  exact (convertAll_completes 3 threeIds threeStart eq_refl threeSchedule threeEnd
           eq_refl eq_refl).
Defined.

Lemma convertAll_progress_example :
  (start 3 threeIds = Some threeStart /\
   run [0; 1]%nat threeStart
   = Some {| list_ids := threeIds; cursor := 2; completed_count := 0;
             runners := [Awaiting 0; Awaiting 1]; launched := ["a"; "b"];
             reports := [] |}) /\
  (List.length [0; 1]%nat <= 2 * List.length threeIds + runnerCount 3%Q)%nat.
Proof.
  split; [split; reflexivity|].
  exact (proj1 (convertAll_progress 3 threeIds threeStart eq_refl [0; 1]%nat _
                  eq_refl)).
Defined.

(** ** The pipeline, continued *)

Section PipelineDetails.

#[local] Hint Resolve Inv_refl Inv_log : pipeline.

Variable env : Env.
Variable options : ConversionOptions.

(** What a run that returns has done. *)
Lemma convertBody_success (s : St) :
  wp (convertBody env options)
     (fun _ s' =>
        exists decoded canvas blob,
          decodeImage env (item_file (st_item s)) = Normal decoded /\
          let size := computeOutputSize (decoded_width decoded)
                        (decoded_height decoded) options in
          makeCanvas env (width size) (height size) = Normal canvas /\
          canvasToBlob env canvas (opt_type options) (quality options)
          = Normal blob /\
          st_item s'
          = set_status Done (set_output (Some
              {| out_blob := blob;
                 out_type := blob_type blob;
                 out_name := outputName (item_name (st_item s)) (opt_type options);
                 out_size := blob_size blob;
                 out_width := width size;
                 out_height := height size |}) (st_item s)))
     (fun _ _ => True) s.
Proof.
  unfold convertBody.
  apply wp_bind, wp_getItem, wp_bind, wp_call.
  destruct (decodeImage env (item_file (st_item s))) as [decoded|v] eqn:Hdec;
    [|exact I].
  set (size := computeOutputSize _ _ _).
  apply wp_bind, wp_call.
  destruct (makeCanvas env (width size) (height size)) as [canvas|v] eqn:Hcan;
    [|exact I].
  apply wp_bind, wp_call.
  destruct (getContext env canvas) as [[ctx|]|v];
    [| apply wp_throw; exact I | exact I].
  apply wp_bind.
  set (s3 := log _ (log _ (log _ s))).
  assert (I3 : Inv s s3) by (subst s3; auto with pipeline).
  clearbody s3.
  apply wp_mono with (Q := fun _ s' => Inv s s') (E := fun _ _ => True).
  { destruct (String.eqb (opt_type options) "image/jpeg"); apply wp_call;
      match goal with |- match ?r with _ => _ end => destruct r end;
      auto with pipeline. }
  2: { auto. }
  intros _ s4 I4. apply wp_bind, wp_call, wp_bind.
  apply wp_mono with (Q := fun _ s' => Inv s s') (E := fun _ _ => True).
  { destruct (smoothing options && hasSmoothingQuality env ctx);
      [apply wp_call | apply wp_ret]; auto with pipeline. }
  2: { auto. }
  intros _ s5 I5. apply wp_bind.
  apply wp_mono with (Q := fun _ s' => Inv s s') (E := fun _ _ => True).
  { destruct decoded as [bmp dw0 dh0 | img dw0 dh0]; [|apply wp_ret; exact I5].
    apply wp_bind.
    eapply wp_mono; [apply maybeResizeBitmap_wp | |].
    - intros resized s6 I6. cbv beta.
      destruct (negb (bmp_ref resized =? bmp_ref bmp)%nat); apply wp_ret;
        exact (Inv_trans _ _ _ I5 I6).
    - auto. }
  2: { auto. }
  intros [[drawSource sW'] sH'] s6 I6.
  apply wp_bind, wp_call.
  match goal with |- match ?r with _ => _ end => destruct r end; [|exact I].
  apply wp_bind.
  apply wp_mono with (Q := fun _ s' => Inv s s') (E := fun _ _ => True).
  { destruct drawSource; [apply wp_call | apply wp_ret]; auto with pipeline. }
  2: { auto. }
  intros _ s7 [Hi _]. apply wp_bind, wp_call.
  destruct (canvasToBlob env canvas (opt_type options) (quality options))
    as [blob|v] eqn:Hblob; [|exact I].
  apply wp_bind, wp_getItem, wp_bind, wp_update, wp_update.
  exists decoded, canvas, blob. split; [reflexivity|]. cbv zeta. fold size.
  split; [exact Hcan|]. split; [exact Hblob|].
  cbn [modify log st_item]. rewrite Hi. reflexivity.
Qed.


End PipelineDetails.


Section EncoderFailure.

Variable api : Canvas.CanvasApi.
Hypothesis only_toBlob : forall canvas, Canvas.hasConvertToBlob api canvas = false.
Hypothesis null_blob :
  forall canvas type q, Canvas.toBlob api canvas type q = Normal None.

(** X28.  In a browser whose [toBlob] yields [null], no conversion ends
    ['done']: every one ends ['error'] and leaves the output as it was. *)
Theorem null_blob_never_done (env : Env) (options : ConversionOptions) (s : St) :
  let s' := snd (convertImage (withEncoders api env) options s) in
  item_status (st_item s') = Error /\
  item_output (st_item s') = item_output (st_item s).
Proof.
  cbv zeta.
  pose proof (convertBody_success (withEncoders api env) options (started s)) as Hok.
  pose proof (convertBody_wp (withEncoders api env) options (started s)) as Hwp.
  unfold wp in Hok, Hwp.
  unfold convertImage, bind, update, tryCatch.
  change (modify (set_error None) (modify (set_status Converting) s))
    with (started s).
  destruct (convertBody (withEncoders api env) options (started s))
    as [[[]|v] s1]; cbn [snd].
  - exfalso. destruct Hok as (decoded & canvas & blob & _ & _ & Hblob & _).
    cbn [canvasToBlob withEncoders] in Hblob.
    unfold Canvas.canvasToBlob in Hblob.
    rewrite only_toBlob, null_blob in Hblob. discriminate Hblob.
  - destruct Hwp as [Hi _]. cbn [modify st_item]. rewrite Hi. split; reflexivity.
Qed.

End EncoderFailure.

Lemma null_blob_never_done_example :
  ((forall canvas, Canvas.hasConvertToBlob nullEncoders canvas = false) /\
   (forall canvas type q, Canvas.toBlob nullEncoders canvas type q = Normal None)) /\
  item_status (st_item (snd (convertImage (withEncoders nullEncoders okEnv)
     baseOptions (initial doneItem)))) = Error /\
  item_output (st_item (snd (convertImage (withEncoders nullEncoders okEnv)
     baseOptions (initial doneItem)))) = Some earlierOutput.
Proof.
  split; [split; intros; reflexivity|].
  exact (null_blob_never_done nullEncoders (fun _ => eq_refl) (fun _ _ _ => eq_refl)
           okEnv baseOptions (initial doneItem)).
Defined.

Section CallOrder.

Variable env : Env.
Variable options : ConversionOptions.

Lemma snoc_split (evs pre post : list Event) (e x : Event) :
  evs ++ [e] = pre ++ x :: post ->
  (post = [] /\ pre = evs /\ x = e) \/
  (exists post', post = post' ++ [e] /\ evs = pre ++ x :: post').
Proof.
  revert pre. induction evs as [|a evs IH]; intros pre H.
  - destruct pre as [|b pre]; cbn in H.
    + injection H as <- <-. left. auto.
    + injection H as _ H. destruct pre; discriminate H.
  - destruct pre as [|b pre]; cbn in H.
    + injection H as <- <-. right. exists evs. auto.
    + injection H as <- H. destruct (IH _ H) as [(-> & -> & ->) | (post' & -> & ->)].
      * left. auto.
      * right. exists post'. auto.
Qed.

Lemma undrawn_refl s : undrawn s s.
Proof. exists []. split; [symmetry; apply app_nil_r | intros x []]. Qed.

Lemma undrawn_log s s' e : isDraw e = false -> undrawn s s' -> undrawn s (log e s').
Proof.
  intros He (evs & Ht & Hn). exists (evs ++ [e]). split.
  - unfold grownBy in *. cbn [log st_trace]. rewrite Ht. symmetry. apply app_assoc.
  - intros x Hx. apply in_app_or in Hx as [Hx | [<- | []]]; auto.
Qed.

Lemma prepared_log s s' e :
  isDraw e = false -> prepared options s s' -> prepared options s (log e s').
Proof.
  intros He (evs & Ht & Hn & p & Hp & Hpp). exists (evs ++ [e]). split; [|split].
  - unfold grownBy in *. cbn [log st_trace]. rewrite Ht. symmetry. apply app_assoc.
  - intros x Hx. apply in_app_or in Hx as [Hx | [<- | []]]; auto.
  - exists p. split; [apply in_or_app; left; exact Hp | exact Hpp].
Qed.

Lemma prepare_log s s' e :
  isPrepare options e = true -> undrawn s s' -> prepared options s (log e s').
Proof.
  intros He (evs & Ht & Hn). exists (evs ++ [e]). split; [|split].
  - unfold grownBy in *. cbn [log st_trace]. rewrite Ht. symmetry. apply app_assoc.
  - intros x Hx. apply in_app_or in Hx as [Hx | [<- | []]]; [auto|].
    destruct e; try reflexivity; discriminate He.
  - exists e. split; [apply in_or_app; right; left; reflexivity | exact He].
Qed.

Lemma undrawn_ordered s s' : undrawn s s' -> ordered options s s'.
Proof.
  intros (evs & Ht & Hn). exists evs. split; [exact Ht|].
  intros pre e post -> He. rewrite Hn in He; [discriminate He|].
  apply in_or_app. right. left. reflexivity.
Qed.

Lemma prepared_ordered s s' : prepared options s s' -> ordered options s s'.
Proof.
  intros (evs & Ht & Hn & _). apply undrawn_ordered. exists evs. auto.
Qed.

Lemma draw_log s s' e :
  isDraw e = true -> prepared options s s' -> ordered options s (log e s').
Proof.
  intros He (evs & Ht & Hn & p & Hp & Hpp). exists (evs ++ [e]). split.
  - unfold grownBy in *. cbn [log st_trace]. rewrite Ht. symmetry. apply app_assoc.
  - intros pre x post Hsplit Hx.
    destruct (snoc_split _ _ _ _ _ Hsplit) as [(-> & -> & ->) | (post' & -> & ->)].
    + split; [exists p; auto|]. split; [exact Hn | intros y []].
    + rewrite Hn in Hx; [discriminate Hx|].
      apply in_or_app. right. left. reflexivity.
Qed.

Lemma ordered_log s s' e :
  isDraw e = false -> ordered options s s' -> ordered options s (log e s').
Proof.
  intros He (evs & Ht & Ho). exists (evs ++ [e]). split.
  - unfold grownBy in *. cbn [log st_trace]. rewrite Ht. symmetry. apply app_assoc.
  - intros pre x post Hsplit Hx.
    destruct (snoc_split _ _ _ _ _ Hsplit) as [(-> & -> & ->) | (post' & -> & ->)].
    + congruence.
    + destruct (Ho _ _ _ eq_refl Hx) as (H1 & H2 & H3).
      split; [exact H1|]. split; [exact H2|].
      intros y Hy. apply in_app_or in Hy as [Hy | [<- | []]]; auto.
Qed.

Lemma ordered_modify s s' f : ordered options s s' -> ordered options s (modify f s').
Proof. intros H. exact H. Qed.

(** A resample makes no draw. *)
Lemma maybeResizeBitmap_prepared bmp sW sH dW dH s0 s :
  prepared options s0 s ->
  wp (maybeResizeBitmap env bmp sW sH dW dH options)
     (fun _ s' => prepared options s0 s') (fun _ s' => prepared options s0 s') s.
Proof.
  intros P0. unfold maybeResizeBitmap.
  destruct (negb (supports_createImageBitmap env)); [apply wp_ret; exact P0|].
  destruct (bmpResizeQuality options) as [|q]; [apply wp_ret; exact P0|].
  assert (Hresize :
    wp (if strictEq dW sW && strictEq dH sH then ret bmp
        else (resized <- call (ECreateImageBitmap (bmp_ref bmp) dW dH q)
                (createImageBitmap env bmp dW dH q) ;;
              call (EClose (bmp_ref bmp)) (Normal tt) ;;
              ret resized)%js)
       (fun _ s' => prepared options s0 s') (fun _ s' => prepared options s0 s') s).
  { destruct (strictEq dW sW && strictEq dH sH); [apply wp_ret; exact P0|].
    apply wp_bind, wp_call.
    destruct (createImageBitmap env bmp dW dH q);
      [|apply prepared_log; [reflexivity | exact P0]].
    apply wp_bind, wp_call, wp_ret.
    apply prepared_log; [reflexivity|]. apply prepared_log; [reflexivity | exact P0]. }
  destruct (fit options);
    [exact Hresize | apply wp_ret | apply wp_ret | exact Hresize]; exact P0.
Qed.

Lemma convertBody_ordered (s : St) :
  wp (convertBody env options)
     (fun _ s' => ordered options s s') (fun _ s' => ordered options s s') s.
Proof.
  unfold convertBody.
  apply wp_bind, wp_getItem, wp_bind, wp_call.
  assert (U1 : undrawn s (log (EDecode (item_file (st_item s))) s))
    by (apply undrawn_log; [reflexivity | apply undrawn_refl]).
  destruct (decodeImage env (item_file (st_item s))) as [decoded|v];
    [|apply undrawn_ordered; exact U1].
  set (size := computeOutputSize _ _ _).
  apply wp_bind, wp_call.
  assert (U2 : undrawn s (log (EMakeCanvas (width size) (height size))
                            (log (EDecode (item_file (st_item s))) s)))
    by (apply undrawn_log; [reflexivity | exact U1]).
  destruct (makeCanvas env (width size) (height size)) as [canvas|v];
    [|apply undrawn_ordered; exact U2].
  apply wp_bind, wp_call.
  set (s3 := log (EGetContext canvas) _).
  assert (U3 : undrawn s s3) by (apply undrawn_log; [reflexivity | exact U2]).
  clearbody s3. clear U1 U2.
  destruct (getContext env canvas) as [[ctx|]|v];
    [| apply wp_throw, undrawn_ordered; exact U3 | apply undrawn_ordered; exact U3].
  apply wp_bind.
  apply wp_mono with (Q := fun _ s' => prepared options s s')
                     (E := fun _ s' => ordered options s s').
  { destruct (String.eqb (opt_type options) "image/jpeg") eqn:Hj; apply wp_call;
      match goal with |- match ?r with _ => _ end => destruct r end;
      try apply prepared_ordered; apply prepare_log; try exact U3;
      cbn [isPrepare]; rewrite Hj; try reflexivity;
      rewrite String.eqb_refl; reflexivity. }
  2: { auto. }
  intros _ s4 P4. apply wp_bind, wp_call, wp_bind.
  apply wp_mono with (Q := fun _ s' => prepared options s s')
                     (E := fun _ s' => ordered options s s').
  { destruct (smoothing options && hasSmoothingQuality env ctx);
      [apply wp_call | apply wp_ret];
      repeat (apply prepared_log; [reflexivity|]); exact P4. }
  2: { auto. }
  intros _ s5 P5. apply wp_bind.
  apply wp_mono with (Q := fun _ s' => prepared options s s')
                     (E := fun _ s' => ordered options s s').
  { destruct decoded as [bmp dw0 dh0 | img dw0 dh0]; [|apply wp_ret; exact P5].
    apply wp_bind.
    eapply wp_mono; [apply (maybeResizeBitmap_prepared _ _ _ _ _ s s5 P5) | |].
    - intros resized s6 P6. cbv beta.
      destruct (negb (bmp_ref resized =? bmp_ref bmp)%nat); apply wp_ret; exact P6.
    - intros v s6 P6. apply prepared_ordered. exact P6. }
  2: { auto. }
  intros [[drawSource sW'] sH'] s6 P6.
  apply wp_bind, wp_call.
  match goal with
  | |- match ?r with _ => _ end =>
      assert (O7 : forall st, st = log (EDrawImage ctx
                (match drawSource with
                 | DecodedBitmap bmp _ _ => bmp_ref bmp
                 | DecodedImg img _ _ => img
                 end)
                (computeDrawRects sW' sH' (width size) (height size) (fit options)))
                s6 -> ordered options s st)
        by (intros st ->; apply draw_log; [reflexivity | exact P6]);
      destruct r
  end; [|apply O7; reflexivity].
  apply wp_bind.
  apply wp_mono with (Q := fun _ s' => ordered options s s')
                     (E := fun _ s' => ordered options s s').
  { destruct drawSource; [apply wp_call | apply wp_ret];
      try (apply ordered_log; [reflexivity|]); apply O7; reflexivity. }
  2: { auto. }
  intros _ s7 O8. apply wp_bind, wp_call.
  destruct (canvasToBlob env canvas (opt_type options) (quality options))
    as [blob|v]; [|apply ordered_log; [reflexivity | exact O8]].
  apply wp_bind, wp_getItem, wp_bind, wp_update, wp_update.
  apply ordered_modify, ordered_modify, ordered_log; [reflexivity | exact O8].
Qed.

(** X29.  In every conversion, [drawImage] is called at most once, and only
    after the canvas has been filled with the background colour (JPEG) or
    cleared (any other type). *)
Theorem convertImage_draws_after_preparing (s : St) :
  exists evs,
    st_trace (snd (convertImage env options s)) = st_trace s ++ evs /\
    orderly options evs.
Proof.
  pose proof (convertBody_ordered (started s)) as Hwp. unfold wp in Hwp.
  unfold convertImage, bind, update, tryCatch.
  change (modify (set_error None) (modify (set_status Converting) s))
    with (started s).
  destruct (convertBody env options (started s)) as [[[]|v] s1]; cbn [snd];
    destruct Hwp as (evs & Ht & Ho); exists evs; split; try exact Ho; exact Ht.
Qed.

End CallOrder.

Section FallbackElement.

Variable env : Env.
Variable options : ConversionOptions.

Lemma quiet_refl s : quiet s s.
Proof. exists []. split; [symmetry; apply app_nil_r | intros x []]. Qed.

Lemma quiet_log s s' e : isBitmapCall e = false -> quiet s s' -> quiet s (log e s').
Proof.
  intros He (evs & Ht & Hn). exists (evs ++ [e]). split.
  - unfold grownBy in *. cbn [log st_trace]. rewrite Ht. symmetry. apply app_assoc.
  - intros x Hx. apply in_app_or in Hx as [Hx | [<- | []]]; auto.
Qed.

#[local] Hint Resolve quiet_refl quiet_log : pipeline.

Lemma convertBody_fallback_quiet (img : Handle) (nw nh : number) (s : St) :
  decodeImage env (item_file (st_item s)) = Normal (DecodedImg img nw nh) ->
  wp (convertBody env options) (fun _ s' => quiet s s') (fun _ s' => quiet s s') s.
Proof.
  intros Hdec. unfold convertBody.
  apply wp_bind, wp_getItem, wp_bind, wp_call. rewrite Hdec.
  set (size := computeOutputSize _ _ _).
  apply wp_bind, wp_call.
  destruct (makeCanvas env (width size) (height size)) as [canvas|v];
    [|auto with pipeline].
  apply wp_bind, wp_call.
  destruct (getContext env canvas) as [[ctx|]|v];
    [| apply wp_throw; auto with pipeline | auto with pipeline].
  apply wp_bind.
  set (s3 := log _ (log _ (log _ s))).
  assert (I3 : quiet s s3) by (subst s3; auto with pipeline).
  clearbody s3.
  apply wp_mono with (Q := fun _ s' => quiet s s') (E := fun _ s' => quiet s s').
  { destruct (String.eqb (opt_type options) "image/jpeg"); apply wp_call;
      match goal with |- match ?r with _ => _ end => destruct r end;
      auto with pipeline. }
  2: { auto. }
  intros _ s4 I4. apply wp_bind, wp_call, wp_bind.
  apply wp_mono with (Q := fun _ s' => quiet s s') (E := fun _ s' => quiet s s').
  { destruct (smoothing options && hasSmoothingQuality env ctx);
      [apply wp_call | apply wp_ret]; auto with pipeline. }
  2: { auto. }
  intros _ s5 I5. apply wp_bind, wp_ret, wp_bind, wp_call.
  match goal with |- match ?r with _ => _ end => destruct r end;
    [|auto with pipeline].
  apply wp_bind, wp_ret, wp_bind, wp_call.
  match goal with |- match ?r with _ => _ end => destruct r end;
    [|auto 6 with pipeline].
  apply wp_bind, wp_getItem, wp_bind, wp_update, wp_update.
  assert (Q : forall f st, quiet s st -> quiet s (modify f st))
    by (intros f st H; exact H).
  auto 8 with pipeline.
Qed.

(** X30.  When the decode yields a fallback element, the conversion neither
    resamples nor releases any bitmap. *)
Theorem fallback_element_needs_no_release (img : Handle) (nw nh : number) (s : St) :
  decodeImage env (item_file (st_item s)) = Normal (DecodedImg img nw nh) ->
  exists evs,
    st_trace (snd (convertImage env options s)) = st_trace s ++ evs /\
    forall e, In e evs -> isBitmapCall e = false.
Proof.
  intros Hdec.
  pose proof (convertBody_fallback_quiet img nw nh (started s) Hdec) as Hwp.
  unfold wp in Hwp.
  unfold convertImage, bind, update, tryCatch.
  change (modify (set_error None) (modify (set_status Converting) s))
    with (started s).
  destruct (convertBody env options (started s)) as [[[]|v] s1]; cbn [snd];
    destruct Hwp as (evs & Ht & Hq); exists evs; split; try exact Hq; exact Ht.
Qed.

End FallbackElement.

Lemma fallback_element_needs_no_release_example :
  decodeImage (withDecode (Normal (DecodedImg 5%nat 100 100)) okEnv)
    (item_file (st_item (initial readyItem)))
  = Normal (DecodedImg 5%nat 100 100) /\
  exists evs,
    st_trace (snd (convertImage (withDecode (Normal (DecodedImg 5%nat 100 100)) okEnv)
                     (withResample Stretch (Resize ResizeHigh) baseOptions)
                     (initial readyItem)))
    = st_trace (initial readyItem) ++ evs /\
    forall e, In e evs -> isBitmapCall e = false.
Proof.
  split; [reflexivity|].
  exact (fallback_element_needs_no_release
           (withDecode (Normal (DecodedImg 5%nat 100 100)) okEnv)
           (withResample Stretch (Resize ResizeHigh) baseOptions) 5%nat 100 100
           (initial readyItem) eq_refl).
Defined.

(** * Arithmetic in doubles *)

(** ** Rounding to binary64 *)

Section Binary64.

Lemma eps_pow : Ieee.eps == 2 ^ (-53).
Proof. vm_compute. reflexivity. Qed.

Lemma pow2_pos (k : Z) : 0 < 2 ^ k.
Proof. apply Qpower_0_lt. reflexivity. Qed.

Lemma pow2_Z (k : Z) : (0 <= k)%Z -> 2 ^ k == inject_Z (2 ^ k).
Proof. intros H. rewrite (Zpower_Qpower 2 k H). reflexivity. Qed.

Lemma pow2_add (i j : Z) : 2 ^ (i + j) == 2 ^ i * 2 ^ j.
Proof. apply Qpower_plus. intros H. discriminate H. Qed.

Lemma Zfrac_le (a b c d : Z) :
  (0 < b)%Z -> (0 < d)%Z -> (a * d <= c * b)%Z ->
  inject_Z a / inject_Z b <= inject_Z c / inject_Z d.
Proof.
  intros Hb Hd H.
  assert (Qb : 0 < inject_Z b)
    by (change 0 with (inject_Z 0); rewrite <- Zlt_Qlt; lia).
  assert (Qd : 0 < inject_Z d)
    by (change 0 with (inject_Z 0); rewrite <- Zlt_Qlt; lia).
  assert (Q : inject_Z a * inject_Z d <= inject_Z c * inject_Z b)
    by (rewrite <- !inject_Z_mult, <- Zle_Qle; exact H).
  apply Qle_shift_div_l; [exact Qd|].
  assert (E : inject_Z a / inject_Z b * inject_Z d
              == inject_Z a * inject_Z d / inject_Z b) by (field; lra).
  rewrite E. apply Qle_shift_div_r; assumption.
Qed.

Lemma Zfrac_lt (a b c d : Z) :
  (0 < b)%Z -> (0 < d)%Z -> (a * d < c * b)%Z ->
  inject_Z a / inject_Z b < inject_Z c / inject_Z d.
Proof.
  intros Hb Hd H.
  assert (Qb : 0 < inject_Z b)
    by (change 0 with (inject_Z 0); rewrite <- Zlt_Qlt; lia).
  assert (Qd : 0 < inject_Z d)
    by (change 0 with (inject_Z 0); rewrite <- Zlt_Qlt; lia).
  assert (Q : inject_Z a * inject_Z d < inject_Z c * inject_Z b)
    by (rewrite <- !inject_Z_mult, <- Zlt_Qlt; exact H).
  apply Qlt_shift_div_l; [exact Qd|].
  assert (E : inject_Z a / inject_Z b * inject_Z d
              == inject_Z a * inject_Z d / inject_Z b) by (field; lra).
  rewrite E. apply Qlt_shift_div_r; assumption.
Qed.

Lemma nearestEven_near (m : Q) :
  m - (1 # 2) <= inject_Z (Ieee.nearestEven m) <= m + (1 # 2).
Proof.
  unfold Ieee.nearestEven.
  pose proof (Qfloor_le m) as Hlo. pose proof (Qlt_floor m) as Hhi.
  rewrite inject_Z_plus in Hhi. change (inject_Z 1) with 1 in Hhi.
  destruct (Qcompare_spec (m - inject_Z (Qfloor m)) (1 # 2)) as [E | L | G].
  - destruct (Z.even (Qfloor m)).
    + lra.
    + rewrite inject_Z_plus. change (inject_Z 1) with 1. lra.
  - lra.
  - rewrite inject_Z_plus. change (inject_Z 1) with 1. lra.
Qed.

Lemma nearestEven_int (m : Q) (k : Z) :
  m == inject_Z k -> Ieee.nearestEven m = k.
Proof.
  intros E. unfold Ieee.nearestEven.
  assert (F : Qfloor m = k) by (rewrite (Qfloor_comp _ _ E); apply Qfloor_Z).
  rewrite F.
  destruct (Qcompare_spec (m - inject_Z k) (1 # 2)) as [H | H | H];
    [lra | reflexivity | lra].
Qed.

(** The exponent is that of the binade of [x]. *)
Lemma exponent_spec (x : Q) :
  0 < x -> 2 ^ Ieee.exponent x <= x < 2 ^ (Ieee.exponent x + 1).
Proof.
  intros Hx. destruct x as [n d]. unfold Ieee.exponent. cbn [Qnum Qden].
  assert (Hn : (0 < n)%Z).
  { unfold Qlt in Hx. cbn in Hx. lia. }
  set (a := Z.log2 n). set (b := Z.log2 (Z.pos d)).
  destruct (Z.log2_spec n Hn) as [Ha1 Ha2]. fold a in Ha1, Ha2.
  destruct (Z.log2_spec (Z.pos d) eq_refl) as [Hb1 Hb2]. fold b in Hb1, Hb2.
  assert (Ha0 : (0 <= a)%Z) by apply Z.log2_nonneg.
  assert (Hb0 : (0 <= b)%Z) by apply Z.log2_nonneg.
  assert (Hq : n # d == inject_Z n / inject_Z (Z.pos d)) by apply Qmake_Qdiv.
  assert (Za : (0 < 2 ^ a)%Z) by (apply Z.pow_pos_nonneg; lia).
  assert (Zb : (0 < 2 ^ b)%Z) by (apply Z.pow_pos_nonneg; lia).
  assert (Lo : 2 ^ (a - b - 1) <= n # d).
  { replace (a - b - 1)%Z with (a - (b + 1))%Z by lia.
    rewrite Qpower_minus by (intros H; discriminate H).
    rewrite Hq, (pow2_Z a), (pow2_Z (b + 1)) by lia.
    apply Zfrac_le; [apply Z.pow_pos_nonneg; lia | lia |].
    rewrite Z.pow_succ_r in Hb2 by lia. unfold Z.succ in *.
    rewrite Z.pow_add_r, Z.pow_1_r by lia. nia. }
  assert (Hi : n # d < 2 ^ (a - b + 1)).
  { replace (a - b + 1)%Z with ((a + 1) - b)%Z by lia.
    rewrite Qpower_minus by (intros H; discriminate H).
    rewrite Hq, (pow2_Z (a + 1)), (pow2_Z b) by lia.
    apply Zfrac_lt; [lia | lia |].
    unfold Z.succ in *. nia. }
  destruct (Qle_bool (2 ^ (a - b)) (n # d)) eqn:Hc.
  - apply Qle_bool_iff in Hc. split; assumption.
  - assert (Hlt : n # d < 2 ^ (a - b)).
    { apply Qnot_le_lt. intros H. apply Qle_bool_iff in H. congruence. }
    split; [exact Lo|].
    replace (a - b - 1 + 1)%Z with (a - b)%Z by lia. exact Hlt.
Qed.

Lemma double_pos_eq (x : Q) : 0 < x -> Ieee.double x = Ieee.nearest x.
Proof.
  intros Hx. unfold Ieee.double.
  destruct (Qcompare_spec x 0) as [H | H | H]; [lra | lra | reflexivity].
Qed.

(** Rounding to a double changes a positive number by at most the
    fraction [2^-53] of it. *)
Lemma double_near (x : Q) :
  0 < x -> x * (1 - Ieee.eps) <= Ieee.double x <= x * (1 + Ieee.eps).
Proof.
  intros Hx. rewrite (double_pos_eq x Hx). unfold Ieee.nearest.
  destruct (exponent_spec x Hx) as [He _].
  set (e := Ieee.exponent x) in *.
  pose proof (nearestEven_near (x * 2 ^ (52 - e))) as Hn.
  set (n := inject_Z (Ieee.nearestEven (x * 2 ^ (52 - e)))) in *. clearbody n.
  pose proof (pow2_pos (e - 52)) as Pp.
  assert (E1 : 2 ^ (52 - e) * 2 ^ (e - 52) == 1).
  { rewrite <- pow2_add. replace (52 - e + (e - 52))%Z with 0%Z by lia.
    reflexivity. }
  assert (E2 : 2 ^ (e - 52) == 2 ^ e * (2 * Ieee.eps)).
  { replace (e - 52)%Z with (e + (-52))%Z by lia. rewrite pow2_add.
    apply Qmult_comp; [reflexivity | vm_compute; reflexivity]. }
  set (p := 2 ^ (e - 52)) in *. set (m := 2 ^ (52 - e)) in *.
  set (t := 2 ^ e) in *. clearbody p m t.
  assert (Hp : p * (1 # 2) <= x * Ieee.eps).
  { rewrite E2. unfold Ieee.eps in *. nra. }
  assert (Hxm : x * m * p == x) by (rewrite <- Qmult_assoc, E1; ring).
  destruct Hn as [Hn1 Hn2].
  assert (H1 : (x * m - (1 # 2)) * p <= n * p)
    by (apply Qmult_le_compat_r; lra).
  assert (H2 : n * p <= (x * m + (1 # 2)) * p)
    by (apply Qmult_le_compat_r; lra).
  split; nra.
Qed.

Lemma double_pos (x : Q) : 0 < x -> 0 < Ieee.double x.
Proof.
  intros Hx. destruct (double_near x Hx) as [H _].
  assert (0 < x * (1 - Ieee.eps))
    by (apply Qmult_lt_0_compat; [exact Hx | reflexivity]).
  lra.
Qed.

(** A number whose significand fits into 53 bits is a double. *)
Lemma double_exact (x : Q) (i : Z) :
  0 < x -> x * 2 ^ (52 - Ieee.exponent x) == inject_Z i -> Ieee.double x == x.
Proof.
  intros Hx Hi. rewrite (double_pos_eq x Hx). unfold Ieee.nearest.
  rewrite (nearestEven_int _ _ Hi), <- Hi, <- Qmult_assoc, <- pow2_add.
  replace (52 - Ieee.exponent x + (Ieee.exponent x - 52))%Z with 0%Z by lia.
  change (2 ^ 0) with 1. ring.
Qed.

Lemma exponent_lt (x : Q) (k : Z) :
  0 < x -> x < 2 ^ k -> (Ieee.exponent x < k)%Z.
Proof.
  intros Hx Hk. destruct (exponent_spec x Hx) as [He _].
  apply (Qpower_lt_compat_l_inv 2); [lra | reflexivity].
Qed.

(** Whole numbers below [2^53], and their halves, are doubles. *)
Lemma double_int (x : Q) (k : Z) :
  x == inject_Z k -> (0 <= k < 2 ^ 53)%Z -> Ieee.double x == x.
Proof.
  intros E [Hlo Hhi].
  destruct (Z.eq_dec k 0%Z) as [-> | Hk].
  - unfold Ieee.double. change (inject_Z 0) with 0 in E.
    destruct (Qcompare_spec x 0) as [H | H | H];
      [symmetry; exact H | lra | lra].
  - assert (Hx : 0 < x).
    { rewrite E. change 0 with (inject_Z 0). rewrite <- Zlt_Qlt. lia. }
    assert (He : (Ieee.exponent x < 53)%Z).
    { apply exponent_lt; [exact Hx|]. rewrite E, (pow2_Z 53) by lia.
      rewrite <- Zlt_Qlt. exact Hhi. }
    apply (double_exact x (k * 2 ^ (52 - Ieee.exponent x)) Hx).
    rewrite inject_Z_mult.
    apply Qmult_comp; [exact E | apply pow2_Z; lia].
Qed.

Lemma double_half (x : Q) (k : Z) :
  x == inject_Z k / 2 -> (0 <= k < 2 ^ 53)%Z -> Ieee.double x == x.
Proof.
  intros E [Hlo Hhi].
  destruct (Z.eq_dec k 0%Z) as [-> | Hk].
  - assert (E0 : x == 0) by (rewrite E; reflexivity).
    unfold Ieee.double. destruct (Qcompare_spec x 0) as [H | H | H];
      [symmetry; exact H | lra | lra].
  - assert (Hk0 : 0 < inject_Z k).
    { change 0 with (inject_Z 0). rewrite <- Zlt_Qlt. lia. }
    assert (Hx : 0 < x) by (rewrite E; apply Qlt_shift_div_l; lra).
    assert (He : (Ieee.exponent x < 52)%Z).
    { apply exponent_lt; [exact Hx|]. rewrite E.
      apply Qlt_shift_div_r; [reflexivity|].
      assert (P : 2 ^ 52 * 2 == inject_Z (2 ^ 53)) by reflexivity.
      rewrite P, <- Zlt_Qlt. exact Hhi. }
    apply (double_exact x (k * 2 ^ (51 - Ieee.exponent x)) Hx).
    replace (52 - Ieee.exponent x)%Z
      with (1 + (51 - Ieee.exponent x))%Z by lia.
    rewrite inject_Z_mult, pow2_add, <- (pow2_Z (51 - Ieee.exponent x)) by lia.
    change (2 ^ 1) with 2.
    set (p := 2 ^ (51 - Ieee.exponent x)). clearbody p.
    assert (X : x * 2 == inject_Z k) by (rewrite E; field).
    rewrite <- X. ring.
Qed.

(** On whole numbers up to 100, [double] gives for [a / b] and for
    [a * (b / 100)] the values that the binary64 arithmetic of the kernel
    gives. *)
Lemma double_agrees_with_binary64 : Ieee.agreesUpTo 100 = true.
Proof. vm_compute. reflexivity. Qed.

Lemma double_agrees_on_mixed_sizes :
  forallb (fun p => Ieee.agrees (fst p) (snd p))
    [(250, 201); (10, 29); (29, 10); (2, 75); (1, 98); (4000, 100);
     (1920, 1080); (3840, 2160); (4032, 3024); (65535, 4097);
     (4294967295, 4294967294)]%Z
  = true.
Proof. vm_compute. reflexivity. Qed.

(** Quotients and products of positive numbers. *)
Lemma div_near (a b : Q) :
  0 < a -> 0 < b ->
  0 < Ieee.div a b /\
  a * (1 - Ieee.eps) <= Ieee.div a b * b <= a * (1 + Ieee.eps).
Proof.
  intros Ha Hb. unfold Ieee.div.
  assert (Hq : 0 < a / b) by (apply Qlt_shift_div_l; lra).
  pose proof (double_pos _ Hq) as Hp.
  destruct (double_near _ Hq) as [H1 H2].
  assert (E : a / b * b == a) by (field; lra).
  set (r := Ieee.double (a / b)) in *. set (q := a / b) in *. clearbody r q.
  split; [exact Hp|]. unfold Ieee.eps in *.
  assert (L : q * (1 - (1 # 9007199254740992)) * b <= r * b)
    by (apply Qmult_le_compat_r; lra).
  assert (U : r * b <= q * (1 + (1 # 9007199254740992)) * b)
    by (apply Qmult_le_compat_r; lra).
  split; nra.
Qed.

Lemma mul_near (a b : Q) :
  0 < a -> 0 < b ->
  0 < Ieee.mul a b /\
  a * b * (1 - Ieee.eps) <= Ieee.mul a b <= a * b * (1 + Ieee.eps).
Proof.
  intros Ha Hb. unfold Ieee.mul.
  assert (Hq : 0 < a * b) by (apply Qmult_lt_0_compat; assumption).
  split; [apply double_pos; exact Hq | apply double_near; exact Hq].
Qed.

End Binary64.

(** ** Rounded quotients and products of pixel sizes *)

Section RoundedGeometry.

Lemma Math_round_below_half (x : number) (n : Z) :
  x < inject_Z n + (1 # 2) -> Math_round x <= inject_Z n.
Proof.
  intros Hx. unfold Math_round. rewrite <- Zle_Qle.
  pose proof (Qfloor_le (x + (1 # 2))) as Hf.
  assert (H : inject_Z (Qfloor (x + (1 # 2))) < inject_Z (n + 1)).
  { rewrite inject_Z_plus. change (inject_Z 1) with 1. lra. }
  rewrite <- Zlt_Qlt in H. lia.
Qed.

Lemma Math_round_zero (x : number) : 0 <= x < 1 # 2 -> Math_round x == 0.
Proof.
  intros [Hlo Hhi].
  pose proof (Math_round_nonneg x Hlo) as H0.
  pose proof (Math_round_below_half x 0) as H1.
  change (inject_Z 0) with 0 in H1. lra.
Qed.

Lemma Math_round_shift (x : number) : Math_round (x + 1) == Math_round x + 1.
Proof.
  unfold Math_round.
  pose proof (Qfloor_le (x + (1 # 2))) as L. pose proof (Qlt_floor (x + (1 # 2))) as U.
  pose proof (Qfloor_le (x + 1 + (1 # 2))) as L'.
  pose proof (Qlt_floor (x + 1 + (1 # 2))) as U'.
  rewrite inject_Z_plus in U, U'. change (inject_Z 1) with 1 in U, U'.
  set (f := Qfloor (x + (1 # 2))) in *. set (g := Qfloor (x + 1 + (1 # 2))) in *.
  assert (H1 : inject_Z g < inject_Z (f + 2)).
  { rewrite inject_Z_plus. change (inject_Z 2) with 2. lra. }
  assert (H2 : inject_Z f < inject_Z g).
  { lra. }
  rewrite <- Zlt_Qlt in H1, H2.
  assert (E : g = (f + 1)%Z) by lia.
  rewrite E, inject_Z_plus. reflexivity.
Qed.

(** Numbers at most one apart round to integers at most one apart. *)
Lemma Math_round_within (x y : number) :
  x - 1 <= y <= x + 1 ->
  Math_round x - 1 <= Math_round y <= Math_round x + 1.
Proof.
  intros [Hlo Hhi]. split.
  - pose proof (Math_round_mono x (y + 1)) as M.
    rewrite Math_round_shift in M. lra.
  - pose proof (Math_round_mono y (x + 1)) as M.
    rewrite Math_round_shift in M. lra.
Qed.

Lemma Math_max_within (a b : number) :
  a - 1 <= b <= a + 1 ->
  Math_max 1 a - 1 <= Math_max 1 b <= Math_max 1 a + 1.
Proof.
  intros H.
  destruct (Math_max_spec 1 a) as (A1 & A2 & A3).
  destruct (Math_max_spec 1 b) as (B1 & B2 & B3).
  destruct A3, B3; lra.
Qed.

(** [h * (a / b)] in doubles is [h * a / b] up to three times the fraction
    [2^-53]. *)
Lemma mul_div_near (h a b : Q) :
  0 < h -> 0 < a -> 0 < b ->
  let y := Ieee.mul h (Ieee.div a b) in
  0 < y /\
  h * a * (1 - 3 * Ieee.eps) <= y * b <= h * a * (1 + 3 * Ieee.eps).
Proof.
  intros Hh Ha Hb y.
  destruct (div_near a b Ha Hb) as (Hr & R1 & R2).
  destruct (mul_near h (Ieee.div a b) Hh Hr) as (Hy & Y1 & Y2).
  fold y in Hy, Y1, Y2.
  set (r := Ieee.div a b) in *. clearbody y r.
  split; [exact Hy|]. unfold Ieee.eps in *.
  assert (L : h * r * (1 - (1 # 9007199254740992)) * b <= y * b)
    by (apply Qmult_le_compat_r; lra).
  assert (U : y * b <= h * r * (1 + (1 # 9007199254740992)) * b)
    by (apply Qmult_le_compat_r; lra).
  assert (L' : h * (a * (1 - (1 # 9007199254740992))) <= h * (r * b))
    by (apply Qmult_le_l; lra).
  assert (U' : h * (r * b) <= h * (a * (1 + (1 # 9007199254740992))))
    by (apply Qmult_le_l; lra).
  assert (P : 0 < h * a) by (apply Qmult_lt_0_compat; assumption).
  set (ha := h * a) in *. set (hrb := h * (r * b)) in *.
  assert (E1 : h * r * (1 - (1 # 9007199254740992)) * b
               == hrb * (1 - (1 # 9007199254740992))) by (unfold hrb; ring).
  assert (E2 : h * r * (1 + (1 # 9007199254740992)) * b
               == hrb * (1 + (1 # 9007199254740992))) by (unfold hrb; ring).
  assert (E3 : h * (a * (1 - (1 # 9007199254740992)))
               == ha * (1 - (1 # 9007199254740992))) by (unfold ha; ring).
  assert (E4 : h * (a * (1 + (1 # 9007199254740992)))
               == ha * (1 + (1 # 9007199254740992))) by (unfold ha; ring).
  rewrite E1 in L. rewrite E2 in U. rewrite E3 in L'. rewrite E4 in U'.
  set (yb := y * b) in *. clearbody ha hrb yb.
  split; lra.
Qed.

(** [w / (a / b)] in doubles is [w * b / a] up to three times the fraction
    [2^-53]. *)
Lemma div_div_near (w a b : Q) :
  0 < w -> 0 < a -> 0 < b ->
  let y := Ieee.div w (Ieee.div a b) in
  0 < y /\
  w * b * (1 - 3 * Ieee.eps) <= y * a <= w * b * (1 + 3 * Ieee.eps).
Proof.
  intros Hw Ha Hb y.
  destruct (div_near a b Ha Hb) as (Hr & R1 & R2).
  destruct (div_near w (Ieee.div a b) Hw Hr) as (Hy & Y1 & Y2).
  fold y in Hy, Y1, Y2.
  set (r := Ieee.div a b) in *. clearbody y r.
  split; [exact Hy|]. unfold Ieee.eps in *.
  (* y r b is between w b (1 - eps) and w b (1 + eps),
     and between y a (1 - eps) and y a (1 + eps) *)
  assert (A1 : w * (1 - (1 # 9007199254740992)) * b <= y * r * b)
    by (apply Qmult_le_compat_r; lra).
  assert (A2 : y * r * b <= w * (1 + (1 # 9007199254740992)) * b)
    by (apply Qmult_le_compat_r; lra).
  assert (B1 : y * (a * (1 - (1 # 9007199254740992))) <= y * (r * b))
    by (apply Qmult_le_l; lra).
  assert (B2 : y * (r * b) <= y * (a * (1 + (1 # 9007199254740992))))
    by (apply Qmult_le_l; lra).
  assert (P : 0 < w * b) by (apply Qmult_lt_0_compat; assumption).
  assert (P' : 0 < y * a) by (apply Qmult_lt_0_compat; assumption).
  set (wb := w * b) in *. set (ya := y * a) in *. set (yrb := y * r * b) in *.
  assert (E1 : w * (1 - (1 # 9007199254740992)) * b
               == wb * (1 - (1 # 9007199254740992))) by (unfold wb; ring).
  assert (E2 : w * (1 + (1 # 9007199254740992)) * b
               == wb * (1 + (1 # 9007199254740992))) by (unfold wb; ring).
  assert (E3 : y * (a * (1 - (1 # 9007199254740992)))
               == ya * (1 - (1 # 9007199254740992))) by (unfold ya; ring).
  assert (E4 : y * (a * (1 + (1 # 9007199254740992)))
               == ya * (1 + (1 # 9007199254740992))) by (unfold ya; ring).
  assert (E5 : y * (r * b) == yrb) by (unfold yrb; ring).
  rewrite E1 in A1. rewrite E2 in A2. rewrite E3, E5 in B1. rewrite E4, E5 in B2.
  clearbody wb ya yrb.
  split; lra.
Qed.

(** Dividing [a] by a ratio that is at least the double of [a / b] gives
    at most [b], up to less than half a pixel. *)
Lemma div_back (a b r : Q) :
  0 < a -> 0 < b <= 4294967296 -> Ieee.div a b <= r ->
  0 < Ieee.div a r < b + (1 # 2).
Proof.
  intros Ha [Hb Hbb] Hr.
  destruct (div_near a b Ha Hb) as (Hq & Q1 & _).
  assert (Hr0 : 0 < r) by lra.
  destruct (div_near a r Ha Hr0) as (Hy & _ & Y2).
  set (q := Ieee.div a b) in *. set (y := Ieee.div a r) in *. clearbody q y.
  split; [exact Hy|]. unfold Ieee.eps in *.
  (* y q b <= y r b <= a (1 + eps) b  and  y a (1 - eps) <= y q b *)
  assert (A1 : y * q <= y * r) by (apply Qmult_le_l; lra).
  assert (A2 : y * q * b <= a * (1 + (1 # 9007199254740992)) * b)
    by (apply Qmult_le_compat_r; lra).
  assert (A3 : y * (a * (1 - (1 # 9007199254740992))) <= y * (q * b))
    by (apply Qmult_le_l; lra).
  assert (A4 : a * (y * (1 - (1 # 9007199254740992)))
               <= a * ((1 + (1 # 9007199254740992)) * b)).
  { assert (E1 : a * (y * (1 - (1 # 9007199254740992)))
                 == y * (a * (1 - (1 # 9007199254740992)))) by ring.
    assert (E2 : a * ((1 + (1 # 9007199254740992)) * b)
                 == a * (1 + (1 # 9007199254740992)) * b) by ring.
    assert (E3 : y * (q * b) == y * q * b) by ring.
    rewrite E1, E2. rewrite E3 in A3. lra. }
  apply Qmult_le_l in A4; [|exact Ha]. lra.
Qed.

(** Multiplying [b] by a ratio that is at most the double of [a / b]
    gives at most [a], up to less than half a pixel. *)
Lemma mul_back (a b r : Q) :
  0 < a <= 4294967296 -> 0 < b -> 0 < r <= Ieee.div a b ->
  0 < Ieee.mul b r < a + (1 # 2).
Proof.
  intros [Ha Haa] Hb [Hr0 Hr].
  destruct (div_near a b Ha Hb) as (Hq & _ & Q2).
  destruct (mul_near b r Hb Hr0) as (Hy & _ & Y2).
  set (q := Ieee.div a b) in *. set (y := Ieee.mul b r) in *. clearbody q y.
  split; [exact Hy|]. unfold Ieee.eps in *.
  assert (A1 : b * r <= b * q) by (apply Qmult_le_l; lra).
  assert (E : b * q == q * b) by ring.
  set (br := b * r) in *. set (qb := q * b) in *. clearbody br qb.
  assert (A2 : br * (1 + (1 # 9007199254740992))
               <= a * (1 + (1 # 9007199254740992)) * (1 + (1 # 9007199254740992))).
  { apply Qmult_le_compat_r; lra. }
  lra.
Qed.

(** Whole pixel sizes below [2^32] are centred without rounding. *)
Lemma centre_exact (t k : Z) :
  (0 <= k <= t)%Z -> (t < 4294967296)%Z ->
  Ieee.div (Ieee.sub (inject_Z t) (inject_Z k)) 2
  == (inject_Z t - inject_Z k) / 2.
Proof.
  intros Hk Ht. unfold Ieee.div, Ieee.sub.
  assert (E : inject_Z t - inject_Z k == inject_Z (t - k)).
  { unfold Z.sub. rewrite inject_Z_plus, inject_Z_opp. reflexivity. }
  assert (B : (0 <= t - k < 2 ^ 53)%Z).
  { change (2 ^ 53)%Z with 9007199254740992%Z. lia. }
  pose proof (double_int _ _ E B) as D1.
  assert (E2 : Ieee.double (inject_Z t - inject_Z k) / 2 == inject_Z (t - k) / 2).
  { rewrite D1, E. reflexivity. }
  rewrite (double_half _ _ E2 B), E2, E. reflexivity.
Qed.

End RoundedGeometry.

(** ** Dimension resolver in doubles *)

Section DoubleResolver.

Variables sourceW sourceH : Z.
Hypothesis sourceW_range : (0 < sourceW < 4294967296)%Z.
Hypothesis sourceH_range : (0 < sourceH < 4294967296)%Z.

Lemma source_range :
  1 <= inject_Z sourceW <= 4294967296 /\ 1 <= inject_Z sourceH <= 4294967296.
Proof.
  change 1 with (inject_Z 1). change 4294967296 with (inject_Z 4294967296).
  rewrite <- !Zle_Qle. lia.
Qed.

(** A source size scaled by a clamped percentage, in doubles, is within one
    of the exact product. *)
Lemma scale_close (a c : Q) :
  1 <= a <= 4294967296 -> 1 <= c <= 1000 ->
  a * c / 100 - 1 <= Ieee.mul a (Ieee.div c 100) <= a * c / 100 + 1.
Proof.
  intros [Ha Haa] [Hc Hcc].
  destruct (mul_div_near a c 100) as (Hy & Y1 & Y2); [lra | lra | lra |].
  set (y := Ieee.mul a (Ieee.div c 100)) in *. clearbody y.
  assert (E : a * c / 100 == a * c * (1 # 100)) by field.
  rewrite E. unfold Ieee.eps in *.
  assert (P : 0 <= a * c) by (apply Qmult_le_0_compat; lra).
  assert (B : a * c <= 4294967296 * 1000).
  { apply Qle_trans with (a * 1000).
    - apply Qmult_le_l; lra.
    - apply Qmult_le_compat_r; lra. }
  set (ac := a * c) in *. clearbody ac.
  split; lra.
Qed.

(** C7.  In scale mode, for positive integer source dimensions below 2^32
    and any requested percentage (a double), the target width is
    [max(1, round(sourceW * s))] in doubles, where [s] is the double nearest
    to [clamp(scalePct, 1, 1000) / 100], and the target height is the same
    with [sourceH]; the clamped percentage lies in [[1, 1000]], is [1] below
    the range, [1000] above it and the request itself inside it; and each
    target dimension is within one pixel of the exactly computed
    [max(1, round(source * clamp(scalePct, 1, 1000) / 100))]. *)
Theorem scale_mode_size (options : ConversionOptions) :
  sizeMode options = Scale -> Ieee.isDouble (scalePct options) ->
  let c := clamp (scalePct options) 1 1000 in
  let s := Ieee.div c 100 in
  let out :=
    Ieee.computeOutputSize (inject_Z sourceW) (inject_Z sourceH) options in
  (width out == Math_max 1 (Math_round (Ieee.mul (inject_Z sourceW) s)) /\
   height out == Math_max 1 (Math_round (Ieee.mul (inject_Z sourceH) s))) /\
  (1 <= c <= 1000 /\
   (scalePct options < 1 -> c == 1) /\
   (1000 < scalePct options -> c == 1000) /\
   (1 <= scalePct options <= 1000 -> c == scalePct options)) /\
  (Math_max 1 (Math_round (inject_Z sourceW * c / 100)) - 1 <= width out
   <= Math_max 1 (Math_round (inject_Z sourceW * c / 100)) + 1) /\
  (Math_max 1 (Math_round (inject_Z sourceH * c / 100)) - 1 <= height out
   <= Math_max 1 (Math_round (inject_Z sourceH * c / 100)) + 1).
Proof.
  intros Hmode _ c s out.
  assert (Hb : 1 <= 1000) by lra.
  destruct (clamp_spec (scalePct options) 1 1000 Hb) as (H1 & H2 & H3 & H4).
  fold c in H1, H2, H3, H4.
  destruct source_range as [Rw Rh].
  subst out. unfold Ieee.computeOutputSize. rewrite Hmode. cbn [width height].
  fold c. fold s.
  split; [split; reflexivity|]. split; [tauto|].
  split; apply Math_max_within, Math_round_within, scale_close; assumption.
Qed.

(** With only a width or only a height requested, the other side in
    doubles is the exact quotient up to three times the fraction [2^-53]. *)
Lemma width_only_close (w : Q) :
  0 < w ->
  let y := Ieee.div w (Ieee.div (inject_Z sourceW) (inject_Z sourceH)) in
  let q := w * inject_Z sourceH / inject_Z sourceW in
  0 < y /\ q * (1 - 3 * Ieee.eps) <= y <= q * (1 + 3 * Ieee.eps).
Proof.
  intros Hw y q. destruct source_range as [Rw Rh].
  destruct (div_div_near w (inject_Z sourceW) (inject_Z sourceH))
    as (Hy & Y1 & Y2); [lra | lra | lra |].
  fold y in Hy, Y1, Y2. split; [exact Hy|].
  assert (E : q * inject_Z sourceW == w * inject_Z sourceH)
    by (unfold q; field; lra).
  rewrite <- E in Y1, Y2. clearbody y q. unfold Ieee.eps in *.
  split.
  - apply (Qmult_le_r _ _ (inject_Z sourceW)); [lra|].
    assert (X : q * (1 - 3 * (1 # 9007199254740992)) * inject_Z sourceW
                == q * inject_Z sourceW * (1 - 3 * (1 # 9007199254740992)))
      by ring.
    rewrite X. exact Y1.
  - apply (Qmult_le_r _ _ (inject_Z sourceW)); [lra|].
    assert (X : q * (1 + 3 * (1 # 9007199254740992)) * inject_Z sourceW
                == q * inject_Z sourceW * (1 + 3 * (1 # 9007199254740992)))
      by ring.
    rewrite X. exact Y2.
Qed.

Lemma height_only_close (h : Q) :
  0 < h ->
  let y := Ieee.mul h (Ieee.div (inject_Z sourceW) (inject_Z sourceH)) in
  let q := h * inject_Z sourceW / inject_Z sourceH in
  0 < y /\ q * (1 - 3 * Ieee.eps) <= y <= q * (1 + 3 * Ieee.eps).
Proof.
  intros Hh y q. destruct source_range as [Rw Rh].
  destruct (mul_div_near h (inject_Z sourceW) (inject_Z sourceH))
    as (Hy & Y1 & Y2); [lra | lra | lra |].
  fold y in Hy, Y1, Y2. split; [exact Hy|].
  assert (E : q * inject_Z sourceH == h * inject_Z sourceW)
    by (unfold q; field; lra).
  rewrite <- E in Y1, Y2. clearbody y q. unfold Ieee.eps in *.
  split.
  - apply (Qmult_le_r _ _ (inject_Z sourceH)); [lra|].
    assert (X : q * (1 - 3 * (1 # 9007199254740992)) * inject_Z sourceH
                == q * inject_Z sourceH * (1 - 3 * (1 # 9007199254740992)))
      by ring.
    rewrite X. exact Y1.
  - apply (Qmult_le_r _ _ (inject_Z sourceH)); [lra|].
    assert (X : q * (1 + 3 * (1 # 9007199254740992)) * inject_Z sourceH
                == q * inject_Z sourceH * (1 + 3 * (1 # 9007199254740992)))
      by ring.
    rewrite X. exact Y2.
Qed.

(** What rounding to a pixel makes of a quotient known up to three times
    [2^-53]. *)
Lemma rounded_close (y q : Q) :
  0 < y -> 0 <= q ->
  q * (1 - 3 * Ieee.eps) <= y <= q * (1 + 3 * Ieee.eps) ->
  (q * (1 - Ieee.slack) - (1 # 2) <= Math_round y
   <= q * (1 + Ieee.slack) + (1 # 2)) /\
  ((1 # 2) * (1 + Ieee.slack) <= q -> 1 <= Math_round y) /\
  (q * (1 + Ieee.slack) < 1 # 2 -> Math_round y == 0).
Proof.
  intros Hy Hq [Y1 Y2]. pose proof (Math_round_near y) as [N1 N2].
  unfold Ieee.slack, Ieee.eps in *. split; [split; lra|]. split.
  - intros H. apply Math_round_ge_1. lra.
  - intros H. apply Math_round_zero. lra.
Qed.

(** X10.  Pixels mode with only a width (a double) of at most 2^32
    requested, for a
    positive integer source size below 2^32: the width is the request; the
    height is
    [round(w / (sourceW / sourceH))] in doubles, which is the exact quotient
    [w * sourceH / sourceW] up to the fraction [2^-51] and half a pixel; it
    is at least one pixel when [sourceW * (1 + 2^-51) <= 2 * w * sourceH],
    and zero when [2 * w * sourceH * (1 + 2^-51) < sourceW]. *)
Theorem pixels_width_only (options : ConversionOptions) :
  sizeMode options = Pixels -> Ieee.isDouble (w options) ->
  0 < w options <= 4294967296 -> h options == 0 ->
  let sW := inject_Z sourceW in
  let sH := inject_Z sourceH in
  let out := Ieee.computeOutputSize sW sH options in
  let q := w options * sH / sW in
  width out = w options /\
  height out == Math_round (Ieee.div (w options) (Ieee.div sW sH)) /\
  (q * (1 - Ieee.slack) - (1 # 2) <= height out
   <= q * (1 + Ieee.slack) + (1 # 2)) /\
  (sW * (1 + Ieee.slack) <= 2 * w options * sH -> 1 <= height out) /\
  (2 * w options * sH * (1 + Ieee.slack) < sW -> height out == 0).
Proof.
  intros Hmode _ [Hw _] Hh sW sH out q.
  destruct source_range as [Rw Rh]. fold sW in Rw. fold sH in Rh.
  assert (Tw : truthy (w options) = true) by (apply truthy_pos; exact Hw).
  assert (Th : truthy (h options) = false).
  { unfold truthy. rewrite (Qeq_eq_bool _ _ Hh). reflexivity. }
  assert (Hout : out = {| width := w options;
                          height := Math_round (Ieee.div (w options)
                                                  (Ieee.div sW sH)) |}).
  { subst out. unfold Ieee.computeOutputSize. rewrite Hmode, Tw, Th. reflexivity. }
  rewrite Hout. cbn [width height]. clear Hout out.
  destruct (width_only_close (w options) Hw) as (Hy & Y).
  fold sW sH in Hy, Y. fold q in Y.
  assert (Hq : 0 <= q).
  { unfold q. apply Qlt_le_weak, Qlt_shift_div_l; [lra|].
    assert (0 < w options * sH) by (apply Qmult_lt_0_compat; lra). lra. }
  destruct (rounded_close _ q Hy Hq Y) as (C1 & C2 & C3).
  split; [reflexivity|]. split; [reflexivity|]. split; [exact C1|].
  assert (E : q * sW == w options * sH) by (unfold q; field; lra).
  unfold Ieee.slack in *. split.
  - intros H. apply C2.
    apply (Qmult_le_r _ _ sW); [lra|]. rewrite E. lra.
  - intros H. apply C3.
    apply (Qmult_lt_r _ _ sW); [lra|].
    assert (X : q * (1 + (1 # 2251799813685248)) * sW
                == q * sW * (1 + (1 # 2251799813685248))) by ring.
    rewrite X, E. lra.
Qed.

(** X11.  Pixels mode with only a height (a double) of at most 2^32
    requested, for a
    positive integer source size below 2^32: the height is the request; the
    width is
    [round(h * (sourceW / sourceH))] in doubles, which is the exact quotient
    [h * sourceW / sourceH] up to the fraction [2^-51] and half a pixel; it
    is at least one pixel when [sourceH * (1 + 2^-51) <= 2 * h * sourceW],
    and zero when [2 * h * sourceW * (1 + 2^-51) < sourceH]. *)
Theorem pixels_height_only (options : ConversionOptions) :
  sizeMode options = Pixels -> Ieee.isDouble (h options) ->
  w options == 0 -> 0 < h options <= 4294967296 ->
  let sW := inject_Z sourceW in
  let sH := inject_Z sourceH in
  let out := Ieee.computeOutputSize sW sH options in
  let q := h options * sW / sH in
  height out = h options /\
  width out == Math_round (Ieee.mul (h options) (Ieee.div sW sH)) /\
  (q * (1 - Ieee.slack) - (1 # 2) <= width out
   <= q * (1 + Ieee.slack) + (1 # 2)) /\
  (sH * (1 + Ieee.slack) <= 2 * h options * sW -> 1 <= width out) /\
  (2 * h options * sW * (1 + Ieee.slack) < sH -> width out == 0).
Proof.
  intros Hmode _ Hw [Hh _] sW sH out q.
  destruct source_range as [Rw Rh]. fold sW in Rw. fold sH in Rh.
  assert (Th : truthy (h options) = true) by (apply truthy_pos; exact Hh).
  assert (Tw : truthy (w options) = false).
  { unfold truthy. rewrite (Qeq_eq_bool _ _ Hw). reflexivity. }
  assert (Hout : out = {| width := Math_round (Ieee.mul (h options)
                                                 (Ieee.div sW sH));
                          height := h options |}).
  { subst out. unfold Ieee.computeOutputSize. rewrite Hmode, Tw, Th. reflexivity. }
  rewrite Hout. cbn [width height]. clear Hout out.
  destruct (height_only_close (h options) Hh) as (Hy & Y).
  fold sW sH in Hy, Y. fold q in Y.
  assert (Hq : 0 <= q).
  { unfold q. apply Qlt_le_weak, Qlt_shift_div_l; [lra|].
    assert (0 < h options * sW) by (apply Qmult_lt_0_compat; lra). lra. }
  destruct (rounded_close _ q Hy Hq Y) as (C1 & C2 & C3).
  split; [reflexivity|]. split; [reflexivity|]. split; [exact C1|].
  assert (E : q * sH == h options * sW) by (unfold q; field; lra).
  unfold Ieee.slack in *. split.
  - intros H. apply C2.
    apply (Qmult_le_r _ _ sH); [lra|]. rewrite E. lra.
  - intros H. apply C3.
    apply (Qmult_lt_r _ _ sH); [lra|].
    assert (X : q * (1 + (1 # 2251799813685248)) * sH
                == q * sH * (1 + (1 # 2251799813685248))) by ring.
    rewrite X, E. lra.
Qed.

End DoubleResolver.

(** ** Rect compositor in doubles *)

Section DoubleCompositor.

Variables sourceW sourceH targetW targetH : Z.
Hypothesis sourceW_range : (0 < sourceW < 4294967296)%Z.
Hypothesis sourceH_range : (0 < sourceH < 4294967296)%Z.
Hypothesis targetW_range : (0 < targetW < 4294967296)%Z.
Hypothesis targetH_range : (0 < targetH < 4294967296)%Z.

Lemma dims_range :
  (0 < inject_Z sourceW <= 4294967296 /\ 0 < inject_Z sourceH <= 4294967296) /\
  (0 < inject_Z targetW <= 4294967296 /\ 0 < inject_Z targetH <= 4294967296).
Proof.
  change 0 with (inject_Z 0). change 4294967296 with (inject_Z 4294967296).
  rewrite <- !Zle_Qle, <- !Zlt_Qlt. lia.
Qed.

(** A rounded side that is at most [t] leaves a whole, centred margin. *)
Lemma centre_rounded (t : Z) (x : Q) :
  (0 < t < 4294967296)%Z -> 0 <= x -> Math_round x <= inject_Z t ->
  Math_floor (Ieee.div (Ieee.sub (inject_Z t) (Math_round x)) 2)
  = Math_floor ((inject_Z t - Math_round x) / 2).
Proof.
  intros Ht Hx Hle. apply Math_floor_comp.
  pose proof (Math_round_nonneg x Hx) as H0.
  unfold Math_round in *. apply centre_exact; [|lia].
  change 0 with (inject_Z 0) in H0. rewrite <- Zle_Qle in H0, Hle. lia.
Qed.

Lemma centre_full (t : Z) :
  (0 < t < 4294967296)%Z ->
  Math_floor (Ieee.div (Ieee.sub (inject_Z t) (inject_Z t)) 2)
  = Math_floor ((inject_Z t - inject_Z t) / 2).
Proof.
  intros Ht. apply Math_floor_comp, centre_exact; lia.
Qed.

(** The sides that fit [contain] and fit [cover] compute, and how each
    compares with the side it must not exceed. *)
Lemma fitted_sides (a b c d : Z) :
  (0 < a < 4294967296)%Z -> (0 < b < 4294967296)%Z ->
  (0 < c < 4294967296)%Z -> (0 < d < 4294967296)%Z ->
  let ab := Ieee.div (inject_Z a) (inject_Z b) in
  let cd := Ieee.div (inject_Z c) (inject_Z d) in
  (cd < ab ->
   0 <= Ieee.div (inject_Z c) ab /\
   Math_round (Ieee.div (inject_Z c) ab) <= inject_Z d) /\
  (~ cd < ab ->
   0 <= Ieee.mul (inject_Z d) ab /\
   Math_round (Ieee.mul (inject_Z d) ab) <= inject_Z c) /\
  (cd < ab ->
   0 <= Ieee.mul (inject_Z b) cd /\
   Math_round (Ieee.mul (inject_Z b) cd) <= inject_Z a) /\
  (~ cd < ab ->
   0 <= Ieee.div (inject_Z a) cd /\
   Math_round (Ieee.div (inject_Z a) cd) <= inject_Z b).
Proof.
  intros Ha Hb Hc Hd ab cd.
  assert (R : forall z : Z, (0 < z < 4294967296)%Z ->
                            0 < inject_Z z <= 4294967296).
  { intros z Hz. change 0 with (inject_Z 0).
    change 4294967296 with (inject_Z 4294967296).
    rewrite <- Zle_Qle, <- Zlt_Qlt. lia. }
  pose proof (R a Ha) as Qa. pose proof (R b Hb) as Qb.
  pose proof (R c Hc) as Qc. pose proof (R d Hd) as Qd.
  destruct (div_near (inject_Z a) (inject_Z b)) as (Pab & _); [lra | lra |].
  destruct (div_near (inject_Z c) (inject_Z d)) as (Pcd & _); [lra | lra |].
  fold ab in Pab. fold cd in Pcd.
  split; [|split; [|split]]; intros Hcmp.
  - destruct (div_back (inject_Z c) (inject_Z d) ab) as [P B];
      [lra | lra | fold cd; lra |].
    split; [lra | apply Math_round_below_half; exact B].
  - destruct (mul_back (inject_Z c) (inject_Z d) ab) as [P B];
      [lra | lra | fold cd; lra |].
    split; [lra | apply Math_round_below_half; exact B].
  - destruct (mul_back (inject_Z a) (inject_Z b) cd) as [P B];
      [lra | lra | fold ab; lra |].
    split; [lra | apply Math_round_below_half; exact B].
  - destruct (div_back (inject_Z a) (inject_Z b) cd) as [P B];
      [lra | lra | fold ab; lra |].
    split; [lra | apply Math_round_below_half; exact B].
Qed.

(** C6.  For positive integer source and target dimensions below 2^32, fit
    [contain] draws the full source; with [sa] and [ta] the doubles nearest
    to the source and target aspect ratios, when [sa] exceeds [ta] the
    destination is [targetW] wide and [round(targetW / sa)] high, otherwise
    it is [targetH] high and [round(targetH * sa)] wide, the quotient and
    the product being rounded to doubles; it is centred with [floor]
    offsets; it lies inside the target canvas, so its area is at most the
    canvas area. *)
Theorem contain_rects :
  let sW := inject_Z sourceW in
  let sH := inject_Z sourceH in
  let tW := inject_Z targetW in
  let tH := inject_Z targetH in
  let sa := Ieee.div sW sH in
  let ta := Ieee.div tW tH in
  let r := Ieee.computeDrawRects sW sH tW tH Contain in
  (sx r == 0 /\ sy r == 0 /\ sw r == sW /\ sh r == sH) /\
  (ta < sa -> dw r == tW /\ dh r == Math_round (Ieee.div tW sa)) /\
  (~ ta < sa -> dh r == tH /\ dw r == Math_round (Ieee.mul tH sa)) /\
  dx r == Math_floor ((tW - dw r) / 2) /\
  dy r == Math_floor ((tH - dh r) / 2) /\
  (0 <= dw r <= tW /\ 0 <= dh r <= tH) /\
  dw r * dh r <= tW * tH.
Proof.
  intros sW sH tW tH sa ta r.
  destruct dims_range as ((Rsw & Rsh) & (Rtw & Rth)).
  fold sW in Rsw. fold sH in Rsh. fold tW in Rtw. fold tH in Rth.
  destruct (fitted_sides sourceW sourceH targetW targetH)
    as (Fwide & Ftall & _); try assumption.
  fold sW sH tW tH in Fwide, Ftall. fold sa in Fwide, Ftall. fold ta in Fwide, Ftall.
  assert (Hr : r =
    {| sx := 0; sy := 0; sw := sW; sh := sH;
       dx := Math_floor (Ieee.div (Ieee.sub tW
               (if gt sa ta then tW else Math_round (Ieee.mul tH sa))) 2);
       dy := Math_floor (Ieee.div (Ieee.sub tH
               (if gt sa ta then Math_round (Ieee.div tW sa) else tH)) 2);
       dw := if gt sa ta then tW else Math_round (Ieee.mul tH sa);
       dh := if gt sa ta then Math_round (Ieee.div tW sa) else tH |}).
  { subst r. unfold Ieee.computeDrawRects.
    rewrite (truthy_pos tW), (truthy_pos tH) by lra. reflexivity. }
  rewrite Hr. cbn [sx sy sw sh dx dy dw dh]. clear Hr r.
  destruct (gt sa ta) eqn:G.
  - apply gt_true in G. destruct (Fwide G) as [P B].
    pose proof (Math_round_nonneg _ P) as N.
    assert (Cx : Math_floor (Ieee.div (Ieee.sub tW tW) 2)
                 = Math_floor ((tW - tW) / 2))
      by (apply centre_full; assumption).
    assert (Cy : Math_floor (Ieee.div (Ieee.sub tH
                   (Math_round (Ieee.div tW sa))) 2)
                 = Math_floor ((tH - Math_round (Ieee.div tW sa)) / 2))
      by (apply centre_rounded; assumption).
    rewrite Cx, Cy.
    repeat split; try reflexivity; try lra.
    apply Qmult_le_compat_nonneg; split; lra.
  - apply gt_false in G.
    assert (G' : ~ ta < sa) by lra. destruct (Ftall G') as [P B].
    pose proof (Math_round_nonneg _ P) as N.
    assert (Cx : Math_floor (Ieee.div (Ieee.sub tW
                   (Math_round (Ieee.mul tH sa))) 2)
                 = Math_floor ((tW - Math_round (Ieee.mul tH sa)) / 2))
      by (apply centre_rounded; assumption).
    assert (Cy : Math_floor (Ieee.div (Ieee.sub tH tH) 2)
                 = Math_floor ((tH - tH) / 2))
      by (apply centre_full; assumption).
    rewrite Cx, Cy.
    repeat split; try reflexivity; try lra.
    apply Qmult_le_compat_nonneg; split; lra.
Qed.

(** X3.  For positive integer source and target dimensions below 2^32, fit
    [cover] fills the whole canvas; with [sa] and [ta] the doubles nearest
    to the source and target aspect ratios, when [sa] exceeds [ta] the crop
    keeps the source height and is [round(sourceH * ta)] wide, otherwise it
    keeps the source width and is [round(sourceW / ta)] high, the product
    and the quotient being rounded to doubles; the crop is centred with
    [floor] offsets and lies inside the source. *)
Theorem cover_rects :
  let sW := inject_Z sourceW in
  let sH := inject_Z sourceH in
  let tW := inject_Z targetW in
  let tH := inject_Z targetH in
  let sa := Ieee.div sW sH in
  let ta := Ieee.div tW tH in
  let r := Ieee.computeDrawRects sW sH tW tH Cover in
  (dx r == 0 /\ dy r == 0 /\ dw r == tW /\ dh r == tH) /\
  (ta < sa -> sh r == sH /\ sw r == Math_round (Ieee.mul sH ta)) /\
  (~ ta < sa -> sw r == sW /\ sh r == Math_round (Ieee.div sW ta)) /\
  sx r == Math_floor ((sW - sw r) / 2) /\
  sy r == Math_floor ((sH - sh r) / 2) /\
  (0 <= sx r /\ 0 <= sw r /\ sx r + sw r <= sW) /\
  (0 <= sy r /\ 0 <= sh r /\ sy r + sh r <= sH) /\
  sw r * sh r <= sW * sH.
Proof.
  intros sW sH tW tH sa ta r.
  destruct dims_range as ((Rsw & Rsh) & (Rtw & Rth)).
  fold sW in Rsw. fold sH in Rsh. fold tW in Rtw. fold tH in Rth.
  destruct (fitted_sides sourceW sourceH targetW targetH)
    as (_ & _ & Fwide & Ftall); try assumption.
  fold sW sH tW tH in Fwide, Ftall. fold sa in Fwide, Ftall. fold ta in Fwide, Ftall.
  assert (Hr : r =
    {| sx := Math_floor (Ieee.div (Ieee.sub sW
               (if gt sa ta then Math_round (Ieee.mul sH ta) else sW)) 2);
       sy := Math_floor (Ieee.div (Ieee.sub sH
               (if gt sa ta then sH else Math_round (Ieee.div sW ta))) 2);
       sw := if gt sa ta then Math_round (Ieee.mul sH ta) else sW;
       sh := if gt sa ta then sH else Math_round (Ieee.div sW ta);
       dx := 0; dy := 0; dw := tW; dh := tH |}).
  { subst r. unfold Ieee.computeDrawRects.
    rewrite (truthy_pos tW), (truthy_pos tH) by lra. reflexivity. }
  rewrite Hr. cbn [sx sy sw sh dx dy dw dh]. clear Hr r.
  assert (Zero : forall x : number, Math_floor ((x - x) / 2) == 0).
  { intros x. rewrite (Math_floor_comp ((x - x) / 2) (0 / 2)); [reflexivity|field]. }
  destruct (gt sa ta) eqn:G.
  - apply gt_true in G. destruct (Fwide G) as [P B].
    pose proof (Math_round_nonneg _ P) as N.
    assert (Cx : Math_floor (Ieee.div (Ieee.sub sW
                   (Math_round (Ieee.mul sH ta))) 2)
                 = Math_floor ((sW - Math_round (Ieee.mul sH ta)) / 2))
      by (apply centre_rounded; assumption).
    assert (Cy : Math_floor (Ieee.div (Ieee.sub sH sH) 2)
                 = Math_floor ((sH - sH) / 2))
      by (apply centre_full; assumption).
    rewrite Cx, Cy.
    set (cw := Math_round (Ieee.mul sH ta)) in *. clearbody cw.
    pose proof (Math_floor_le ((sW - cw) / 2)) as Fx.
    destruct (half_bounds (sW - cw)) as [Px Qx]; [lra|].
    pose proof (Math_floor_nonneg _ Px) as Nx.
    pose proof (Zero sH) as Zy.
    repeat split; try reflexivity; try lra.
    apply Qmult_le_compat_nonneg; split; lra.
  - apply gt_false in G.
    assert (G' : ~ ta < sa) by lra. destruct (Ftall G') as [P B].
    pose proof (Math_round_nonneg _ P) as N.
    assert (Cx : Math_floor (Ieee.div (Ieee.sub sW sW) 2)
                 = Math_floor ((sW - sW) / 2))
      by (apply centre_full; assumption).
    assert (Cy : Math_floor (Ieee.div (Ieee.sub sH
                   (Math_round (Ieee.div sW ta))) 2)
                 = Math_floor ((sH - Math_round (Ieee.div sW ta)) / 2))
      by (apply centre_rounded; assumption).
    rewrite Cx, Cy.
    set (ch := Math_round (Ieee.div sW ta)) in *. clearbody ch.
    pose proof (Math_floor_le ((sH - ch) / 2)) as Fy.
    destruct (half_bounds (sH - ch)) as [Py Qy]; [lra|].
    pose proof (Math_floor_nonneg _ Py) as Ny.
    pose proof (Zero sW) as Zx.
    repeat split; try reflexivity; try lra.
    apply Qmult_le_compat_nonneg; split; lra.
Qed.

End DoubleCompositor.

(** ** Examples in doubles *)

(** Source 100 x 100 at 5000 percent is 1000 x 1000. *)
Lemma scale_mode_5000_percent :
  ((0 < 100 < 4294967296)%Z /\ (0 < 100 < 4294967296)%Z /\
   sizeMode (withSize Scale 0 0 5000 baseOptions) = Scale /\
   Ieee.isDouble (scalePct (withSize Scale 0 0 5000 baseOptions))) /\
  width (Ieee.computeOutputSize 100 100 (withSize Scale 0 0 5000 baseOptions))
  == 1000 /\
  height (Ieee.computeOutputSize 100 100 (withSize Scale 0 0 5000 baseOptions))
  == 1000.
Proof.
  assert (H : (0 < 100 < 4294967296)%Z) by lia.
  assert (D : Ieee.isDouble (scalePct (withSize Scale 0 0 5000 baseOptions)))
    by (vm_compute; reflexivity).
  split; [repeat split; try reflexivity; exact D|].
  destruct (scale_mode_size 100 100 H H (withSize Scale 0 0 5000 baseOptions)
              eq_refl D) as ((Hw & Hh) & _).
  split; [rewrite Hw | rewrite Hh]; vm_compute; reflexivity.
Defined.

(** Source 100 x 100 at 0.5 percent is 1 x 1. *)
Example scale_half_percent :
  let out :=
    Ieee.computeOutputSize 100 100 (withSize Scale 0 0 (1 # 2) baseOptions) in
  width out == 1 /\ height out == 1.
Proof. split; vm_compute; reflexivity. Qed.

(** The claim C7 as stated fails on the code.  A 250 x 250 source at 201
    percent resolves to 502 x 502: the double nearest to 2.01 lies below it,
    so the product falls just below 502.5.  The claimed
    [round(250 * 201 / 100)] is 503, computed exactly, and also when the
    product is taken first and divided by 100 in doubles. *)
Lemma scale_201_percent_of_250 :
  let options := withSize Scale 0 0 201 baseOptions in
  let out := Ieee.computeOutputSize 250 250 options in
  width out == 502 /\
  ~ width out == Math_max 1 (Math_round (250 * clamp 201 1 1000 / 100)) /\
  ~ width out
    == Math_max 1 (Math_round (Ieee.div (Ieee.mul 250 (clamp 201 1 1000)) 100)).
Proof.
  cbv zeta. split; [vm_compute; reflexivity|].
  split; intros H; vm_compute in H; discriminate H.
Qed.

(** Source 200 x 100 with a requested width of 150 gives a height of 75. *)
Lemma pixels_width_only_example :
  ((0 < 200 < 4294967296)%Z /\ (0 < 100 < 4294967296)%Z /\
   sizeMode (withSize Pixels 150 0 100 baseOptions) = Pixels /\
   Ieee.isDouble (w (withSize Pixels 150 0 100 baseOptions)) /\
   0 < w (withSize Pixels 150 0 100 baseOptions) <= 4294967296 /\
   h (withSize Pixels 150 0 100 baseOptions) == 0) /\
  let out :=
    Ieee.computeOutputSize 200 100 (withSize Pixels 150 0 100 baseOptions) in
  width out = 150 /\ height out == 75 /\ 1 <= height out.
Proof.
  assert (H2 : (0 < 200 < 4294967296)%Z) by lia.
  assert (H1 : (0 < 100 < 4294967296)%Z) by lia.
  assert (Hreq : 0 < w (withSize Pixels 150 0 100 baseOptions) <= 4294967296)
    by (split; [reflexivity | discriminate]).
  assert (D : Ieee.isDouble (w (withSize Pixels 150 0 100 baseOptions)))
    by (vm_compute; reflexivity).
  split; [repeat split; try reflexivity; try exact D; discriminate|].
  destruct (pixels_width_only 200 100 H2 H1
              (withSize Pixels 150 0 100 baseOptions) eq_refl D Hreq eq_refl)
    as (Hw & Hh & _ & Hge & _).
  split; [exact Hw|]. split; [rewrite Hh; vm_compute; reflexivity|].
  apply Hge. vm_compute. discriminate.
Defined.

(** A 2 x 75 source with a requested width of 3 gives a height of 112: the
    exact quotient is 112.5, the quotient in doubles lies just below it. *)
Example pixels_width_3_of_2x75 :
  let out :=
    Ieee.computeOutputSize 2 75 (withSize Pixels 3 0 100 baseOptions) in
  height out == 112 /\ Math_round (3 * 75 / 2) == 113.
Proof. split; vm_compute; reflexivity. Qed.

(** Source 200 x 100 with a requested height of 50 gives a width of 100. *)
Lemma pixels_height_only_example :
  ((0 < 200 < 4294967296)%Z /\ (0 < 100 < 4294967296)%Z /\
   sizeMode (withSize Pixels 0 50 100 baseOptions) = Pixels /\
   Ieee.isDouble (h (withSize Pixels 0 50 100 baseOptions)) /\
   w (withSize Pixels 0 50 100 baseOptions) == 0 /\
   0 < h (withSize Pixels 0 50 100 baseOptions) <= 4294967296) /\
  let out :=
    Ieee.computeOutputSize 200 100 (withSize Pixels 0 50 100 baseOptions) in
  height out = 50 /\ width out == 100 /\ 1 <= width out.
Proof.
  assert (H2 : (0 < 200 < 4294967296)%Z) by lia.
  assert (H1 : (0 < 100 < 4294967296)%Z) by lia.
  assert (Hreq : 0 < h (withSize Pixels 0 50 100 baseOptions) <= 4294967296)
    by (split; [reflexivity | discriminate]).
  assert (D : Ieee.isDouble (h (withSize Pixels 0 50 100 baseOptions)))
    by (vm_compute; reflexivity).
  split; [repeat split; try reflexivity; try exact D; discriminate|].
  destruct (pixels_height_only 200 100 H2 H1
              (withSize Pixels 0 50 100 baseOptions) eq_refl D eq_refl Hreq)
    as (Hh & Hw & _ & Hge & _).
  split; [exact Hh|]. split; [rewrite Hw; vm_compute; reflexivity|].
  apply Hge. vm_compute. discriminate.
Defined.

(** A 1 x 98 source with a requested height of 49 gives a width of 0: the
    exact product is one half, the product in doubles lies just below it. *)
Example pixels_height_49_of_1x98 :
  let out :=
    Ieee.computeOutputSize 1 98 (withSize Pixels 0 49 100 baseOptions) in
  width out == 0 /\ Math_round (49 * 1 / 98) == 1.
Proof. split; vm_compute; reflexivity. Qed.

(** A 200 x 100 source letterboxed into 100 x 100 is drawn 100 x 50 at
    offset (0, 25). *)
Lemma contain_rects_example :
  ((0 < 200 < 4294967296)%Z /\ (0 < 100 < 4294967296)%Z /\
   (0 < 100 < 4294967296)%Z /\ (0 < 100 < 4294967296)%Z) /\
  let r := Ieee.computeDrawRects 200 100 100 100 Contain in
  (sx r == 0 /\ sy r == 0 /\ sw r == 200 /\ sh r == 100) /\
  (dw r == 100 /\ dh r == 50) /\
  (dx r == 0 /\ dy r == 25) /\
  dw r * dh r <= 100 * 100.
Proof.
  assert (H2 : (0 < 200 < 4294967296)%Z) by lia.
  assert (H1 : (0 < 100 < 4294967296)%Z) by lia.
  split; [repeat split; reflexivity|].
  destruct (contain_rects 200 100 100 100 H2 H1 H1 H1)
    as (Hsrc & Hwide & _ & Hdx & Hdy & _ & Harea).
  assert (Hlt : Ieee.div 100 100 < Ieee.div 200 100)
    by (vm_compute; reflexivity).
  destruct (Hwide Hlt) as [Hdw Hdh].
  split; [exact Hsrc|]. split; [|split; [|exact Harea]].
  - split; [exact Hdw | rewrite Hdh; vm_compute; reflexivity].
  - split; [rewrite Hdx | rewrite Hdy]; vm_compute; reflexivity.
Defined.

(** The claim C6 as stated fails on the code.  For a 10 x 29 source
    letterboxed into 5 x 15 the source aspect exceeds the target aspect and
    the exactly computed height is [round(5 / (10 / 29)) = round(14.5) = 15];
    in doubles the quotient falls just below 14.5 and the height is 14. *)
Lemma contain_10x29_into_5x15 :
  let r := Ieee.computeDrawRects 10 29 5 15 Contain in
  5 / 15 < 10 / 29 /\
  dh r == 14 /\
  ~ dh r == Math_round (5 / (10 / 29)).
Proof.
  cbv zeta. split; [reflexivity|]. split; [vm_compute; reflexivity|].
  intros H. vm_compute in H. discriminate H.
Qed.

(** A 200 x 100 source cropped to fill 100 x 100 keeps its height and the
    middle 100 columns. *)
Lemma cover_rects_example :
  ((0 < 200 < 4294967296)%Z /\ (0 < 100 < 4294967296)%Z /\
   (0 < 100 < 4294967296)%Z /\ (0 < 100 < 4294967296)%Z) /\
  let r := Ieee.computeDrawRects 200 100 100 100 Cover in
  (dx r == 0 /\ dy r == 0 /\ dw r == 100 /\ dh r == 100) /\
  (sh r == 100 /\ sw r == 100) /\
  (sx r == 50 /\ sy r == 0).
Proof.
  assert (H2 : (0 < 200 < 4294967296)%Z) by lia.
  assert (H1 : (0 < 100 < 4294967296)%Z) by lia.
  split; [repeat split; reflexivity|].
  destruct (cover_rects 200 100 100 100 H2 H1 H1 H1)
    as (Hdst & Hwide & _ & Hsx & Hsy & _).
  assert (Hlt : Ieee.div 100 100 < Ieee.div 200 100)
    by (vm_compute; reflexivity).
  destruct (Hwide Hlt) as [Hsh Hsw].
  split; [exact Hdst|]. split.
  - split; [exact Hsh | rewrite Hsw; vm_compute; reflexivity].
  - split; [rewrite Hsx | rewrite Hsy]; vm_compute; reflexivity.
Defined.

(** A 5 x 15 source cropped to fill 10 x 29 keeps its width and 14 rows:
    the exact quotient is 14.5, the quotient in doubles lies just below
    it. *)
Example cover_5x15_into_10x29 :
  let r := Ieee.computeDrawRects 5 15 10 29 Cover in
  sw r == 5 /\ sh r == 14 /\ Math_round (5 / (10 / 29)) == 15.
Proof. repeat split; vm_compute; reflexivity. Qed.
